(** * RPC client multiplexer over a framed TCP transport

    A shallow embedding of [IronfishRpcClient] (rpc/clients/rpcClient.ts) and
    [IronfishTcpClient] (rpc/clients/tcpClient.ts).

    The text on the wire is a list of 8-bit characters and a JS string is a
    list of UTF-16 code units; a character of the wire stands for the code unit
    of its code, so that the UTF-8 transfer encoding of the socket
    ([socket.write(string)], [buffer.toString('utf-8')]) is the identity, as it
    is on ASCII text.  Message ids, statuses and timeouts are integers. *)

From Stdlib Require Import List String Ascii ZArith NArith Lia Bool Arith.
From Stdlib Require DecimalFacts DecimalPos DecimalN.
Import ListNotations.


(** ** Text *)

Definition text := list ascii.

Definition lit (s : string) : text := list_ascii_of_string s.
Arguments lit s%_string : simpl never.

Definition code (c : ascii) : N := N_of_ascii c.

(** A JS string: its UTF-16 code units. *)
Definition jstr := list N.

Definition str (s : string) : jstr := map code (lit s).
Arguments str s%_string : simpl never.

Fixpoint jstr_eqb (a b : jstr) : bool :=
  match a, b with
  | [], [] => true
  | x :: a', y :: b' => (x =? y)%N && jstr_eqb a' b'
  | _, _ => false
  end.

(** The double quote, and text written with apostrophes for double quotes. *)
Definition dquote : ascii := ascii_of_N 34.

Definition js (s : string) : text :=
  map (fun c => if (c =? "'")%char then dquote else c) (lit s).
Arguments js s%_string.

Fixpoint text_eqb (a b : text) : bool :=
  match a, b with
  | [], [] => true
  | x :: a', y :: b' => (x =? y)%char && text_eqb a' b'
  | _, _ => false
  end.

(** ** JSON values

    A JS object is its list of own properties in property order.  A number
    that is a safe integer is [JNum], the integer itself.  Any other number is
    [JDec], the numeral that writes it: negative zero, the numbers with a
    fraction and the numbers beyond the safe integers.  [JSON.parse] keeps the
    numeral as it is written, where JS rounds it to the nearest double, and
    [JSON.stringify] writes the numeral back, which is what JS writes when the
    numeral is the one that Number::toString gives for the number
    ([number_form]); the rounding of a numeral to a double is not modelled. *)

Module Json.

Local Open Scope char_scope.

#[local] Unset Elimination Schemes.
Inductive json : Type :=
| JNull
| JBool (b : bool)
| JNum (n : Z)
| JDec (d : Decimal.decimal)
| JStr (s : jstr)
| JArr (l : list json)
| JObj (m : list (jstr * json)).
#[local] Set Elimination Schemes.

Section json_induction.
Variable P : json -> Prop.
Hypothesis Hnull : P JNull.
Hypothesis Hbool : forall b, P (JBool b).
Hypothesis Hnum : forall n, P (JNum n).
Hypothesis Hdec : forall d, P (JDec d).
Hypothesis Hstr : forall s, P (JStr s).
Hypothesis Harr : forall l, Forall P l -> P (JArr l).
Hypothesis Hobj : forall m, Forall (fun kv => P (snd kv)) m -> P (JObj m).

Fixpoint json_ind' (v : json) : P v :=
  match v with
  | JNull => Hnull
  | JBool b => Hbool b
  | JNum n => Hnum n
  | JDec d => Hdec d
  | JStr s => Hstr s
  | JArr l =>
      Harr l ((fix go (l : list json) : Forall P l :=
               match l with
               | [] => Forall_nil _
               | x :: r => Forall_cons x (json_ind' x) (go r)
               end) l)
  | JObj m =>
      Hobj m ((fix go (m : list (jstr * json)) : Forall (fun kv => P (snd kv)) m :=
               match m with
               | [] => Forall_nil _
               | kv :: r => Forall_cons kv (json_ind' (snd kv)) (go r)
               end) m)
  end.
End json_induction.

(** *** JSON.stringify *)

Fixpoint digits (d : Decimal.uint) : text :=
  match d with
  | Decimal.Nil => []
  | Decimal.D0 d => "0" :: digits d
  | Decimal.D1 d => "1" :: digits d
  | Decimal.D2 d => "2" :: digits d
  | Decimal.D3 d => "3" :: digits d
  | Decimal.D4 d => "4" :: digits d
  | Decimal.D5 d => "5" :: digits d
  | Decimal.D6 d => "6" :: digits d
  | Decimal.D7 d => "7" :: digits d
  | Decimal.D8 d => "8" :: digits d
  | Decimal.D9 d => "9" :: digits d
  end.

Definition showZ (n : Z) : text :=
  match n with
  | Z0 => ["0"]
  | Zpos p => digits (Pos.to_uint p)
  | Zneg p => "-" :: digits (Pos.to_uint p)
  end.

Definition show_uint (d : Decimal.uint) : text :=
  match d with
  | Decimal.Nil => ["0"]
  | _ => digits d
  end.

Definition show_int (i : Decimal.int) : text :=
  match i with
  | Decimal.Pos d => show_uint d
  | Decimal.Neg d => "-" :: show_uint d
  end.

Definition show_fraction (f : Decimal.uint) : text :=
  match f with
  | Decimal.Nil => []
  | _ => "." :: digits f
  end.

(** The exponent of Number::toString is written with its sign. *)
Definition show_exponent (e : Decimal.int) : text :=
  match e with
  | Decimal.Pos u => "e" :: "+" :: show_uint u
  | Decimal.Neg u => "e" :: "-" :: show_uint u
  end.

Definition show_decimal (d : Decimal.decimal) : text :=
  match d with
  | Decimal.Decimal i f => show_int i ++ show_fraction f
  | Decimal.DecimalExp i f e => show_int i ++ show_fraction f ++ show_exponent e
  end.

Definition uint_of (i : Decimal.int) : Decimal.uint :=
  match i with Decimal.Pos u | Decimal.Neg u => u end.

Definition all_zero (u : Decimal.uint) : bool :=
  match Decimal.nzhead u with Decimal.Nil => true | _ => false end.

(** A numeral of zero, whatever its sign and its exponent: Number::toString
    writes ["0"] for zero and for negative zero. *)
Definition is_zero (d : Decimal.decimal) : bool :=
  match d with
  | Decimal.Decimal i f | Decimal.DecimalExp i f _ => all_zero (uint_of i) && all_zero f
  end.

Definition hexdigit (n : N) : ascii :=
  if (n <? 10)%N then ascii_of_N (48 + n) else ascii_of_N (87 + n).

(** QuoteJSONString, one code unit of the 8-bit range: the two-character
    escapes, [\u00xx] for the other control characters, the character itself
    otherwise. *)
Definition escape_char (c : ascii) : text :=
  if (c =? dquote)%char then ["\"; dquote]
  else if (c =? "\")%char then ["\"; "\"]
  else if (code c =? 8)%N then ["\"; "b"]
  else if (code c =? 9)%N then ["\"; "t"]
  else if (code c =? 10)%N then ["\"; "n"]
  else if (code c =? 12)%N then ["\"; "f"]
  else if (code c =? 13)%N then ["\"; "r"]
  else if (code c <? 32)%N then
    ["\"; "u"; "0"; "0"; hexdigit (code c / 16); hexdigit (code c mod 16)]
  else [c].

(** A code unit above the 8-bit range has no character on the wire of the
    model: it is written as its escape [\uxxxx], which denotes it. *)
Definition escape (n : N) : text :=
  if (n <? 256)%N then escape_char (ascii_of_N n)
  else ["\"; "u"; hexdigit (n / 4096 mod 16); hexdigit (n / 256 mod 16);
        hexdigit (n / 16 mod 16); hexdigit (n mod 16)].

Definition quote (s : jstr) : text :=
  dquote :: flat_map escape s ++ [dquote].

Fixpoint join (sep : text) (l : list text) : text :=
  match l with
  | [] => []
  | x :: r =>
      match r with
      | [] => x
      | _ :: _ => x ++ sep ++ join sep r
      end
  end.

Fixpoint JSON_stringify (v : json) : text :=
  match v with
  | JNull => lit "null"
  | JBool true => lit "true"
  | JBool false => lit "false"
  | JNum n => showZ n
  | JDec d => if is_zero d then ["0"] else show_decimal d
  | JStr s => quote s
  | JArr l => "[" :: join [","] (map JSON_stringify l) ++ ["]"]
  | JObj m =>
      "{" :: join [","]
               (map (fun kv : jstr * json =>
                       let (k, x) := kv in quote k ++ ":" :: JSON_stringify x) m)
          ++ ["}"]
  end.

(** *** JSON.parse *)

Definition is_json_ws (c : ascii) : bool :=
  (code c =? 32)%N || (code c =? 9)%N || (code c =? 10)%N || (code c =? 13)%N.

Fixpoint skip_ws (s : text) : text :=
  match s with
  | c :: r => if is_json_ws c then skip_ws r else s
  | [] => []
  end.

Fixpoint strip_prefix (p s : text) : option text :=
  match p, s with
  | [], _ => Some s
  | a :: p', b :: s' => if (a =? b)%char then strip_prefix p' s' else None
  | _ :: _, [] => None
  end.

Definition digit_of (c : ascii) : option (Decimal.uint -> Decimal.uint) :=
  if (c =? "0")%char then Some Decimal.D0
  else if (c =? "1")%char then Some Decimal.D1
  else if (c =? "2")%char then Some Decimal.D2
  else if (c =? "3")%char then Some Decimal.D3
  else if (c =? "4")%char then Some Decimal.D4
  else if (c =? "5")%char then Some Decimal.D5
  else if (c =? "6")%char then Some Decimal.D6
  else if (c =? "7")%char then Some Decimal.D7
  else if (c =? "8")%char then Some Decimal.D8
  else if (c =? "9")%char then Some Decimal.D9
  else None.

Fixpoint parse_digits (s : text) : Decimal.uint * text :=
  match s with
  | c :: r =>
      match digit_of c with
      | Some k => let (d, r') := parse_digits r in (k d, r')
      | None => (Decimal.Nil, s)
      end
  | [] => (Decimal.Nil, [])
  end.

(** The characters that continue a number literal after its integer part. *)
Definition continues_number (s : text) : bool :=
  match s with
  | c :: _ =>
      match digit_of c with
      | Some _ => true
      | None => (c =? ".")%char || (c =? "e")%char || (c =? "E")%char
      end
  | [] => false
  end.

(** The integer part of a number literal: digits without a leading zero. *)
Definition parse_int (s : text) : option (Decimal.uint * text) :=
  match parse_digits s with
  | (Decimal.Nil, _) => None
  | (Decimal.D0 Decimal.Nil, r) => Some (Decimal.D0 Decimal.Nil, r)
  | (Decimal.D0 _, _) => None
  | (d, r) => Some (d, r)
  end.

(** The optional fraction: a point and at least one digit. *)
Definition parse_fraction (s : text) : option (Decimal.uint * text) :=
  match s with
  | c :: r =>
      if (c =? ".")%char then
        match parse_digits r with
        | (Decimal.Nil, _) => None
        | (f, r') => Some (f, r')
        end
      else Some (Decimal.Nil, s)
  | [] => Some (Decimal.Nil, [])
  end.

(** The optional exponent: [e] or [E], an optional sign, at least one digit. *)
Definition parse_exponent (s : text) : option (option Decimal.int * text) :=
  match s with
  | c :: r =>
      if (c =? "e")%char || (c =? "E")%char then
        match r with
        | c' :: r' =>
            if (c' =? "-")%char then
              match parse_digits r' with
              | (Decimal.Nil, _) => None
              | (e, r'') => Some (Some (Decimal.Neg e), r'')
              end
            else
              match parse_digits (if (c' =? "+")%char then r' else r) with
              | (Decimal.Nil, _) => None
              | (e, r'') => Some (Some (Decimal.Pos e), r'')
              end
        | [] => None
        end
      else Some (None, s)
  | [] => Some (None, [])
  end.

(** A number literal after its optional minus sign: a safe integer, or the
    numeral; [-0] is negative zero, not the integer zero. *)
Definition parse_number (neg : bool) (s : text) : option (json * text) :=
  match parse_int s with
  | None => None
  | Some (d, r) =>
      match parse_fraction r with
      | None => None
      | Some (f, r1) =>
          match parse_exponent r1 with
          | None => None
          | Some (e, r2) =>
              let i := if neg then Decimal.Neg d else Decimal.Pos d in
              match f, e with
              | Decimal.Nil, None =>
                  let n := Z.of_N (N.of_uint d) in
                  if (n <=? 9007199254740991)%Z && negb (neg && (n =? 0)%Z)
                  then Some (JNum (if neg then - n else n), r2)
                  else Some (JDec (Decimal.Decimal i Decimal.Nil), r2)
              | _, None => Some (JDec (Decimal.Decimal i f), r2)
              | _, Some e => Some (JDec (Decimal.DecimalExp i f e), r2)
              end
          end
      end
  end.

Definition hexval (c : ascii) : option N :=
  let n := code c in
  if (48 <=? n)%N && (n <=? 57)%N then Some (n - 48)%N
  else if (97 <=? n)%N && (n <=? 102)%N then Some (n - 87)%N
  else if (65 <=? n)%N && (n <=? 70)%N then Some (n - 55)%N
  else None.

Definition hex4 (a b c d : ascii) : option N :=
  match hexval a, hexval b, hexval c, hexval d with
  | Some x, Some y, Some z, Some w => Some (((x * 16 + y) * 16 + z) * 16 + w)%N
  | _, _, _, _ => None
  end.

Definition unescape (e : ascii) : option N :=
  if (e =? dquote)%char then Some 34%N
  else if (e =? "\")%char then Some 92%N
  else if (e =? "/")%char then Some 47%N
  else if (e =? "b")%char then Some 8%N
  else if (e =? "f")%char then Some 12%N
  else if (e =? "n")%char then Some 10%N
  else if (e =? "r")%char then Some 13%N
  else if (e =? "t")%char then Some 9%N
  else None.

Definition consfst {A B} (a : A) (r : option (list A * B)) : option (list A * B) :=
  match r with
  | Some (l, b) => Some (a :: l, b)
  | None => None
  end.

(** The characters of a string literal after its opening quote, up to and
    including the closing quote.  A raw control character is a syntax
    error. *)
Fixpoint parse_chars (s : text) : option (jstr * text) :=
  match s with
  | [] => None
  | c :: r =>
      if (c =? dquote)%char then Some ([], r)
      else if (c =? "\")%char then
        match r with
        | e :: r' =>
            if (e =? "u")%char then
              match r' with
              | h1 :: h2 :: h3 :: h4 :: r'' =>
                  match hex4 h1 h2 h3 h4 with
                  | Some n => consfst n (parse_chars r'')
                  | None => None
                  end
              | _ => None
              end
            else
              match unescape e with
              | Some n => consfst n (parse_chars r')
              | None => None
              end
        | [] => None
        end
      else if (code c <? 32)%N then None
      else consfst (code c) (parse_chars r)
  end.

(** Property order of a JS object: the array-index keys in ascending order,
    then the other keys in insertion order. *)
Definition index_of (k : jstr) : option N :=
  if forallb (fun n => n <? 256)%N k then
    match parse_digits (map ascii_of_N k) with
    | (Decimal.Nil, _) => None
    | (Decimal.D0 Decimal.Nil, []) => Some 0%N
    | (Decimal.D0 _, _) => None
    | (d, []) => if (N.of_uint d <=? 4294967294)%N then Some (N.of_uint d) else None
    | (_, _ :: _) => None
    end
  else None.

Fixpoint has_key (k : jstr) (o : list (jstr * json)) : bool :=
  match o with
  | [] => false
  | (k', _) :: r => jstr_eqb k k' || has_key k r
  end.

Fixpoint replace_key (k : jstr) (v : json) (o : list (jstr * json)) : list (jstr * json) :=
  match o with
  | [] => []
  | (k', v') :: r =>
      if jstr_eqb k k' then (k', v) :: r else (k', v') :: replace_key k v r
  end.

Fixpoint insert_index (n : N) (k : jstr) (v : json) (o : list (jstr * json))
  : list (jstr * json) :=
  match o with
  | [] => [(k, v)]
  | (k', v') :: r =>
      match index_of k' with
      | Some n' => if (n' <? n)%N then (k', v') :: insert_index n k v r else (k, v) :: o
      | None => (k, v) :: o
      end
  end.

(** CreateDataProperty: an own key keeps its place and takes the new value. *)
Definition obj_set (k : jstr) (v : json) (o : list (jstr * json)) : list (jstr * json) :=
  if has_key k o then replace_key k v o
  else
    match index_of k with
    | Some n => insert_index n k v o
    | None => o ++ [(k, v)]
    end.

Definition object_of (members : list (jstr * json)) : list (jstr * json) :=
  fold_left (fun o kv => obj_set (fst kv) (snd kv) o) members [].

Fixpoint parse_value (fuel : nat) (s : text) {struct fuel} : option (json * text) :=
  match fuel with
  | O => None
  | S fuel =>
      match skip_ws s with
      | [] => None
      | c :: r =>
          if (c =? "{")%char then
            match skip_ws r with
            | c' :: r' =>
                if (c' =? "}")%char then Some (JObj [], r')
                else
                  match parse_members fuel r with
                  | Some (m, r'') => Some (JObj (object_of m), r'')
                  | None => None
                  end
            | [] => None
            end
          else if (c =? "[")%char then
            match skip_ws r with
            | c' :: r' =>
                if (c' =? "]")%char then Some (JArr [], r')
                else
                  match parse_elements fuel r with
                  | Some (l, r'') => Some (JArr l, r'')
                  | None => None
                  end
            | [] => None
            end
          else if (c =? dquote)%char then
            match parse_chars r with
            | Some (str, r') => Some (JStr str, r')
            | None => None
            end
          else if (c =? "-")%char then
            parse_number true r
          else
            match strip_prefix (lit "null") (c :: r) with
            | Some r' => Some (JNull, r')
            | None =>
                match strip_prefix (lit "true") (c :: r) with
                | Some r' => Some (JBool true, r')
                | None =>
                    match strip_prefix (lit "false") (c :: r) with
                    | Some r' => Some (JBool false, r')
                    | None =>
                        parse_number false (c :: r)
                    end
                end
            end
      end
  end

with parse_elements (fuel : nat) (s : text) {struct fuel} : option (list json * text) :=
  match fuel with
  | O => None
  | S fuel =>
      match parse_value fuel s with
      | Some (v, r) =>
          match skip_ws r with
          | c :: r' =>
              if (c =? ",")%char then
                match parse_elements fuel r' with
                | Some (l, r'') => Some (v :: l, r'')
                | None => None
                end
              else if (c =? "]")%char then Some ([v], r')
              else None
          | [] => None
          end
      | None => None
      end
  end

with parse_members (fuel : nat) (s : text) {struct fuel}
  : option (list (jstr * json) * text) :=
  match fuel with
  | O => None
  | S fuel =>
      match skip_ws s with
      | c :: r =>
          if (c =? dquote)%char then
            match parse_chars r with
            | Some (k, r1) =>
                match skip_ws r1 with
                | c1 :: r2 =>
                    if (c1 =? ":")%char then
                      match parse_value fuel r2 with
                      | Some (v, r3) =>
                          match skip_ws r3 with
                          | c3 :: r4 =>
                              if (c3 =? ",")%char then
                                match parse_members fuel r4 with
                                | Some (m, r5) => Some ((k, v) :: m, r5)
                                | None => None
                                end
                              else if (c3 =? "}")%char then Some ([(k, v)], r4)
                              else None
                          | [] => None
                          end
                      | None => None
                      end
                    else None
                | [] => None
                end
            | None => None
            end
          else None
      | [] => None
      end
  end.

(** [JSON.parse]: one value, optional white space around it, nothing else.
    [None] is a SyntaxError. *)
Definition JSON_parse (s : text) : option json :=
  match parse_value (S (List.length s)) s with
  | Some (v, r) =>
      match skip_ws r with
      | [] => Some v
      | _ :: _ => None
      end
  | None => None
  end.

(** [JSON.parse] of a JS string, whose code units need not be characters of
    the wire.  In a JSON text a code unit above the 8-bit range can only stand
    in a string literal, as itself; there it is read as its escape [\uxxxx]
    is.  Anywhere else, and right after a backslash, it is a syntax error, as
    the control character put in its place is.  [Outside], [Inside] and
    [Escaped] follow the text: outside a string literal, inside one, and after
    a backslash inside one. *)
Inductive Lex : Type := Outside | Inside | Escaped.

Definition lex_step (l : Lex) (n : N) : Lex :=
  match l with
  | Outside => if (n =? 34)%N then Inside else Outside
  | Inside => if (n =? 34)%N then Outside else if (n =? 92)%N then Escaped else Inside
  | Escaped => Inside
  end.

Fixpoint narrow (l : Lex) (s : jstr) : text :=
  match s with
  | [] => []
  | n :: r =>
      (if (n <? 256)%N then [ascii_of_N n]
       else match l with
            | Inside => escape n
            | Outside | Escaped => [ascii_of_N 0]
            end)
      ++ narrow (lex_step l n) r
  end.

Definition JSON_parse_string (s : jstr) : option json :=
  JSON_parse (narrow Outside s).

(** The safe integers of JS, [Number.MIN_SAFE_INTEGER] to
    [Number.MAX_SAFE_INTEGER]. *)
Definition safe_integer (n : Z) : Prop :=
  (- 9007199254740991 <= n <= 9007199254740991)%Z.

(** The digits of a numeral: the first is not zero, the last is not zero. *)
Definition starts_nonzero (u : Decimal.uint) : bool :=
  match u with
  | Decimal.Nil | Decimal.D0 _ => false
  | _ => true
  end.

Definition ends_nonzero (u : Decimal.uint) : bool :=
  negb (last (digits u) "0" =? "0")%char.

(** The significant digits: the digits without the zeros at both ends. *)
Definition significant (u : Decimal.uint) : nat :=
  Decimal.nb_digits (Decimal.nzhead (Decimal.rev (Decimal.nzhead u))).

(** The numerals that Number::toString writes for the numbers that are not
    safe integers and not zero.  With [k] significant digits and the decimal
    point after [n] of them: the digits and [n - k] zeros when [k <= n <= 21];
    the digits with a point inside when [0 < n < k]; [0.], [- n] zeros and
    the digits when [-6 < n <= 0]; else one digit, the others as its fraction
    and the exponent [n - 1] with its sign.  The shortest digits that denote a
    double are at most 17, and its exponent is between -324 and 308. *)
Definition number_form (d : Decimal.decimal) : bool :=
  match d with
  | Decimal.Decimal i Decimal.Nil =>
      let u := uint_of i in
      starts_nonzero u && (9007199254740991 <? N.of_uint u)%N
      && (Decimal.nb_digits u <=? 21)%nat && (significant u <=? 17)%nat
  | Decimal.Decimal i f =>
      let u := uint_of i in
      ends_nonzero f
      && (if starts_nonzero u
          then (Decimal.nb_digits u + Decimal.nb_digits f <=? 17)%nat
          else match u with
               | Decimal.D0 Decimal.Nil =>
                   (Decimal.nb_digits f - Decimal.nb_digits (Decimal.nzhead f) <=? 5)%nat
                   && (significant f <=? 17)%nat
               | _ => false
               end)
  | Decimal.DecimalExp i f e =>
      let u := uint_of i in
      starts_nonzero u && (Decimal.nb_digits u =? 1)%nat
      && match f with
         | Decimal.Nil => true
         | _ => ends_nonzero f && (Decimal.nb_digits f <=? 16)%nat
         end
      && match e with
         | Decimal.Pos x => starts_nonzero x && (21 <=? N.of_uint x)%N && (N.of_uint x <=? 308)%N
         | Decimal.Neg x => starts_nonzero x && (7 <=? N.of_uint x)%N && (N.of_uint x <=? 324)%N
         end
  end.

Definition code_units (s : jstr) : Prop := Forall (fun n => n < 65536)%N s.

(** The number [-0]: JSON writes it as [-0] and [JSON.parse] reads that text
    as negative zero; no numeral of Number::toString denotes it. *)
Definition negative_zero : json :=
  JDec (Decimal.Decimal (Decimal.Neg (Decimal.D0 Decimal.Nil)) Decimal.Nil).

(** The JSON values as JS holds them, negative zero apart: a number is a safe
    integer or the numeral that Number::toString writes for it, a string is
    any sequence of UTF-16 code units, and the properties of an object are in
    property order, each key once. *)
#[local] Unset Elimination Schemes.
Inductive representable : json -> Prop :=
| rep_null : representable JNull
| rep_bool b : representable (JBool b)
| rep_num n : safe_integer n -> representable (JNum n)
| rep_dec d : number_form d = true -> representable (JDec d)
| rep_str s : code_units s -> representable (JStr s)
| rep_arr l : Forall representable l -> representable (JArr l)
| rep_obj m :
    object_of m = m ->
    Forall (fun kv => code_units (fst kv) /\ representable (snd kv)) m ->
    representable (JObj m).
#[local] Set Elimination Schemes.

(** The fuel [parse_value] needs on the text of a value. *)
Fixpoint size (v : json) : nat :=
  match v with
  | JArr l => S (list_sum (map (fun x => S (size x)) l))
  | JObj m => S (list_sum (map (fun kv : jstr * json => S (size (snd kv))) m))
  | _ => 1
  end.

(** One member of an object in the text of [JSON.stringify]. *)
Definition member (kv : jstr * json) : text :=
  let (k, x) := kv in quote k ++ ":" :: JSON_stringify x.

(** [parse_value] reads the text of [v] back, whatever follows it. *)
Definition parses (v : json) : Prop :=
  forall fuel rest, (size v <= fuel)%nat -> continues_number rest = false ->
    parse_value fuel (JSON_stringify v ++ rest) = Some (v, rest).

Definition opens (c : ascii) : Prop :=
  is_json_ws c = false /\ (c =? "]")%char = false /\ (c =? "}")%char = false.

Definition printable (c : ascii) : Prop := (32 <=? code c)%N = true.

End Json.

Import Json.

(** ** Errors *)

(** Modelled from the spec: errors.ts, the assertion helper and the error
    classes of yup and of Node are not part of the sources.  The taxonomy is
    the one of the spec (ConnectionRefused, ConnectionLost, RequestTimeout,
    RequestError, decode errors, the failed assertion of a request without a
    client), with the arguments the sources give to the constructors; a
    Response is referred to by the message id of its request.  [Thrown] is a
    value that is not an error object, [TypeError] what the engine throws for
    a call of a value that is not a function. *)
Inductive Error : Type :=
| AssertionError (message : text)
| SyntaxError
| ValidationError (schema : text)
| SocketError (errno : text)
| ConnectionRefusedError
| ConnectionLostError (type : jstr)
| RequestTimeoutError (response : Z) (timeoutMs : Z) (route : jstr)
| RequestError (response : Z) (code message : jstr) (stack : option jstr)
| Thrown (value : option json)
| TypeError (message : text).

(** Modelled from the spec: [e instanceof ConnectionError]; the connection
    errors are ConnectionRefused and ConnectionLost. *)
Definition instanceof_ConnectionError (e : Error) : bool :=
  match e with
  | ConnectionRefusedError | ConnectionLostError _ => true
  | _ => false
  end.

(** Modelled from the spec: ErrorUtils is not part of the sources.  A socket
    error is recognised by its system error code, ECONNREFUSED for a refused
    connection and ENOENT for a path that does not exist. *)
Definition isConnectRefusedError (error : Error) : bool :=
  match error with
  | SocketError c => text_eqb c (lit "ECONNREFUSED")
  | _ => false
  end.

(** Modelled from the spec: see [isConnectRefusedError]. *)
Definition isNoEntityError (error : Error) : bool :=
  match error with
  | SocketError c => text_eqb c (lit "ENOENT")
  | _ => false
  end.

(** The outcome of [YupUtils.tryValidate]: [{ result, error }]. *)
Record tryValidateResult (A : Type) : Type :=
  { result : option A; error : option Error }.
Arguments result {A} _.
Arguments error {A} _.

Definition valid {A} (a : A) : tryValidateResult A :=
  {| result := Some a; error := None |}.
Definition invalid {A} (e : Error) : tryValidateResult A :=
  {| result := None; error := Some e |}.

(** [throw error] for the [error] of a validation outcome. *)
Definition thrown (e : option Error) : Error :=
  match e with
  | Some e => e
  | None => Thrown None
  end.

(** [this.onError(...)] on an [IronfishTcpClient].  The field initializer
    [onError = new Event()] of [IronfishRpcClient] stores an Event in the
    instance, and this own property hides the method [onError] of
    [IronfishTcpClient.prototype]: the call applies an object that is not a
    function.  It throws, whatever its argument, and nothing is logged. *)
Definition onError : Error := TypeError (lit "this.onError is not a function").

(** ** The wire: framing and envelopes (tcpClient.ts) *)

Module Wire.

Definition NODE_IPC_DELIMITER : ascii := ascii_of_N 12.

Record TcpResponse : Type := { type : jstr; data : json }.

Fixpoint lookup (k : jstr) (o : list (jstr * json)) : option json :=
  match o with
  | [] => None
  | (k', v) :: r => if jstr_eqb k k' then Some v else lookup k r
  end.

Definition kinds : list jstr :=
  [str "message"; str "malformedRequest"; str "error"; str "stream"].

Fixpoint join_units (l : list jstr) : jstr :=
  match l with
  | [] => []
  | x :: r =>
      match r with
      | [] => x
      | _ :: _ => x ++ 44%N :: join_units r
      end
  end.

(** [value.toString()] of a value of [JSON.parse]: a number as
    [JSON.stringify] writes it, an array as its elements joined by commas,
    [null] among them as the empty string, an object as [[object Object]]. *)
Fixpoint toString (v : json) : jstr :=
  match v with
  | JNull => str "null"
  | JBool true => str "true"
  | JBool false => str "false"
  | JNum n => map code (showZ n)
  | JDec d => map code (if is_zero d then ["0"%char] else show_decimal d)
  | JStr s => s
  | JArr l =>
      join_units (map (fun x => match x with JNull => [] | _ => toString x end) l)
  | JObj _ => str "[object Object]"
  end.

(** The cast of [yup.string()]: a string is kept, [null] and [undefined] are
    left as they are and are not strings, any other value becomes its
    [toString()]. *)
Definition cast_string (v : option json) : option jstr :=
  match v with
  | None | Some JNull => None
  | Some v => Some (toString v)
  end.

(** [TcpResponseSchema]: an object whose [type], once cast to a string, is one
    of the four kinds and whose [data] is present and not null; the result
    holds the cast [type], and [onData] reads its [type] and [data] only.  The
    object schema
    reads a string as the JSON text of the object.  The error of a failed
    validation is a ValidationError, whatever its class. *)
Definition TcpResponseSchema (value : json) : tryValidateResult TcpResponse :=
  let value :=
    match value with
    | JStr s => match JSON_parse_string s with Some v => v | None => JNull end
    | _ => value
    end in
  match value with
  | JObj o =>
      match cast_string (lookup (str "type") o) with
      | Some t =>
          if existsb (jstr_eqb t) kinds then
            match lookup (str "data") o with
            | None | Some JNull => invalid (ValidationError (lit "TcpResponse"))
            | Some d => valid {| type := t; data := d |}
            end
          else invalid (ValidationError (lit "TcpResponse"))
      | None => invalid (ValidationError (lit "TcpResponse"))
      end
  | _ => invalid (ValidationError (lit "TcpResponse"))
  end.

(** The message written by [send]; a [data] that is [undefined] has no
    property in the serialized object. *)
Definition message_of (messageId : Z) (route : jstr) (data : option json) : json :=
  JObj [(str "type", JStr (str "message"));
        (str "data",
         JObj ([(str "mid", JNum messageId); (str "type", JStr route)]
               ++ match data with
                  | Some d => [(str "data", d)]
                  | None => []
                  end))].

Definition send_bytes (messageId : Z) (route : jstr) (data : option json) : text :=
  JSON_stringify (message_of messageId route data) ++ [NODE_IPC_DELIMITER].

(** [String.prototype.trim] strips WhiteSpace and LineTerminator characters. *)
Definition is_js_ws (c : ascii) : bool :=
  let n := code c in
  ((9 <=? n)%N && (n <=? 13)%N) || (n =? 32)%N || (n =? 160)%N.

Fixpoint trimStart (s : text) : text :=
  match s with
  | c :: r => if is_js_ws c then trimStart r else s
  | [] => []
  end.

Definition trimEnd (s : text) : text := rev (trimStart (rev s)).

Definition trim (s : text) : text := trimEnd (trimStart s).

(** [String.prototype.split] on a one-character separator. *)
Fixpoint split (d : ascii) (s : text) : list text :=
  match s with
  | [] => [[]]
  | c :: r =>
      if (c =? d)%char then [] :: split d r
      else
        match split d r with
        | x :: l => (c :: x) :: l
        | [] => [[c]]
        end
  end.

(** One turn of the loop of [onData] up to the dispatch: parse, validate. *)
Definition decodeEvent (event : text) : Error + TcpResponse :=
  match JSON_parse event with
  | None => inl SyntaxError
  | Some v =>
      match result (TcpResponseSchema v) with
      | Some r => inr r
      | None => inl (thrown (error (TcpResponseSchema v)))
      end
  end.

(** The kinds whose case of the [switch] is the call [this.onError(data)]. *)
Definition calls_onError (r : TcpResponse) : bool :=
  jstr_eqb (type r) (str "error") || jstr_eqb (type r) (str "malformedRequest").

(** The loop of [onData]: the envelopes handed to [onMessage] and to
    [onStream], in order, and the error that ended the loop early, if any.
    For an [error] and a [malformedRequest] envelope the [switch] calls
    [this.onError(data)], which throws (see [onError]): the loop ends there.
    After the [switch] of a [message] and of a [stream],
    [client.emit(type, data)] finds no listener on the socket. *)
Fixpoint onData_events (events : list text) : list TcpResponse * option Error :=
  match events with
  | [] => ([], None)
  | event :: rest =>
      match decodeEvent event with
      | inl e => ([], Some e)
      | inr r =>
          if calls_onError r then ([], Some onError)
          else let (ds, e) := onData_events rest in (r :: ds, e)
      end
  end.

Definition events_of (data : text) : list text :=
  split NODE_IPC_DELIMITER (trim data).

Definition decodeRead (data : text) : list TcpResponse * option Error :=
  onData_events (events_of data).

(** Successive reads: all envelopes handed on, and the errors that ended the
    loops. *)
Fixpoint decodeReads (reads : list text) : list TcpResponse * list Error :=
  match reads with
  | [] => ([], [])
  | data :: rest =>
      let (ds, e) := decodeRead data in
      let (ds', es) := decodeReads rest in
      (ds ++ ds', match e with Some e => e :: es | None => es end)
  end.

(** Whole frames on the wire: each followed by the delimiter. *)
Definition framed (frames : list text) : text :=
  flat_map (fun f => f ++ [NODE_IPC_DELIMITER]) frames.

(** A frame that survives [trim] and [split] as it is: no delimiter inside,
    no white space at either end (so it is not empty). *)
Definition whole (f : text) : Prop :=
  ~ In NODE_IPC_DELIMITER f
  /\ is_js_ws (hd NODE_IPC_DELIMITER f) = false
  /\ is_js_ws (last f NODE_IPC_DELIMITER) = false.

(** A whole frame holding a well-formed message that the loop of [onData]
    hands to [onMessage] or to [onStream] and goes on from. *)
Definition deliverable (f : text) : Prop :=
  whole f
  /\ match decodeEvent f with
     | inr r => calls_onError r = false
     | inl _ => False
     end.

Definition decoded (frames : list text) : list TcpResponse :=
  flat_map (fun f => match decodeEvent f with inr r => [r] | inl _ => [] end) frames.

(** The frames joined by the delimiter, without the last delimiter. *)
Fixpoint joined (frames : list text) : text :=
  match frames with
  | [] => []
  | f :: r =>
      match r with
      | [] => f
      | _ :: _ => f ++ NODE_IPC_DELIMITER :: joined r
      end
  end.

(** Frames used in the examples. *)
Definition stream_frame : text := js "{'type':'stream','data':{'id':1,'data':7}}".
Definition message_frame : text :=
  js "{'type':'message','data':{'id':1,'status':200,'data':[7]}}".
Definition malformed_frame : text := js "{'type':".

(** Numbers used in the examples: 0.5, 1e+21, 1.5e-7 and 9007199254740992. *)
Definition half : json :=
  JDec (Decimal.Decimal (Decimal.Pos (Decimal.D0 Decimal.Nil)) (Decimal.D5 Decimal.Nil)).
Definition large : json :=
  JDec (Decimal.DecimalExp (Decimal.Pos (Decimal.D1 Decimal.Nil)) Decimal.Nil
          (Decimal.Pos (Decimal.D2 (Decimal.D1 Decimal.Nil)))).
Definition tiny : json :=
  JDec (Decimal.DecimalExp (Decimal.Pos (Decimal.D1 Decimal.Nil)) (Decimal.D5 Decimal.Nil)
          (Decimal.Neg (Decimal.D7 Decimal.Nil))).
Definition beyond_safe : json :=
  JDec (Decimal.Decimal (Decimal.Pos (N.to_uint 9007199254740992)) Decimal.Nil).

(** *** Reads and writes as a whole *)

(** A text of white space only, as [trim] sees it; the delimiter, a form
    feed, is white space too. *)
Definition blank (s : text) : Prop := Forall (fun c => is_js_ws c = true) s.

(** An event that the loop of [onData] hands on and goes on from: it parses,
    it validates and its kind is [message] or [stream]. *)
Definition accepted (event : text) : Prop :=
  match decodeEvent event with
  | inr r => calls_onError r = false
  | inl _ => False
  end.

(** The arguments of a call of [send]. *)
Record Outgoing : Type := { out_id : Z; out_route : jstr; out_data : option json }.

(** Arguments that [JSON.stringify] writes as they are. *)
Definition sendable (q : Outgoing) : Prop :=
  safe_integer (out_id q) /\ code_units (out_route q)
  /\ match out_data q with Some d => representable d | None => True end.

(** What [send] writes for them. *)
Definition sent (q : Outgoing) : text := send_bytes (out_id q) (out_route q) (out_data q).

(** The envelope that the peer reads the message as. *)
Definition envelope_of (q : Outgoing) : TcpResponse :=
  {| type := str "message";
     data := JObj ([(str "mid", JNum (out_id q)); (str "type", JStr (out_route q))]
                   ++ match out_data q with
                      | Some d => [(str "data", d)]
                      | None => []
                      end) |}.

End Wire.

Import Wire.

(** ** The request multiplexer (rpcClient.ts) *)

Module Rpc.

Local Open Scope Z_scope.

(** *** [Map<number, _>]: entries in insertion order *)

Section Map.
Context {A : Type}.

Fixpoint get (k : Z) (m : list (Z * A)) : option A :=
  match m with
  | [] => None
  | (k', a) :: r => if k =? k' then Some a else get k r
  end.

Definition has (k : Z) (m : list (Z * A)) : bool :=
  match get k m with Some _ => true | None => false end.

Fixpoint delete (k : Z) (m : list (Z * A)) : list (Z * A) :=
  match m with
  | [] => []
  | (k', a) :: r => if k =? k' then delete k r else (k', a) :: delete k r
  end.

Fixpoint set (k : Z) (a : A) (m : list (Z * A)) : list (Z * A) :=
  match m with
  | [] => [(k, a)]
  | (k', a') :: r => if k =? k' then (k, a) :: r else (k', a') :: set k a r
  end.

Definition update (k : Z) (f : A -> A) (m : list (Z * A)) : list (Z * A) :=
  map (fun e => if k =? fst e then (fst e, f (snd e)) else e) m.
End Map.

(** *** Response and Stream *)

(** How a completion future is settled. *)
Inductive Settlement : Type :=
| Resolved (value : option json)
| Rejected (reason : Error).

(** Modelled from the spec: stream.ts is not part of the sources.  A Stream
    is its values in order and whether it is closed. *)
Record Stream : Type := { values : list (option json); closed : bool }.

(** Modelled from the spec: response.ts is not part of the sources.  A
    Response is its completion future ([None] while it is not settled), its
    Stream and the status that [handleEnd] stores in it. *)
Record Response : Type :=
  { promise : option Settlement; stream : Stream; status : option Z }.

(** Modelled from the spec: a write after [close] is ignored. *)
Definition Stream_write (v : option json) (s : Stream) : Stream :=
  if closed s then s else {| values := values s ++ [v]; closed := false |}.

(** Modelled from the spec: [close] is idempotent. *)
Definition Stream_close (s : Stream) : Stream :=
  {| values := values s; closed := true |}.

(** Modelled from the spec: PromiseUtils is not part of the sources.  The
    future made by [PromiseUtils.split] settles at the first call of its
    [resolve] or [reject] and ignores the later ones. *)
Definition Promise_settle (x : Settlement) (p : option Settlement) : option Settlement :=
  match p with
  | None => Some x
  | Some _ => p
  end.

(** *** The client *)

(** A [SetTimeoutToken]: the Timeout object made by [setTimeout], with its
    identity and what its callback captured. *)
Record Timer : Type :=
  { token : Z; t_messageId : Z; t_timeoutMs : Z; t_route : jstr }.

(** An entry of [pending].  [req_response] is the message id captured by the
    closures [resolve] and [reject] of the entry; it names the Response, the
    Stream and the future made by the same call of [request]. *)
Record PendingRequest : Type :=
  { req_response : Z; req_timeout : option Timer; req_type : jstr }.

Record Client : Type :=
  { client : option unit;
    isConnected : bool;
    timeoutMs : option Z;
    messageIds : Z;
    pending : list (Z * PendingRequest);
    (* the objects made by request(), by message id *)
    responses : list (Z * Response);
    (* the timeouts that are armed *)
    timers : list Timer;
    (* what was written to the socket *)
    written : list text;
    (* the calls of the futures' resolve and reject, latest last *)
    settled : list (Z * Settlement);
    (* the rejections that no handler took *)
    errors : list Error;
    (* the number of onClose notifications *)
    closes : nat }.

Definition REQUEST_TIMEOUT_MS : option Z := None.

Definition set_isConnected (b : bool) (st : Client) : Client :=
  {| client := client st; isConnected := b; timeoutMs := timeoutMs st;
     messageIds := messageIds st; pending := pending st; responses := responses st;
     timers := timers st; written := written st; settled := settled st;
     errors := errors st; closes := closes st |}.

Definition set_messageIds (n : Z) (st : Client) : Client :=
  {| client := client st; isConnected := isConnected st; timeoutMs := timeoutMs st;
     messageIds := n; pending := pending st; responses := responses st;
     timers := timers st; written := written st; settled := settled st;
     errors := errors st; closes := closes st |}.

Definition set_pending (p : list (Z * PendingRequest)) (st : Client) : Client :=
  {| client := client st; isConnected := isConnected st; timeoutMs := timeoutMs st;
     messageIds := messageIds st; pending := p; responses := responses st;
     timers := timers st; written := written st; settled := settled st;
     errors := errors st; closes := closes st |}.

Definition set_responses (r : list (Z * Response)) (st : Client) : Client :=
  {| client := client st; isConnected := isConnected st; timeoutMs := timeoutMs st;
     messageIds := messageIds st; pending := pending st; responses := r;
     timers := timers st; written := written st; settled := settled st;
     errors := errors st; closes := closes st |}.

Definition set_timers (t : list Timer) (st : Client) : Client :=
  {| client := client st; isConnected := isConnected st; timeoutMs := timeoutMs st;
     messageIds := messageIds st; pending := pending st; responses := responses st;
     timers := t; written := written st; settled := settled st;
     errors := errors st; closes := closes st |}.

Definition set_written (w : list text) (st : Client) : Client :=
  {| client := client st; isConnected := isConnected st; timeoutMs := timeoutMs st;
     messageIds := messageIds st; pending := pending st; responses := responses st;
     timers := timers st; written := w; settled := settled st;
     errors := errors st; closes := closes st |}.

Definition set_settled (l : list (Z * Settlement)) (st : Client) : Client :=
  {| client := client st; isConnected := isConnected st; timeoutMs := timeoutMs st;
     messageIds := messageIds st; pending := pending st; responses := responses st;
     timers := timers st; written := written st; settled := l;
     errors := errors st; closes := closes st |}.

Definition set_errors (l : list Error) (st : Client) : Client :=
  {| client := client st; isConnected := isConnected st; timeoutMs := timeoutMs st;
     messageIds := messageIds st; pending := pending st; responses := responses st;
     timers := timers st; written := written st; settled := settled st;
     errors := l; closes := closes st |}.

Definition set_closes (n : nat) (st : Client) : Client :=
  {| client := client st; isConnected := isConnected st; timeoutMs := timeoutMs st;
     messageIds := messageIds st; pending := pending st; responses := responses st;
     timers := timers st; written := written st; settled := settled st;
     errors := errors st; closes := n |}.

(** [clearTimeout(timeout)] under [if (timeout)]. *)
Definition clearTimeout (timeout : option Timer) (st : Client) : Client :=
  match timeout with
  | Some t0 => set_timers (filter (fun t => negb (token t =? token t0)) (timers st)) st
  | None => st
  end.

Definition close_stream (id : Z) (st : Client) : Client :=
  set_responses
    (update id (fun r => {| promise := promise r; stream := Stream_close (stream r);
                            status := status r |}) (responses st)) st.

Definition write_stream (id : Z) (v : option json) (st : Client) : Client :=
  set_responses
    (update id (fun r => {| promise := promise r; stream := Stream_write v (stream r);
                            status := status r |}) (responses st)) st.

Definition set_status (id : Z) (n : Z) (st : Client) : Client :=
  set_responses
    (update id (fun r => {| promise := promise r; stream := stream r;
                            status := Some n |}) (responses st)) st.

(** A call of the [resolve] or [reject] of the future of request [id]. *)
Definition settle (id : Z) (x : Settlement) (st : Client) : Client :=
  set_settled (settled st ++ [(id, x)])
    (set_responses
       (update id (fun r => {| promise := Promise_settle x (promise r);
                               stream := stream r; status := status r |})
          (responses st)) st).

(** The closures [resolveRequest] and [rejectRequest] of an entry. *)
Definition resolveRequest (p : PendingRequest) (value : option json) (st : Client) : Client :=
  let st := set_pending (delete (req_response p) (pending st)) st in
  let st := clearTimeout (req_timeout p) st in
  let st := close_stream (req_response p) st in
  settle (req_response p) (Resolved value) st.

Definition rejectRequest (p : PendingRequest) (e : Error) (st : Client) : Client :=
  let st := set_pending (delete (req_response p) (pending st)) st in
  let st := clearTimeout (req_timeout p) st in
  let st := close_stream (req_response p) st in
  settle (req_response p) (Rejected e) st.

(** [IronfishTcpClient.send]. *)
Definition send (messageId : Z) (route : jstr) (data : option json) (st : Client) : Client :=
  set_written (written st ++ [send_bytes messageId route data]) st.

(** [request(route, data, options)]: [options] is [None] when
    [options.timeoutMs] is undefined.  The result is the failed assertion or
    the new state with the handle of the Response. *)
Definition request (route : jstr) (data : option json) (options : option (option Z))
    (st : Client) : Error + Client * Z :=
  match client st with
  | None => inl (AssertionError (lit "Connect first using connect()"))
  | Some _ =>
      let messageId := messageIds st + 1 in
      let st := set_messageIds messageId st in
      let timeoutMs := match options with None => timeoutMs st | Some t => t end in
      let timeout :=
        match timeoutMs with
        | Some ms => Some {| token := messageId; t_messageId := messageId;
                             t_timeoutMs := ms; t_route := route |}
        | None => None
        end in
      let st :=
        match timeout with
        | Some t => set_timers (timers st ++ [t]) st
        | None => st
        end in
      let st :=
        set_responses
          (set messageId {| promise := None;
                            stream := {| values := []; closed := false |};
                            status := None |} (responses st)) st in
      let st :=
        set_pending
          (set messageId {| req_response := messageId; req_timeout := timeout;
                            req_type := route |} (pending st)) st in
      inr (send messageId route data st, messageId)
  end.

(** The callback given to [setTimeout] by [request]. *)
Definition onTimeout (t : Timer) (st : Client) : Client :=
  match get (t_messageId t) (pending st) with
  | Some message =>
      rejectRequest message
        (RequestTimeoutError (t_messageId t) (t_timeoutMs t) (t_route t)) st
  | None => st
  end.

(** The loop of [onDisconnect] over the live iterator of [pending]: an entry
    deleted before its turn is not visited. *)
Fixpoint reject_all (l : list (Z * PendingRequest)) (st : Client) : Client :=
  match l with
  | [] => st
  | (k, request) :: r =>
      reject_all r
        (if has k (pending st)
         then rejectRequest request (ConnectionLostError (req_type request)) st
         else st)
  end.

Definition onDisconnect (st : Client) : Error + Client :=
  match client st with
  | None => inl (AssertionError [])
  | Some _ =>
      let st := set_isConnected false st in
      let st := reject_all (pending st) st in
      let st := set_pending [] st in
      inr (set_closes (S (closes st)) st)
  end.

(** The handler of [promise.catch((e) => this.onError(e))] for the rejection
    [e], if any: its call of [this.onError] throws (see [onError]), and the
    rejection that this leaves is handled by nothing. *)
Definition surface (e : option Error) (st : Client) : Client :=
  match e with
  | Some _ => set_errors (errors st ++ [onError]) st
  | None => st
  end.

(** The payload of a [message] and of a [stream] envelope and the body of an
    error, as validated by the schemas of the adapters. *)
Record IpcResponse : Type := { res_id : Z; res_status : Z; res_data : option json }.
Record IpcStream : Type := { str_id : Z; str_data : option json }.
Record IpcError : Type :=
  { err_code : jstr; err_message : jstr; err_stack : option jstr }.

Section Handlers.
(** The schemas of the adapters and [isResponseError] are not part of the
    sources: the handlers are read for any of them. *)
Variable IpcResponseSchema : json -> tryValidateResult IpcResponse.
Variable IpcStreamSchema : json -> tryValidateResult IpcStream.
Variable IpcErrorSchema : option json -> tryValidateResult IpcError.
Variable isResponseError : Response -> bool.

Definition handleStream (data : json) (st : Client) : Client * option Error :=
  match result (IpcStreamSchema data) with
  | None => (st, Some (thrown (error (IpcStreamSchema data))))
  | Some res =>
      match get (str_id res) (pending st) with
      | None => (st, None)
      | Some pending => (write_stream (req_response pending) (str_data res) st, None)
      end
  end.

Definition handleEnd (data : json) (st : Client) : Client * option Error :=
  match result (IpcResponseSchema data) with
  | None => (st, Some (thrown (error (IpcResponseSchema data))))
  | Some res =>
      match get (res_id res) (pending st) with
      | None => (st, None)
      | Some pending =>
          let st := set_status (req_response pending) (res_status res) st in
          let is_error :=
            match get (req_response pending) (responses st) with
            | Some response => isResponseError response
            | None => false
            end in
          if is_error then
            let v := IpcErrorSchema (res_data res) in
            match result v, error v with
            | Some errorBody, _ =>
                (rejectRequest pending
                   (RequestError (req_response pending) (err_code errorBody)
                      (err_message errorBody) (err_stack errorBody)) st, None)
            | None, Some errorError => (rejectRequest pending errorError st, None)
            | None, None => (rejectRequest pending (Thrown (Some data)) st, None)
            end
          else (resolveRequest pending (res_data res) st, None)
      end
  end.

Definition onMessage (data : json) (st : Client) : Client :=
  let (st, e) := handleEnd data st in surface e st.

Definition onStream (data : json) (st : Client) : Client :=
  let (st, e) := handleStream data st in surface e st.

(** The [switch] of [onData], for the state of the client: [onMessage] for a
    [message] and [onStream] for a [stream].  The case of an [error] and of a
    [malformedRequest] is the call [this.onError(data)], which throws before
    anything changes; the loop ends there, in [onData_events]. *)
Definition dispatch (st : Client) (r : TcpResponse) : Client :=
  if jstr_eqb (Wire.type r) (str "message") then onMessage (Wire.data r) st
  else if jstr_eqb (Wire.type r) (str "stream") then onStream (Wire.data r) st
  else st.

(** [onClientData]: the loop of [onData] on one read, then the handler of the
    [catch] for the error that ended it. *)
Definition onData (data : text) (st : Client) : Client :=
  let (ds, e) := decodeRead data in
  surface e (fold_left dispatch ds st).

(** [IronfishTcpClient.onClientClose]. *)
Definition onClientClose (st : Client) : Client := set_isConnected false st.

(** [new IronfishTcpClient(host, port)]. *)
Definition new_client : Client :=
  {| client := Some tt; isConnected := false; timeoutMs := REQUEST_TIMEOUT_MS;
     messageIds := 0; pending := []; responses := []; timers := []; written := [];
     settled := []; errors := []; closes := 0%nat |}.

(** What the socket answers to [client.connect(port, host)]. *)
Inductive SocketOutcome : Type :=
| SocketConnect
| SocketFails (error : Error).

(** [IronfishTcpClient.connect]: the new state and how the promise settles. *)
Definition connect (o : SocketOutcome) (st : Client) : Client * (Error + unit) :=
  match o with
  | SocketConnect => (set_isConnected true st, inr tt)
  | SocketFails error =>
      if isConnectRefusedError error then (st, inl ConnectionRefusedError)
      else if isNoEntityError error then (st, inl ConnectionRefusedError)
      else (st, inl error)
  end.

Definition tryConnect (o : SocketOutcome) (st : Client) : Client * (Error + bool) :=
  match connect o st with
  | (st, inr _) => (st, inr true)
  | (st, inl e) =>
      if instanceof_ConnectionError e then (st, inr false) else (st, inl e)
  end.

(** *** Runs: the calls the event loop makes on a client, one at a time *)

Inductive Call : Type :=
| CRequest (route : jstr) (data : option json) (options : option (option Z))
| CTimeout (tok : Z)
| CMessage (data : json)
| CStream (data : json)
| CDisconnect
| CData (data : text)
| CClientClose
| CConnect (o : SocketOutcome).

Definition step (st : Client) (c : Call) : Client :=
  match c with
  | CRequest route data options =>
      match request route data options st with
      | inr (st', _) => st'
      | inl _ => st
      end
  | CTimeout tok =>
      match find (fun t => token t =? tok) (timers st) with
      | Some t => onTimeout t (clearTimeout (Some t) st)
      | None => st
      end
  | CMessage data => onMessage data st
  | CStream data => onStream data st
  | CDisconnect =>
      match onDisconnect st with
      | inr st' => st'
      | inl _ => st
      end
  | CData data => onData data st
  | CClientClose => onClientClose st
  | CConnect o => fst (connect o st)
  end.

Definition run (calls : list Call) (st : Client) : Client := fold_left step calls st.

End Handlers.

(** *** An instance of the schemas, for the examples *)

Module Sample.

(** Modelled from the spec: the schemas of the adapters are not part of the
    sources.  A [message] payload is [{ id, status, data }], a [stream]
    payload is [{ id, data }], an error body is [{ code, message, stack }]
    with an optional [stack]. *)
Definition IpcResponseSchema (v : json) : tryValidateResult IpcResponse :=
  match v with
  | JObj o =>
      match lookup (str "id") o, lookup (str "status") o with
      | Some (JNum i), Some (JNum s) =>
          valid {| res_id := i; res_status := s; res_data := lookup (str "data") o |}
      | _, _ => invalid (ValidationError (lit "IpcResponse"))
      end
  | _ => invalid (ValidationError (lit "IpcResponse"))
  end.

(** Modelled from the spec: see [IpcResponseSchema]. *)
Definition IpcStreamSchema (v : json) : tryValidateResult IpcStream :=
  match v with
  | JObj o =>
      match lookup (str "id") o with
      | Some (JNum i) => valid {| str_id := i; str_data := lookup (str "data") o |}
      | _ => invalid (ValidationError (lit "IpcStream"))
      end
  | _ => invalid (ValidationError (lit "IpcStream"))
  end.

(** Modelled from the spec: see [IpcResponseSchema]. *)
Definition IpcErrorSchema (v : option json) : tryValidateResult IpcError :=
  match v with
  | Some (JObj o) =>
      match lookup (str "code") o, lookup (str "message") o with
      | Some (JStr c), Some (JStr m) =>
          valid {| err_code := c; err_message := m;
                   err_stack := match lookup (str "stack") o with
                                | Some (JStr s) => Some s
                                | _ => None
                                end |}
      | _, _ => invalid (ValidationError (lit "IpcError"))
      end
  | _ => invalid (ValidationError (lit "IpcError"))
  end.

(** Modelled from the spec: [isResponseError] is not part of the sources and
    the spec leaves open which statuses indicate a failure; the examples take
    400 to 500. *)
Definition isResponseError (r : Response) : bool :=
  match status r with
  | Some s => (400 <=? s) && (s <=? 500)
  | None => false
  end.

Definition step := step IpcResponseSchema IpcStreamSchema IpcErrorSchema isResponseError.
Definition run := run IpcResponseSchema IpcStreamSchema IpcErrorSchema isResponseError.

End Sample.

(** *** The state of a request, read off a client *)

(** The calls made so far of the [resolve] and [reject] of request [k]. *)
Definition calls_of (k : Z) (st : Client) : list (Z * Settlement) :=
  filter (fun e => fst e =? k) (settled st).

(** Whether a timeout of request [k] is armed. *)
Definition armed (k : Z) (st : Client) : bool :=
  existsb (fun t => t_messageId t =? k) (timers st).

(** The latch: request [k] with Response [r] is in the table and nothing
    was called, or it is out of the table and its future was called once,
    with its Stream closed and its timeout disarmed. *)
Definition latch (k : Z) (r : Response) (st : Client) : Prop :=
  (has k (pending st) = true /\ calls_of k st = [] /\ promise r = None)
  \/ (has k (pending st) = false
      /\ exists x, calls_of k st = [(k, x)] /\ promise r = Some x
                   /\ closed (stream r) = true /\ armed k st = false).

(** [resolveRequest] and [rejectRequest] are the same closure up to the
    settlement they pass on. *)
Definition settleRequest (p : PendingRequest) (x : Settlement) (st : Client) : Client :=
  settle (req_response p) x
    (close_stream (req_response p)
       (clearTimeout (req_timeout p)
          (set_pending (delete (req_response p) (pending st)) st))).

(** The Response of a request after the settlement [x]. *)
Definition after_settle (x : Settlement) (r : Response) : Response :=
  {| promise := Promise_settle x (promise r);
     stream := Stream_close (stream r);
     status := status r |}.

(** What the loop of [onDisconnect] passes to the [reject] of an entry. *)
Definition lost (e : Z * PendingRequest) : Z * Settlement :=
  (fst e, Rejected (ConnectionLostError (req_type (snd e)))).

(** The timeout that [request] settles on, the Timeout object it arms, the
    entry it records and the Response it makes. *)
Definition timeout_of (options : option (option Z)) (st : Client) : option Z :=
  match options with None => timeoutMs st | Some t => t end.

Definition timer_of (id : Z) (route : jstr) (ms : Z) : Timer :=
  {| token := id; t_messageId := id; t_timeoutMs := ms; t_route := route |}.

Definition entry_of (id : Z) (route : jstr) (tm : option Z) : PendingRequest :=
  {| req_response := id;
     req_timeout := match tm with Some ms => Some (timer_of id route ms) | None => None end;
     req_type := route |}.

Definition fresh_response : Response :=
  {| promise := None; stream := {| values := []; closed := false |}; status := None |}.

Record Inv (st : Client) : Prop :=
  { inv_keys : NoDup (map fst (pending st));
    inv_entry : forall k p,
      get k (pending st) = Some p ->
      req_response p = k
      /\ (forall t, req_timeout p = Some t -> token t = k /\ In t (timers st))
      /\ exists r, get k (responses st) = Some r;
    inv_latch : forall k r,
      get k (responses st) = Some r -> 1 <= k <= messageIds st /\ latch k r st;
    inv_alloc : forall k,
      1 <= k <= messageIds st -> exists r, get k (responses st) = Some r;
    inv_timer : forall t,
      In t (timers st) ->
      t_messageId t = token t
      /\ exists p, get (token t) (pending st) = Some p /\ req_timeout p = Some t;
    inv_calls : forall k x, In (k, x) (settled st) -> 1 <= k <= messageIds st;
    inv_ids : 0 <= messageIds st }.

(** Entries of the table are only deleted or added under a fresh id; the
    client handle is never cleared. *)
Definition grows (st st' : Client) : Prop :=
  messageIds st <= messageIds st'
  /\ client st' = client st
  /\ forall k p, k <= messageIds st -> get k (pending st') = Some p ->
                 get k (pending st) = Some p.

(** How [handleEnd] leaves the request [id] settled with [x]. *)
Definition settles_with (id : Z) (x : Settlement) (n : Z) (st : Client)
    (out : Client * option Error) : Prop :=
  snd out = None
  /\ settled (fst out) = settled st ++ [(id, x)]
  /\ get id (pending (fst out)) = None
  /\ exists r, get id (responses (fst out)) = Some r
               /\ promise r = Some x /\ status r = Some n
               /\ closed (stream r) = true.

(** The state after an accepted [request]. *)
Definition requested (route : jstr) (payload : option json) (options : option (option Z))
    (st : Client) : Client :=
  match request route payload options st with
  | inr (st', _) => st'
  | inl _ => st
  end.

(** Calls and envelopes used in the examples. *)
Definition status_call : Call := CRequest (str "node/getStatus") None (Some (Some 5000)).
Definition block_call : Call :=
  CRequest (str "chain/getBlock") (Some (JObj [(str "sequence", JNum 3)])) None.
Definition failure_of_2 : json :=
  JObj [(str "id", JNum 2); (str "status", JNum 400);
        (str "data", JObj [(str "code", JStr (str "not-found"));
                           (str "message", JStr (str "no such block"))])].
Definition part_of_9 : json := JObj [(str "id", JNum 9); (str "data", JNum 1)].
Definition end_of_9 : json := JObj [(str "id", JNum 9); (str "status", JNum 200)].

(** *** Runs, read as a whole *)

Definition is_request (c : Call) : bool :=
  match c with CRequest _ _ _ => true | _ => false end.

(** A call of [request] that passes a number as [options.timeoutMs]. *)
Definition asks_timeout (c : Call) : bool :=
  match c with CRequest _ _ (Some (Some _)) => true | _ => false end.

Definition requests_in (calls : list Call) : nat := List.length (filter is_request calls).

(** The calls of [send] that the requests of a run make, when [n] message ids
    were given out before it. *)
Fixpoint outgoing (n : Z) (calls : list Call) : list Outgoing :=
  match calls with
  | [] => []
  | CRequest route data _ :: rest =>
      {| out_id := n + 1; out_route := route; out_data := data |} :: outgoing (n + 1) rest
  | _ :: rest => outgoing n rest
  end.

(** What the handlers of incoming data leave alone: the socket, the message
    counter, the connection flag, the close notifications and the default
    timeout; no timeout is armed, and the two logs only grow. *)
Definition receives (st st' : Client) : Prop :=
  written st' = written st /\ messageIds st' = messageIds st
  /\ client st' = client st /\ isConnected st' = isConnected st
  /\ closes st' = closes st /\ timeoutMs st' = timeoutMs st
  /\ (forall t, In t (timers st') -> In t (timers st))
  /\ (exists es, errors st' = errors st ++ es)
  /\ (exists xs, settled st' = settled st ++ xs).

(** Request [k] is the same in two states: its entry of the table, its
    Response, the calls of its future and whether its timeout is armed. *)
Definition same_request (k : Z) (st st' : Client) : Prop :=
  get k (pending st') = get k (pending st)
  /\ get k (responses st') = get k (responses st)
  /\ calls_of k st' = calls_of k st
  /\ armed k st' = armed k st.

(** Every request made is in the table or was settled by one call. *)
Definition balanced (st : Client) : Prop :=
  Z.of_nat (List.length (pending st)) + Z.of_nat (List.length (settled st)) = messageIds st.

(** The Stream of a request in the table is open. *)
Definition open_pending (st : Client) : Prop :=
  forall k p r, get k (pending st) = Some p -> get k (responses st) = Some r ->
                closed (stream r) = false.

End Rpc.

(** * Properties *)

Lemma text_eqb_eq a b : text_eqb a b = true <-> a = b.
Proof.
  revert b; induction a as [|x a IH]; intros [|y b]; simpl; split; try congruence; auto.
  - intros H. apply andb_true_iff in H as [H1 H2].
    apply Ascii.eqb_eq in H1. apply IH in H2. congruence.
  - intros H. injection H as -> ->. rewrite Ascii.eqb_refl. simpl. now apply IH.
Qed.

Lemma text_eqb_refl a : text_eqb a a = true.
Proof. now apply text_eqb_eq. Qed.

Lemma jstr_eqb_eq a b : jstr_eqb a b = true <-> a = b.
Proof.
  revert b; induction a as [|x a IH]; intros [|y b]; simpl; split; try congruence; auto.
  - intros H. apply andb_true_iff in H as [H1 H2].
    apply N.eqb_eq in H1. apply IH in H2. congruence.
  - intros H. injection H as -> ->. rewrite N.eqb_refl. simpl. now apply IH.
Qed.


(** ** JSON: [JSON.parse] after [JSON.stringify] *)

Module JsonFacts.

Local Open Scope char_scope.

Lemma parse_chars_escape_char c tail :
  parse_chars (escape_char c ++ tail) = consfst (code c) (parse_chars tail).
Proof.
  destruct c as [[] [] [] [] [] [] [] []]; reflexivity.
Qed.

Lemma hexval_hexdigit d : (d < 16)%N -> hexval (hexdigit d) = Some d.
Proof.
  intros H.
  assert (E : (d = 0 \/ d = 1 \/ d = 2 \/ d = 3 \/ d = 4 \/ d = 5 \/ d = 6 \/ d = 7
               \/ d = 8 \/ d = 9 \/ d = 10 \/ d = 11 \/ d = 12 \/ d = 13 \/ d = 14
               \/ d = 15)%N) by lia.
  repeat (destruct E as [->|E]; [reflexivity|]). now subst.
Qed.

Lemma hex4_hexdigits n :
  (n < 65536)%N ->
  hex4 (hexdigit (n / 4096 mod 16)) (hexdigit (n / 256 mod 16))
       (hexdigit (n / 16 mod 16)) (hexdigit (n mod 16)) = Some n.
Proof.
  intros H. unfold hex4.
  rewrite !hexval_hexdigit by (apply N.mod_lt; discriminate).
  f_equal.
  pose proof (N.div_mod n 16 ltac:(discriminate)).
  pose proof (N.div_mod (n / 16) 16 ltac:(discriminate)).
  pose proof (N.div_mod (n / 256) 16 ltac:(discriminate)).
  pose proof (N.div_mod (n / 4096) 16 ltac:(discriminate)).
  assert (n / 256 = n / 16 / 16)%N by (rewrite N.Div0.div_div; reflexivity).
  assert (n / 4096 = n / 256 / 16)%N by (rewrite N.Div0.div_div; reflexivity).
  assert (n / 4096 / 16 = 0)%N.
  { rewrite N.Div0.div_div. apply N.div_small. exact H. }
  lia.
Qed.

Lemma parse_chars_escape n tail :
  (n < 65536)%N ->
  parse_chars (escape n ++ tail) = consfst n (parse_chars tail).
Proof.
  intros H. unfold escape. destruct (N.ltb_spec n 256) as [Hlt|Hge].
  - rewrite parse_chars_escape_char. unfold code.
    now rewrite N_ascii_embedding.
  - change (parse_chars
              (["\"; "u"; hexdigit (n / 4096 mod 16); hexdigit (n / 256 mod 16);
                hexdigit (n / 16 mod 16); hexdigit (n mod 16)] ++ tail))
      with (match hex4 (hexdigit (n / 4096 mod 16)) (hexdigit (n / 256 mod 16))
                       (hexdigit (n / 16 mod 16)) (hexdigit (n mod 16)) with
            | Some n => consfst n (parse_chars tail)
            | None => None
            end).
    now rewrite hex4_hexdigits.
Qed.

Lemma parse_chars_quoted s rest :
  code_units s ->
  parse_chars (flat_map escape s ++ dquote :: rest) = Some (s, rest).
Proof.
  induction 1 as [|c s Hc _ IH]; [reflexivity|].
  simpl flat_map. rewrite <- app_assoc, parse_chars_escape, IH by exact Hc. reflexivity.
Qed.

Lemma parse_digits_digits d rest :
  continues_number rest = false -> parse_digits (digits d ++ rest) = (d, rest).
Proof.
  intros H. induction d; simpl; try (rewrite IHd; reflexivity).
  destruct rest as [|c r]; [reflexivity|].
  simpl in *. destruct (digit_of c); [discriminate|reflexivity].
Qed.

Lemma nzhead_no_zero u : forall v, Decimal.nzhead u <> Decimal.D0 v.
Proof.
  induction u; simpl; intros v; try discriminate. apply IHu.
Qed.

Lemma to_uint_head p :
  match Pos.to_uint p with
  | Decimal.Nil | Decimal.D0 _ => False
  | _ => True
  end.
Proof.
  pose proof (DecimalPos.Unsigned.to_of (Pos.to_uint p)) as H.
  rewrite DecimalPos.Unsigned.of_to in H. simpl in H.
  pose proof (DecimalPos.Unsigned.to_uint_nonzero p) as Hz.
  pose proof (DecimalPos.Unsigned.to_uint_nonnil p) as Hn.
  destruct (Pos.to_uint p) as [|u| | | | | | | | | ] eqn:E; try exact I; [congruence|].
  rewrite DecimalFacts.unorm_D0 in H.
  unfold Decimal.unorm in H.
  destruct (Decimal.nzhead u) eqn:En; try congruence.
  eapply nzhead_no_zero; exact En.
Qed.

Lemma parse_tail rest :
  continues_number rest = false ->
  parse_fraction rest = Some (Decimal.Nil, rest)
  /\ parse_exponent rest = Some (None, rest).
Proof.
  destruct rest as [|c r]; [now split|]. simpl. intros H.
  destruct (digit_of c); [discriminate|].
  apply orb_false_iff in H as [H H3]. apply orb_false_iff in H as [H1 H2].
  now rewrite H1, H2, H3.
Qed.

Lemma parse_number_pos neg p rest :
  (Z.pos p <= 9007199254740991)%Z ->
  continues_number rest = false ->
  parse_number neg (digits (Pos.to_uint p) ++ rest)
  = Some (JNum (if neg then Zneg p else Zpos p), rest).
Proof.
  intros Hs H. unfold parse_number, parse_int. rewrite parse_digits_digits by exact H.
  pose proof (to_uint_head p) as Hh.
  pose proof (DecimalPos.Unsigned.of_to p) as Hv.
  destruct (parse_tail rest H) as [Hf He].
  apply Z.leb_le in Hs.
  unfold N.of_uint.
  destruct (Pos.to_uint p); try contradiction; rewrite Hf, He, Hv; cbv zeta;
    change (Z.of_N (N.pos p)) with (Z.pos p); rewrite Hs;
    destruct neg; reflexivity.
Qed.

Lemma parse_number_zero rest :
  continues_number rest = false ->
  parse_number false ("0" :: rest) = Some (JNum 0, rest).
Proof.
  intros H. unfold parse_number, parse_int.
  change ("0" :: rest) with (digits (Decimal.D0 Decimal.Nil) ++ rest).
  rewrite parse_digits_digits by exact H.
  destruct (parse_tail rest H) as [Hf He]. now rewrite Hf, He.
Qed.

(** *** Numerals *)

Definition no_digit (s : text) : Prop :=
  match s with
  | c :: _ => digit_of c = None
  | [] => True
  end.

Lemma continues_no_digit rest : continues_number rest = false -> no_digit rest.
Proof.
  destruct rest as [|c r]; simpl; [trivial|]. now destruct (digit_of c).
Qed.

Lemma parse_digits_stop d rest :
  no_digit rest -> parse_digits (digits d ++ rest) = (d, rest).
Proof.
  intros H. induction d; simpl; try (rewrite IHd; reflexivity).
  destruct rest as [|c r]; [reflexivity|].
  simpl in *. now rewrite H.
Qed.

Lemma starts_nonzero_show u : starts_nonzero u = true -> show_uint u = digits u.
Proof. destruct u; simpl; intros H; (discriminate H || reflexivity). Qed.

Lemma parse_int_show u tail :
  u = Decimal.D0 Decimal.Nil \/ starts_nonzero u = true ->
  no_digit tail ->
  parse_int (show_uint u ++ tail) = Some (u, tail).
Proof.
  intros [->|Hu] Ht; unfold parse_int.
  - change (show_uint (Decimal.D0 Decimal.Nil) ++ tail)
      with (digits (Decimal.D0 Decimal.Nil) ++ tail).
    now rewrite parse_digits_stop.
  - rewrite starts_nonzero_show, parse_digits_stop by assumption.
    destruct u; (discriminate Hu || reflexivity).
Qed.

Lemma parse_fraction_show f tail :
  no_digit tail ->
  match tail with c :: _ => (c =? ".")%char = false | [] => True end ->
  parse_fraction (show_fraction f ++ tail) = Some (f, tail).
Proof.
  intros Hd Hp.
  assert (H : f <> Decimal.Nil ->
              parse_fraction (("."%char :: digits f) ++ tail) = Some (f, tail)).
  { intros Hf. cbn [app]. unfold parse_fraction. rewrite Ascii.eqb_refl.
    rewrite (parse_digits_stop f tail Hd). destruct f; (congruence || reflexivity). }
  destruct f; try (apply H; discriminate).
  simpl. destruct tail as [|c r]; [reflexivity|]. simpl. now rewrite Hp.
Qed.

Lemma parse_exponent_show e rest :
  starts_nonzero (uint_of e) = true -> no_digit rest ->
  parse_exponent (show_exponent e ++ rest) = Some (Some e, rest).
Proof.
  intros He Hr. destruct e as [x|x]; simpl in He; unfold show_exponent;
    rewrite (starts_nonzero_show x He); cbn [app parse_exponent];
    change (("e" =? "e")%char || ("e" =? "E")%char) with true; cbv iota;
    [change (("+" =? "-")%char) with false; change (("+" =? "+")%char) with true
    |change (("-" =? "-")%char) with true]; cbv iota;
    rewrite (parse_digits_stop x rest Hr); destruct x; (discriminate He || reflexivity).
Qed.

Lemma last_zero (l : text) : last ("0"%char :: l) "0"%char = last l "0"%char.
Proof. now destruct l. Qed.

Lemma ends_nonzero_all_zero f : ends_nonzero f = true -> all_zero f = false.
Proof.
  unfold ends_nonzero, all_zero. induction f; simpl digits; simpl Decimal.nzhead;
    try reflexivity.
  - discriminate.
  - rewrite last_zero. exact IHf.
Qed.

Lemma starts_nonzero_all_zero u : starts_nonzero u = true -> all_zero u = false.
Proof. destruct u; simpl; intros H; (discriminate H || reflexivity). Qed.

Lemma number_form_nonzero d : number_form d = true -> is_zero d = false.
Proof.
  destruct d as [i f|i f e]; unfold number_form, is_zero.
  - destruct f; intros H;
      try (apply andb_true_iff in H as [H _];
           rewrite (ends_nonzero_all_zero _ H); apply andb_false_r).
    apply andb_true_iff in H as [H _]. apply andb_true_iff in H as [H _].
    apply andb_true_iff in H as [H _].
    now rewrite (starts_nonzero_all_zero _ H).
  - intros H. apply andb_true_iff in H as [H _]. apply andb_true_iff in H as [H _].
    apply andb_true_iff in H as [H _].
    now rewrite (starts_nonzero_all_zero _ H).
Qed.

Lemma continues_no_point rest :
  continues_number rest = false ->
  match rest with c :: _ => (c =? ".")%char = false | [] => True end.
Proof.
  destruct rest as [|c r]; simpl; [trivial|]. destruct (digit_of c); [discriminate|].
  intros H. apply orb_false_iff in H as [H _]. now apply orb_false_iff in H as [H _].
Qed.

(** A numeral in the form of Number::toString is read back as it is. *)
Lemma parse_number_decimal neg u f rest :
  number_form (Decimal.Decimal (Decimal.Pos u) f) = true ->
  continues_number rest = false ->
  parse_number neg (show_uint u ++ show_fraction f ++ rest)
  = Some (JDec (Decimal.Decimal (if neg then Decimal.Neg u else Decimal.Pos u) f), rest).
Proof.
  intros Hd Hrest.
  pose proof (continues_no_digit rest Hrest) as Hnd.
  pose proof (continues_no_point rest Hrest) as Hnp.
  destruct (parse_tail rest Hrest) as [Hf He].
  assert (Hfr : f <> Decimal.Nil ->
                (u = Decimal.D0 Decimal.Nil \/ starts_nonzero u = true) ->
                parse_number neg (show_uint u ++ show_fraction f ++ rest)
                = Some (JDec (Decimal.Decimal
                                (if neg then Decimal.Neg u else Decimal.Pos u) f), rest)).
  { intros Hne Hu. unfold parse_number.
    rewrite (parse_int_show u (show_fraction f ++ rest) Hu)
      by (destruct f; [congruence|reflexivity..]).
    rewrite (parse_fraction_show f rest Hnd Hnp), He.
    destruct f; (congruence || reflexivity). }
  assert (Hshape : f <> Decimal.Nil ->
                   u = Decimal.D0 Decimal.Nil \/ starts_nonzero u = true).
  { intros Hne. unfold number_form in Hd. cbn [uint_of] in Hd.
    destruct (starts_nonzero u) eqn:Hu; [now right|left].
    destruct f; try congruence;
      apply andb_true_iff in Hd as [_ Hd];
      (destruct u as [|[| | | | | | | | | |]| | | | | | | | |]; try discriminate Hd; reflexivity). }
  destruct f; try (apply Hfr; [discriminate|apply Hshape; discriminate]).
  (* an integer beyond the safe integers *)
  unfold number_form in Hd. cbn [uint_of] in Hd.
  apply andb_true_iff in Hd as [Hd _]. apply andb_true_iff in Hd as [Hd _].
  apply andb_true_iff in Hd as [Hu Hbig].
  unfold parse_number. simpl show_fraction. cbn [app].
  rewrite (parse_int_show u rest (or_intror Hu) Hnd), Hf, He. cbv zeta.
  apply N.ltb_lt in Hbig.
  assert (Hle : (Z.of_N (N.of_uint u) <=? 9007199254740991)%Z = false)
    by (apply Z.leb_gt; lia).
  rewrite Hle. reflexivity.
Qed.

Lemma parse_number_exp neg u f e rest :
  number_form (Decimal.DecimalExp (Decimal.Pos u) f e) = true ->
  continues_number rest = false ->
  parse_number neg (show_uint u ++ show_fraction f ++ show_exponent e ++ rest)
  = Some (JDec (Decimal.DecimalExp (if neg then Decimal.Neg u else Decimal.Pos u) f e),
          rest).
Proof.
  intros Hd Hrest.
  pose proof (continues_no_digit rest Hrest) as Hnd.
  unfold number_form in Hd. cbn [uint_of] in Hd.
  apply andb_true_iff in Hd as [Hd He]. apply andb_true_iff in Hd as [Hd _].
  apply andb_true_iff in Hd as [Hu _].
  assert (Hx : starts_nonzero (uint_of e) = true).
  { destruct e as [x|x]; cbn [uint_of];
      apply andb_true_iff in He as [He _]; now apply andb_true_iff in He as [He _]. }
  assert (Hte : no_digit (show_exponent e ++ rest)
                /\ match show_exponent e ++ rest with
                   | c :: _ => (c =? ".")%char = false
                   | [] => True
                   end).
  { destruct e; split; reflexivity. }
  destruct Hte as [Hte1 Hte2].
  unfold parse_number.
  rewrite (parse_int_show u (show_fraction f ++ show_exponent e ++ rest) (or_intror Hu))
    by (destruct f; [exact Hte1|reflexivity..]).
  rewrite (parse_fraction_show f (show_exponent e ++ rest) Hte1 Hte2).
  rewrite (parse_exponent_show e rest Hx Hnd).
  destruct f; reflexivity.
Qed.


Lemma digits_head d :
  d <> Decimal.Nil ->
  exists c s, digits d = c :: s /\ digit_of c <> None.
Proof.
  destruct d; intros H; try congruence; simpl; eexists; eexists; (split; [reflexivity|discriminate]).
Qed.



(** The branches of [parse_value], by the first character. *)
Lemma parse_value_string f s :
  parse_value (S f) (dquote :: s)
  = match parse_chars s with Some (str, r) => Some (JStr str, r) | None => None end.
Proof. reflexivity. Qed.

Lemma parse_value_minus f s :
  parse_value (S f) ("-" :: s)
  = parse_number true s.
Proof. reflexivity. Qed.

Lemma parse_value_digit f c s :
  digit_of c <> None ->
  parse_value (S f) (c :: s)
  = parse_number false (c :: s).
Proof.
  intros H.
  destruct c as [[] [] [] [] [] [] [] []]; try (exfalso; apply H; reflexivity); reflexivity.
Qed.

Lemma parse_value_array f s :
  parse_value (S f) ("[" :: s)
  = match skip_ws s with
    | c :: r =>
        if (c =? "]")%char then Some (JArr [], r)
        else match parse_elements f s with
             | Some (l, r') => Some (JArr l, r')
             | None => None
             end
    | [] => None
    end.
Proof. reflexivity. Qed.

Lemma parse_value_object f s :
  parse_value (S f) ("{" :: s)
  = match skip_ws s with
    | c :: r =>
        if (c =? "}")%char then Some (JObj [], r)
        else match parse_members f s with
             | Some (m, r') => Some (JObj (object_of m), r')
             | None => None
             end
    | [] => None
    end.
Proof. reflexivity. Qed.

Lemma parse_elements_eq f s :
  parse_elements (S f) s
  = match parse_value f s with
    | Some (v, r) =>
        match skip_ws r with
        | c :: r' =>
            if (c =? ",")%char then
              match parse_elements f r' with
              | Some (l, r'') => Some (v :: l, r'')
              | None => None
              end
            else if (c =? "]")%char then Some ([v], r')
            else None
        | [] => None
        end
    | None => None
    end.
Proof. reflexivity. Qed.

Lemma parse_members_eq f k s :
  code_units k ->
  parse_members (S f) (quote k ++ ":" :: s)
  = match parse_value f s with
    | Some (v, r3) =>
        match skip_ws r3 with
        | c3 :: r4 =>
            if (c3 =? ",")%char then
              match parse_members f r4 with
              | Some (m, r5) => Some ((k, v) :: m, r5)
              | None => None
              end
            else if (c3 =? "}")%char then Some ([(k, v)], r4)
            else None
        | [] => None
        end
    | None => None
    end.
Proof.
  intros Hk. unfold quote. rewrite <- app_comm_cons, <- app_assoc.
  change (parse_members (S f) (dquote :: flat_map escape k ++ [dquote] ++ ":" :: s))
    with (match parse_chars (flat_map escape k ++ dquote :: ":" :: s) with
          | Some (k, r1) =>
              match skip_ws r1 with
              | c1 :: r2 =>
                  if (c1 =? ":")%char then
                    match parse_value f r2 with
                    | Some (v, r3) =>
                        match skip_ws r3 with
                        | c3 :: r4 =>
                            if (c3 =? ",")%char then
                              match parse_members f r4 with
                              | Some (m, r5) => Some ((k, v) :: m, r5)
                              | None => None
                              end
                            else if (c3 =? "}")%char then Some ([(k, v)], r4)
                            else None
                        | [] => None
                        end
                    | None => None
                    end
                  else None
              | [] => None
              end
          | None => None
          end).
  rewrite parse_chars_quoted by exact Hk. reflexivity.
Qed.

(** The text of a value starts with a character that is neither white space
    nor a closing bracket. *)
Lemma digit_opens c : digit_of c <> None -> opens c.
Proof.
  intros Hc.
  destruct c as [[] [] [] [] [] [] [] []]; try (exfalso; apply Hc; reflexivity);
    repeat split; reflexivity.
Qed.

Lemma show_uint_head d : exists c s, show_uint d = c :: s /\ opens c.
Proof.
  destruct d; simpl; eexists; eexists; (split; [reflexivity|repeat split; reflexivity]).
Qed.

Lemma show_uint_digit d : exists c s, show_uint d = c :: s /\ digit_of c <> None.
Proof.
  destruct d; simpl; eexists; eexists; (split; [reflexivity|discriminate]).
Qed.

Lemma show_int_head i : exists c s, show_int i = c :: s /\ opens c.
Proof.
  destruct i as [d|d]; simpl; [apply show_uint_head|].
  eexists; eexists; split; [reflexivity|repeat split; reflexivity].
Qed.

Lemma stringify_head v : exists c s, JSON_stringify v = c :: s /\ opens c.
Proof.
  destruct v as [|[]|[|p|p]|d|s|l|m]; simpl;
    try (eexists; eexists; split; [reflexivity|repeat split; reflexivity]).
  - destruct (digits_head _ (DecimalPos.Unsigned.to_uint_nonnil p)) as (c & s & -> & Hc).
    exists c, s. split; [reflexivity|now apply digit_opens].
  - destruct (is_zero d);
      [eexists; eexists; split; [reflexivity|repeat split; reflexivity]|].
    destruct d as [i f|i f e]; simpl; destruct (show_int_head i) as (c & s & -> & Hc);
      eexists; eexists; (split; [reflexivity|exact Hc]).
Qed.


Lemma join_cons (sep a : text) r : exists t, join sep (a :: r) = a ++ t.
Proof.
  destruct r; simpl; [exists []; now rewrite List.app_nil_r|eexists; reflexivity].
Qed.

Lemma join_cons2 (sep a b : text) r :
  join sep (a :: b :: r) = a ++ sep ++ join sep (b :: r).
Proof. reflexivity. Qed.

Lemma skip_ws_opens c s : opens c -> skip_ws (c :: s) = c :: s.
Proof. intros [H _]. simpl. now rewrite H. Qed.

Lemma parse_elements_join l : forall x,
  Forall parses (x :: l) ->
  forall f rest, (list_sum (map (fun x => S (size x)) (x :: l)) <= f)%nat ->
  parse_elements f (join [","] (map JSON_stringify (x :: l)) ++ "]" :: rest)
  = Some (x :: l, rest).
Proof.
  induction l as [|y l IH]; intros x H f rest Hf;
    inversion H as [|? ? Hx Hl]; subst;
    (destruct f as [|f]; [simpl in Hf; lia|]); rewrite parse_elements_eq.
  - simpl join. rewrite (Hx f ("]" :: rest)) by (simpl in Hf; lia || reflexivity).
    reflexivity.
  - simpl map. rewrite join_cons2, <- !app_assoc.
    rewrite (Hx f) by (simpl in Hf; lia || reflexivity).
    change (skip_ws ([","] ++ join [","] (JSON_stringify y :: map JSON_stringify l) ++ "]" :: rest))
      with ("," :: join [","] (map JSON_stringify (y :: l)) ++ "]" :: rest).
    cbn match. rewrite Ascii.eqb_refl.
    rewrite IH by (assumption || simpl in *; lia). reflexivity.
Qed.

Lemma parse_members_join m : forall kv,
  Forall (fun kv => code_units (fst kv) /\ parses (snd kv)) (kv :: m) ->
  forall f rest,
    (list_sum (map (fun kv : jstr * json => S (size (snd kv))) (kv :: m)) <= f)%nat ->
    parse_members f (join [","] (map member (kv :: m)) ++ "}" :: rest)
    = Some (kv :: m, rest).
Proof.
  induction m as [|kv' m IH]; intros [k x] H f rest Hf;
    inversion H as [|? ? [Hk Hx] Hl]; subst; simpl in Hk, Hx;
    (destruct f as [|f]; [simpl in Hf; lia|]).
  - cbn [map join member].
    rewrite <- app_assoc, <- app_comm_cons, parse_members_eq by exact Hk.
    rewrite (Hx f ("}" :: rest)) by (simpl in Hf; lia || reflexivity).
    reflexivity.
  - cbn [map]. rewrite join_cons2. unfold member at 1.
    rewrite <- !app_assoc, <- app_comm_cons, parse_members_eq, <- ?app_assoc by exact Hk.
    rewrite (Hx f) by (simpl in Hf; lia || reflexivity).
    change (skip_ws ([","] ++ join [","] (member kv' :: map member m) ++ "}" :: rest))
      with ("," :: join [","] (map member (kv' :: m)) ++ "}" :: rest).
    cbn match. rewrite Ascii.eqb_refl.
    rewrite IH by (assumption || simpl in *; lia). reflexivity.
Qed.

Lemma skip_ws_value x (more : list text) tl :
  exists c r,
    skip_ws (join [","] (JSON_stringify x :: more) ++ tl) = c :: r
    /\ (c =? "]")%char = false.
Proof.
  destruct (join_cons [","] (JSON_stringify x) more) as [t ->].
  destruct (stringify_head x) as (c & s & -> & Hc).
  exists c, ((s ++ t) ++ tl). split; [|apply Hc].
  rewrite <- !app_comm_cons. now apply skip_ws_opens.
Qed.

Lemma skip_ws_member kv (more : list text) tl :
  exists r, skip_ws (join [","] (member kv :: more) ++ tl) = dquote :: r.
Proof.
  destruct (join_cons [","] (member kv) more) as [t ->].
  destruct kv as [k x]. unfold member, quote.
  rewrite <- !app_comm_cons. eexists. reflexivity.
Qed.

Lemma stringify_arr l :
  JSON_stringify (JArr l) = "[" :: join [","] (map JSON_stringify l) ++ ["]"].
Proof. reflexivity. Qed.

Lemma stringify_obj m :
  JSON_stringify (JObj m) = "{" :: join [","] (map member m) ++ ["}"].
Proof. reflexivity. Qed.

Lemma parse_value_stringify v : representable v -> parses v.
Proof.
  induction v as [|b|n|d|s|l IH|m IH] using json_ind';
    intros Hrep fuel rest Hf Hrest;
    (destruct fuel as [|f]; [simpl in Hf; lia|]).
  - reflexivity.
  - destruct b; reflexivity.
  - destruct n as [|p|p]; simpl JSON_stringify; unfold showZ.
    + cbn [app]. rewrite parse_value_digit by discriminate.
      now apply parse_number_zero.
    + destruct (digits_head _ (DecimalPos.Unsigned.to_uint_nonnil p)) as (c & s & E & Hc).
      rewrite E. simpl app. rewrite parse_value_digit by exact Hc.
      change (c :: s ++ rest) with ((c :: s) ++ rest). rewrite <- E.
      inversion Hrep as [| |? Hs| | | |]; subst. unfold safe_integer in Hs.
      apply parse_number_pos; [lia|exact Hrest].
    + simpl app. rewrite parse_value_minus.
      inversion Hrep as [| |? Hs| | | |]; subst. unfold safe_integer in Hs.
      apply parse_number_pos; [lia|exact Hrest].
  - inversion Hrep as [| | |? Hd| | |]; subst.
    simpl JSON_stringify. rewrite (number_form_nonzero d Hd).
    destruct d as [[u|u] fr|[u|u] fr e]; unfold show_decimal, show_int;
      rewrite <- ?app_assoc.
    + destruct (show_uint_digit u) as (c & s & E & Hc).
      rewrite E. cbn [app]. rewrite parse_value_digit by exact Hc.
      change (c :: s ++ show_fraction fr ++ rest)
        with ((c :: s) ++ show_fraction fr ++ rest).
      rewrite <- E. now apply parse_number_decimal.
    + cbn [app]. rewrite parse_value_minus. now apply parse_number_decimal.
    + destruct (show_uint_digit u) as (c & s & E & Hc).
      rewrite E. cbn [app]. rewrite parse_value_digit by exact Hc.
      change (c :: s ++ show_fraction fr ++ show_exponent e ++ rest)
        with ((c :: s) ++ show_fraction fr ++ show_exponent e ++ rest).
      rewrite <- E. now apply parse_number_exp.
    + cbn [app]. rewrite parse_value_minus. now apply parse_number_exp.
  - inversion Hrep as [| | | |? Hs| |]; subst.
    simpl JSON_stringify. unfold quote. simpl app.
    rewrite parse_value_string, <- app_assoc. simpl app.
    now rewrite parse_chars_quoted.
  - inversion Hrep as [| | | | |? Hl|]; subst.
    assert (Hp : Forall parses l).
    { clear -IH Hl. induction IH; inversion Hl; subst; constructor; auto. }
    rewrite stringify_arr, <- app_comm_cons, parse_value_array, <- app_assoc.
    destruct l as [|x l]; [reflexivity|].
    change (["]"] ++ rest) with ("]" :: rest).
    rewrite parse_elements_join by (assumption || simpl in Hf; simpl; lia).
    destruct (skip_ws_value x (map JSON_stringify l) ("]" :: rest)) as (c & r & E & Hc).
    cbn [map]. rewrite E, Hc. reflexivity.
  - inversion Hrep as [| | | | | |? Hm Hl]; subst.
    assert (Hp : Forall (fun kv => code_units (fst kv) /\ parses (snd kv)) m).
    { clear -IH Hl. induction IH; inversion Hl; subst; constructor; intuition. }
    rewrite stringify_obj, <- app_comm_cons, parse_value_object, <- app_assoc.
    destruct m as [|kv m]; [reflexivity|].
    change (["}"] ++ rest) with ("}" :: rest).
    rewrite parse_members_join by (assumption || simpl in Hf; simpl; lia).
    destruct (skip_ws_member kv (map member m) ("}" :: rest)) as (r & E).
    cbn [map]. rewrite E, Hm. reflexivity.
Qed.


Lemma length_join c (l : list text) :
  (list_sum (map (fun x => S (List.length x)) l) <= S (List.length (join [c] l)))%nat.
Proof.
  induction l as [|a [|b r] IH]; [simpl; lia|simpl; lia|].
  rewrite join_cons2, !length_app.
  set (j := join [c] (b :: r)) in *. simpl in *. lia.
Qed.

Lemma list_sum_le {A} (f g : A -> nat) l :
  Forall (fun x => f x <= g x)%nat l -> (list_sum (map f l) <= list_sum (map g l))%nat.
Proof. induction 1; simpl; lia. Qed.

Lemma size_le_length v : (size v <= List.length (JSON_stringify v))%nat.
Proof.
  induction v as [|b|n|d|s|l IH|m IH] using json_ind'.
  - simpl. lia.
  - destruct b; simpl; lia.
  - destruct (stringify_head (JNum n)) as (c & s & -> & _). simpl. lia.
  - destruct (stringify_head (JDec d)) as (c & s & -> & _). simpl. lia.
  - simpl. lia.
  - rewrite stringify_arr. cbn [size List.length]. rewrite length_app. simpl List.length.
    pose proof (length_join "," (map JSON_stringify l)) as H.
    rewrite map_map in H.
    assert (H' : (list_sum (map (fun x => S (size x)) l)
                  <= list_sum (map (fun x => S (List.length (JSON_stringify x))) l))%nat).
    { apply list_sum_le. eapply Forall_impl; [|exact IH]. simpl. intros; lia. }
    lia.
  - rewrite stringify_obj. cbn [size List.length]. rewrite length_app. simpl List.length.
    pose proof (length_join "," (map member m)) as H.
    rewrite map_map in H.
    assert (H' : (list_sum (map (fun kv : jstr * json => S (size (snd kv))) m)
                  <= list_sum (map (fun kv => S (List.length (member kv))) m))%nat).
    { apply list_sum_le. eapply Forall_impl; [|exact IH]. simpl.
      intros [k x] Hx. unfold member. rewrite length_app. simpl in *. lia. }
    lia.
Qed.

(** [JSON.parse] inverts [JSON.stringify] on the representable values. *)
Lemma JSON_parse_stringify v :
  representable v -> JSON_parse (JSON_stringify v) = Some v.
Proof.
  intros H. unfold JSON_parse.
  rewrite <- (List.app_nil_r (JSON_stringify v)) at 2.
  rewrite (parse_value_stringify v H); [reflexivity| |reflexivity].
  pose proof (size_le_length v). lia.
Qed.

(** The output of [JSON.stringify] has no control character: the delimiter
    cannot occur in it. *)
Lemma escape_char_printable c : Forall printable (escape_char c).
Proof.
  destruct c as [[] [] [] [] [] [] [] []]; repeat constructor.
Qed.

Lemma hexdigit_printable d : printable (hexdigit (d mod 16)).
Proof.
  pose proof (N.mod_lt d 16 ltac:(discriminate)) as H.
  generalize dependent (d mod 16)%N. intros r H.
  assert (E : (r = 0 \/ r = 1 \/ r = 2 \/ r = 3 \/ r = 4 \/ r = 5 \/ r = 6 \/ r = 7
               \/ r = 8 \/ r = 9 \/ r = 10 \/ r = 11 \/ r = 12 \/ r = 13 \/ r = 14
               \/ r = 15)%N) by lia.
  repeat (destruct E as [->|E]; [reflexivity|]). now rewrite E.
Qed.

Lemma escape_printable n : Forall printable (escape n).
Proof.
  unfold escape. destruct (n <? 256)%N; [apply escape_char_printable|].
  repeat constructor; apply hexdigit_printable.
Qed.

Lemma digits_printable d : Forall printable (digits d).
Proof. induction d; simpl; constructor; auto; reflexivity. Qed.

Lemma show_int_printable i : Forall printable (show_int i).
Proof.
  destruct i as [d|d]; simpl; [|constructor; [reflexivity|]];
    (destruct d; simpl; repeat constructor; apply digits_printable).
Qed.

Lemma show_fraction_printable f : Forall printable (show_fraction f).
Proof.
  destruct f; simpl; repeat constructor; apply digits_printable.
Qed.

Lemma quote_printable s : Forall printable (quote s).
Proof.
  unfold quote. constructor; [reflexivity|]. apply Forall_app. split.
  - induction s; simpl; [constructor|]. apply Forall_app. split; [apply escape_printable|assumption].
  - repeat constructor.
Qed.

Lemma join_printable (l : list text) :
  Forall (Forall printable) l -> Forall printable (join [","] l).
Proof.
  induction l as [|a [|b r] IH]; intros H; [constructor|now inversion H|].
  rewrite join_cons2. inversion H; subst.
  apply Forall_app. split; [assumption|].
  apply Forall_app. split; [repeat constructor|auto].
Qed.

Lemma stringify_printable v : Forall printable (JSON_stringify v).
Proof.
  induction v as [|b|n|d|s|l IH|m IH] using json_ind'.
  - repeat constructor.
  - destruct b; repeat constructor.
  - destruct n; simpl; repeat constructor; apply digits_printable.
  - simpl. destruct (is_zero d); [repeat constructor|].
    destruct d as [i f|i f e]; simpl; repeat (apply Forall_app; split);
      auto using show_int_printable, show_fraction_printable.
    destruct e as [x|x]; simpl; (constructor; [reflexivity|]);
      (constructor; [reflexivity|]); destruct x; simpl; repeat constructor;
      apply digits_printable.
  - apply quote_printable.
  - rewrite stringify_arr. constructor; [reflexivity|]. apply Forall_app. split.
    + apply join_printable. now apply Forall_map.
    + repeat constructor.
  - rewrite stringify_obj. constructor; [reflexivity|]. apply Forall_app. split.
    + apply join_printable. apply Forall_map. eapply Forall_impl; [|exact IH].
      intros [k x] Hx. unfold member. apply Forall_app. split; [apply quote_printable|].
      constructor; [reflexivity|exact Hx].
    + repeat constructor.
Qed.

(** Objects with distinct keys, none of them an array index, are in property
    order. *)
Lemma has_key_In k o : has_key k o = true <-> In k (map fst o).
Proof.
  induction o as [|[k' v] o IH]; simpl; [split; [discriminate|tauto]|].
  rewrite orb_true_iff, IH, jstr_eqb_eq. intuition congruence.
Qed.

Lemma object_of_plain m :
  NoDup (map fst m) -> Forall (fun kv => index_of (fst kv) = None) m ->
  object_of m = m.
Proof.
  unfold object_of. change m with ([] ++ m) at 3.
  assert (H : forall acc,
             NoDup (map fst (acc ++ m)) ->
             Forall (fun kv => index_of (fst kv) = None) m ->
             fold_left (fun o kv => obj_set (fst kv) (snd kv) o) m acc = acc ++ m).
  { induction m as [|[k v] m IH]; intros acc Hnd Hi; simpl.
    - now rewrite List.app_nil_r.
    - inversion Hi as [|? ? Hk Hi']; subst. simpl in Hk.
      unfold obj_set. rewrite Hk.
      destruct (has_key k acc) eqn:E.
      + apply has_key_In in E. rewrite map_app in Hnd. simpl in Hnd.
        apply NoDup_remove_2 in Hnd. exfalso. apply Hnd. apply in_or_app. now left.
      + rewrite IH.
        * now rewrite <- app_assoc.
        * now rewrite <- app_assoc.
        * exact Hi'. }
  intros Hnd Hi. now apply H.
Qed.

End JsonFacts.

(** ** Framing *)

Module WireFacts.

Import JsonFacts.

Lemma trimStart_stable c s : is_js_ws c = false -> trimStart (c :: s) = c :: s.
Proof. intros H. simpl. now rewrite H. Qed.

Lemma trimStart_hd s : is_js_ws (hd NODE_IPC_DELIMITER s) = false -> trimStart s = s.
Proof. destruct s as [|c s]; [reflexivity|apply trimStart_stable]. Qed.

Lemma last_rev_hd (s : text) d : hd d (rev s) = last s d.
Proof.
  induction s as [|c s IH] using rev_ind; [reflexivity|].
  rewrite rev_app_distr, last_last. reflexivity.
Qed.

Lemma trimEnd_delimiter s :
  is_js_ws (last s NODE_IPC_DELIMITER) = false ->
  trimEnd (s ++ [NODE_IPC_DELIMITER]) = s.
Proof.
  intros H. unfold trimEnd. rewrite rev_app_distr. simpl.
  rewrite trimStart_hd by now rewrite last_rev_hd.
  apply rev_involutive.
Qed.

Lemma split_app d f rest :
  ~ In d f -> split d (f ++ d :: rest) = f :: split d rest.
Proof.
  induction f as [|c f IH]; simpl; intros H.
  - now rewrite Ascii.eqb_refl.
  - destruct (Ascii.eqb_spec c d) as [->|_]; [tauto|].
    rewrite IH by tauto. reflexivity.
Qed.

Lemma split_none d f : ~ In d f -> split d f = [f].
Proof.
  induction f as [|c f IH]; simpl; intros H; [reflexivity|].
  destruct (Ascii.eqb_spec c d) as [->|_]; [tauto|].
  rewrite IH by tauto. reflexivity.
Qed.

Lemma framed_joined fs : fs <> [] -> framed fs = joined fs ++ [NODE_IPC_DELIMITER].
Proof.
  induction fs as [|f [|g r] IH]; intros H; [congruence| |].
  - simpl. now rewrite List.app_nil_r.
  - change (framed (f :: g :: r)) with ((f ++ [NODE_IPC_DELIMITER]) ++ framed (g :: r)).
    rewrite IH by discriminate.
    change (joined (f :: g :: r)) with (f ++ NODE_IPC_DELIMITER :: joined (g :: r)).
    rewrite <- !app_assoc. reflexivity.
Qed.

Lemma split_joined fs :
  fs <> [] -> Forall whole fs -> split NODE_IPC_DELIMITER (joined fs) = fs.
Proof.
  induction fs as [|f [|g r] IH]; intros H Hw; [congruence| |].
  - simpl. apply split_none. inversion Hw as [|? ? [Hf _] _]; exact Hf.
  - change (joined (f :: g :: r)) with (f ++ NODE_IPC_DELIMITER :: joined (g :: r)).
    inversion Hw as [|? ? [Hf _] Hr]; subst.
    rewrite split_app by exact Hf. rewrite IH by (discriminate || exact Hr). reflexivity.
Qed.

Lemma last_skip (a : text) c b d : last (a ++ c :: b) d = last (c :: b) d.
Proof.
  induction a as [|x a IH]; [reflexivity|].
  simpl app. rewrite <- IH. simpl. destruct (a ++ c :: b) eqn:E; [|reflexivity].
  now destruct a.
Qed.

Lemma last_joined fs :
  fs <> [] -> Forall whole fs ->
  is_js_ws (last (joined fs) NODE_IPC_DELIMITER) = false.
Proof.
  induction fs as [|f [|g r] IH]; intros H Hw; [congruence| |].
  - simpl. inversion Hw as [|? ? [_ [_ Hl]] _]; exact Hl.
  - change (joined (f :: g :: r)) with (f ++ NODE_IPC_DELIMITER :: joined (g :: r)).
    inversion Hw as [|? ? _ Hr]; subst.
    specialize (IH ltac:(discriminate) Hr).
    rewrite last_skip.
    destruct (joined (g :: r)) as [|c t] eqn:E; [discriminate IH|].
    exact IH.
Qed.

(** A read of whole frames is split back into these frames. *)
Lemma events_of_framed fs :
  fs <> [] -> Forall whole fs -> events_of (framed fs) = fs.
Proof.
  intros H Hw. unfold events_of, trim.
  rewrite framed_joined by exact H.
  assert (Hs : trimStart (joined fs ++ [NODE_IPC_DELIMITER])
               = joined fs ++ [NODE_IPC_DELIMITER]).
  { destruct fs as [|f r]; [congruence|].
    inversion Hw as [|? ? [_ [Hh _]] _]; subst.
    destruct f as [|c f]; [discriminate Hh|].
    destruct r; simpl in *; now rewrite Hh. }
  rewrite Hs, trimEnd_delimiter by now apply last_joined.
  now apply split_joined.
Qed.

Lemma onData_events_deliverable fs :
  Forall deliverable fs -> onData_events fs = (decoded fs, None).
Proof.
  induction 1 as [|f fs [_ Hf] _ IH]; [reflexivity|].
  unfold decoded in *. cbn [onData_events flat_map].
  destruct (decodeEvent f) as [e|r]; [contradiction|].
  rewrite Hf, IH. reflexivity.
Qed.

Lemma onData_events_malformed fs bad rest e :
  Forall deliverable fs -> decodeEvent bad = inl e ->
  onData_events (fs ++ bad :: rest) = (decoded fs, Some e).
Proof.
  intros Hfs Hbad. induction Hfs as [|f fs [_ Hf] _ IH].
  - simpl. now rewrite Hbad.
  - unfold decoded in *. cbn [onData_events flat_map app].
    destruct (decodeEvent f) as [e'|r]; [contradiction|].
    rewrite Hf, IH. reflexivity.
Qed.

Lemma deliverable_whole fs : Forall deliverable fs -> Forall whole fs.
Proof. apply Forall_impl. now intros f [H _]. Qed.

Lemma decoded_app a b : decoded (a ++ b) = decoded a ++ decoded b.
Proof. unfold decoded. apply flat_map_app. Qed.

Lemma length_decoded fs : Forall deliverable fs -> List.length (decoded fs) = List.length fs.
Proof.
  induction 1 as [|f fs [_ Hf] _ IH]; [reflexivity|].
  unfold decoded in *. simpl. destruct (decodeEvent f); [contradiction|].
  simpl. now rewrite IH.
Qed.

Lemma decodeReads_whole reads :
  Forall (fun r => r <> []) reads -> Forall (Forall deliverable) reads ->
  decodeReads (map framed reads) = (decoded (List.concat reads), []).
Proof.
  induction reads as [|r reads IH]; intros Hne Hd; [reflexivity|].
  inversion Hne; inversion Hd; subst.
  simpl. unfold decodeRead.
  rewrite events_of_framed by (assumption || now apply deliverable_whole).
  rewrite onData_events_deliverable by assumption.
  rewrite IH by assumption.
  now rewrite decoded_app.
Qed.

(** *** Round trip of a request *)

Lemma printable_no_delimiter s : Forall printable s -> ~ In NODE_IPC_DELIMITER s.
Proof.
  intros H Hin. rewrite Forall_forall in H. specialize (H _ Hin). discriminate H.
Qed.

Lemma stringify_obj_whole m : whole (JSON_stringify (JObj m)).
Proof.
  split; [apply printable_no_delimiter, stringify_printable|].
  rewrite stringify_obj. split; [reflexivity|].
  change ("{"%char :: join [","%char] (map member m) ++ ["}"%char])
    with (("{"%char :: join [","%char] (map member m)) ++ ["}"%char]).
  rewrite last_last. reflexivity.
Qed.

Lemma events_of_frame f : whole f -> events_of (f ++ [NODE_IPC_DELIMITER]) = [f].
Proof.
  intros H. rewrite <- (events_of_framed [f]); [|discriminate|now constructor].
  simpl. now rewrite List.app_nil_r.
Qed.

Ltac units :=
  unfold code_units; apply Forall_forall;
  let n := fresh "n" in let H := fresh "H" in
  intros n H; vm_compute in H;
  repeat (destruct H as [<-|H]; [reflexivity|]); contradiction.

Ltac represent :=
  repeat first
    [ apply rep_null | apply rep_bool | apply rep_str; units
    | apply rep_num; unfold safe_integer; lia
    | apply rep_dec; reflexivity
    | apply rep_arr | apply rep_obj; [reflexivity|]
    | apply Forall_nil
    | apply Forall_cons; cbn [fst snd];
      [ lazymatch goal with
        | |- _ /\ _ => split; [units|]
        | |- _ => idtac
        end | ]
    | assumption ].

Lemma message_of_representable messageId route data :
  safe_integer messageId -> code_units route -> representable data ->
  representable (message_of messageId route (Some data)).
Proof.
  intros Hm Hr Hd. unfold message_of.
  apply rep_obj; [reflexivity|].
  apply Forall_cons; [split; [units|apply rep_str; units]|].
  apply Forall_cons; [split; [units|]|apply Forall_nil].
  cbn [snd app]. apply rep_obj; [reflexivity|].
  apply Forall_cons; [split; [units|now apply rep_num]|].
  apply Forall_cons; [split; [units|now apply rep_str]|].
  apply Forall_cons; [split; [units|exact Hd]|apply Forall_nil].
Qed.

(** C9, as stated, fails at the payload negative zero, a number that JSON
    represents ([JSON.parse] reads the text [-0] as negative zero):
    [JSON.stringify] writes it as [0], so the envelope that [onData] decodes
    from what [send] wrote holds zero, another number. *)
Lemma send_negative_zero_changed :
  JSON_parse (lit "-0") = Some negative_zero
  /\ JSON_stringify negative_zero = lit "0"
  /\ decodeRead (send_bytes 7 (str "chain/getBlock") (Some negative_zero))
     = ([{| type := str "message";
            data := JObj [(str "mid", JNum 7); (str "type", JStr (str "chain/getBlock"));
                          (str "data", JNum 0)] |}], None)
  /\ JNum 0 <> negative_zero.
Proof.
  split; [vm_compute; reflexivity|]. split; [vm_compute; reflexivity|].
  split; [vm_compute; reflexivity|]. unfold negative_zero. discriminate.
Qed.

(** C9, amended: what [send] writes for a JSON-representable payload that
    holds no negative zero (null, booleans, safe integers, numbers with a
    fraction or an exponent, integers beyond the safe ones, strings, arrays
    and objects of these) is decoded by the framing and envelope rule of
    [onData] into one [message] envelope that holds the same message id,
    route and payload. *)
Theorem send_decode_roundtrip (messageId : Z) (route : jstr) (payload : json) :
  safe_integer messageId -> code_units route -> representable payload ->
  decodeRead (send_bytes messageId route (Some payload))
  = ([{| type := str "message";
         data := JObj [(str "mid", JNum messageId); (str "type", JStr route);
                       (str "data", payload)] |}], None).
Proof.
  intros Hm Hr Hd. unfold decodeRead, send_bytes.
  rewrite events_of_frame by apply stringify_obj_whole.
  cbn [onData_events]. unfold decodeEvent.
  rewrite (JSON_parse_stringify _
             (message_of_representable messageId route payload Hm Hr Hd)).
  reflexivity.
Qed.

Lemma send_decode_roundtrip_witness :
  let payload :=
    JObj [(str "filter", JArr [JNum 1; JStr []; JNull; JObj [(str "deep", JArr [])]]);
          (str "name", JStr (map code (js "a'b") ++ [233; 8364]%N));
          (str "fee", half);
          (str "amounts", JArr [JNum (-3); large; tiny; beyond_safe])] in
  decodeRead (send_bytes 7 (str "chain/getBlock") (Some payload))
  = ([{| type := str "message";
         data := JObj [(str "mid", JNum 7); (str "type", JStr (str "chain/getBlock"));
                       (str "data", payload)] |}], None).
Proof.
  apply send_decode_roundtrip.
  - unfold safe_integer; lia.
  - units.
  - represent.
Defined.

(** *** Reads and frames *)

Ltac whole_frame :=
  unfold whole; split; [|split];
  [ let H := fresh in
    vm_compute; intros H;
    repeat (destruct H as [H|H]; [discriminate H|]); exact H
  | reflexivity | reflexivity ].

Ltac deliverable_frame :=
  unfold deliverable; split; [whole_frame | vm_compute; reflexivity].

(** C3, as stated, fails: [onData] keeps nothing between reads, so a frame cut
    by a read boundary is parsed in two pieces and lost, and a malformed frame
    ends the loop of its read before the frames after it. *)
Lemma onData_split_frame_lost :
  let wire := framed [stream_frame] in
  firstn 10 wire ++ skipn 10 wire = wire
  /\ decodeReads [wire]
     = ([{| type := str "stream";
            data := JObj [(str "id", JNum 1); (str "data", JNum 7)] |}], [])
  /\ decodeReads [firstn 10 wire; skipn 10 wire] = ([], [SyntaxError; SyntaxError])
  /\ fst (decodeReads [firstn 10 wire; skipn 10 wire]) <> fst (decodeReads [wire])
  /\ decodeRead (framed [malformed_frame; stream_frame]) = ([], Some SyntaxError).
Proof.
  cbv zeta. split; [reflexivity|]. split; [vm_compute; reflexivity|].
  split; [vm_compute; reflexivity|]. split; [|vm_compute; reflexivity].
  vm_compute. discriminate.
Qed.

(** C3, amended: reads that each hold whole, well-formed frames of kind
    [message] or [stream] yield the envelopes of all their frames, one per
    frame and in arrival order, the same as the one read holding all of them;
    a malformed frame after them ends its read with its error, after their
    envelopes and before the frames behind it.  Nothing is held between
    reads. *)
Theorem onData_whole_reads (reads : list (list text)) (bad : text) (rest : list text)
    (e : Error) :
  reads <> [] ->
  Forall (fun r => r <> []) reads ->
  Forall (Forall deliverable) reads ->
  whole bad -> decodeEvent bad = inl e -> Forall whole rest ->
  decodeReads (map framed reads) = (decoded (List.concat reads), [])
  /\ decodeRead (framed (List.concat reads)) = (decoded (List.concat reads), None)
  /\ List.length (decoded (List.concat reads)) = List.length (List.concat reads)
  /\ decodeRead (framed (List.concat reads ++ bad :: rest))
     = (decoded (List.concat reads), Some e).
Proof.
  intros Hreads Hne Hd Hbad He Hrest.
  assert (Hall : Forall deliverable (List.concat reads)).
  { clear -Hd. induction Hd; simpl; [constructor|]. apply Forall_app. now split. }
  assert (Hcat : List.concat reads <> []).
  { destruct reads as [|r reads]; [congruence|].
    inversion Hne; subst. simpl. destruct r; [congruence|discriminate]. }
  split; [now apply decodeReads_whole|].
  split.
  { unfold decodeRead.
    rewrite events_of_framed by (assumption || now apply deliverable_whole).
    now apply onData_events_deliverable. }
  split; [now apply length_decoded|].
  unfold decodeRead. rewrite events_of_framed.
  - now apply onData_events_malformed.
  - now destruct (List.concat reads).
  - apply Forall_app. split; [now apply deliverable_whole|]. now constructor.
Qed.

Lemma onData_whole_reads_witness :
  let reads := [[stream_frame]; [stream_frame; message_frame]] in
  decodeReads (map framed reads) = (decoded (List.concat reads), [])
  /\ decodeRead (framed (List.concat reads)) = (decoded (List.concat reads), None)
  /\ List.length (decoded (List.concat reads)) = List.length (List.concat reads)
  /\ decodeRead (framed (List.concat reads ++ malformed_frame :: [message_frame]))
     = (decoded (List.concat reads), Some SyntaxError).
Proof.
  apply (onData_whole_reads [[stream_frame]; [stream_frame; message_frame]]
           malformed_frame [message_frame] SyntaxError).
  - discriminate.
  - repeat first [apply Forall_nil | apply Forall_cons]; discriminate.
  - repeat first [apply Forall_nil | apply Forall_cons]; deliverable_frame.
  - whole_frame.
  - vm_compute; reflexivity.
  - repeat first [apply Forall_nil | apply Forall_cons]; whole_frame.
Defined.

End WireFacts.

(** ** The multiplexer *)

Module RpcFacts.

Import Rpc.
Local Open Scope Z_scope.

Section MapFacts.
Context {A : Type}.
Implicit Types (m : list (Z * A)) (k : Z) (a : A).

Lemma get_delete_same k m : get k (delete k m) = None.
Proof.
  induction m as [|[k' a] m IH]; simpl; [reflexivity|].
  destruct (Z.eqb_spec k k'); [exact IH|]. simpl.
  destruct (Z.eqb_spec k k'); [contradiction|exact IH].
Qed.

Lemma get_delete_other k k' m : k <> k' -> get k' (delete k m) = get k' m.
Proof.
  intros H. induction m as [|[k0 a] m IH]; simpl; [reflexivity|].
  destruct (Z.eqb_spec k k0) as [->|Hk].
  - destruct (Z.eqb_spec k' k0); [congruence|exact IH].
  - simpl. now rewrite IH.
Qed.

Lemma keys_delete k m x : In x (map fst (delete k m)) -> In x (map fst m).
Proof.
  induction m as [|[k0 a] m IH]; simpl; [tauto|].
  destruct (Z.eqb_spec k k0); simpl; intuition.
Qed.

Lemma NoDup_delete k m : NoDup (map fst m) -> NoDup (map fst (delete k m)).
Proof.
  induction m as [|[k0 a] m IH]; simpl; intros H; [constructor|].
  inversion H; subst.
  destruct (Z.eqb_spec k k0); simpl; [auto|].
  constructor; [|auto]. intros Hin. now apply keys_delete in Hin.
Qed.

Lemma get_set_same k a m : get k (set k a m) = Some a.
Proof.
  induction m as [|[k0 a0] m IH]; simpl.
  - now rewrite Z.eqb_refl.
  - destruct (Z.eqb_spec k k0) as [->|H]; simpl.
    + now rewrite Z.eqb_refl.
    + destruct (Z.eqb_spec k k0); [contradiction|exact IH].
Qed.

Lemma get_set_other k k' a m : k <> k' -> get k' (set k a m) = get k' m.
Proof.
  intros H. induction m as [|[k0 a0] m IH]; simpl.
  - destruct (Z.eqb_spec k' k); [congruence|reflexivity].
  - destruct (Z.eqb_spec k k0) as [->|Hk]; simpl.
    + destruct (Z.eqb_spec k' k0); [congruence|reflexivity].
    + now rewrite IH.
Qed.

Lemma get_None_keys k m : get k m = None <-> ~ In k (map fst m).
Proof.
  induction m as [|[k0 a0] m IH]; simpl; [tauto|].
  destruct (Z.eqb_spec k k0) as [->|H].
  - split; [discriminate|tauto].
  - rewrite IH. intuition congruence.
Qed.

Lemma set_fresh k a m : get k m = None -> set k a m = m ++ [(k, a)].
Proof.
  induction m as [|[k0 a0] m IH]; simpl; [reflexivity|].
  destruct (Z.eqb_spec k k0); [discriminate|]. intros H. now rewrite IH.
Qed.

Lemma get_In k a m : get k m = Some a -> In (k, a) m.
Proof.
  induction m as [|[k0 a0] m IH]; simpl; [discriminate|].
  destruct (Z.eqb_spec k k0) as [->|H]; [intros [= ->]; now left|auto].
Qed.

Lemma In_get k a m : NoDup (map fst m) -> In (k, a) m -> get k m = Some a.
Proof.
  induction m as [|[k0 a0] m IH]; simpl; [tauto|].
  intros Hnd [H|H]; inversion Hnd; subst.
  - injection H as -> ->. now rewrite Z.eqb_refl.
  - destruct (Z.eqb_spec k k0) as [->|Hk]; [|auto].
    exfalso. apply H2. change k0 with (fst (k0, a)). now apply in_map.
Qed.

Lemma get_update k k' (f : A -> A) m :
  get k' (update k f m)
  = match get k' m with
    | Some a => Some (if k =? k' then f a else a)
    | None => None
    end.
Proof.
  unfold update. induction m as [|[k0 a0] m IH]; simpl; [reflexivity|].
  destruct (Z.eqb_spec k k0) as [->|H]; simpl.
  - destruct (Z.eqb_spec k' k0) as [->|H']; [now rewrite Z.eqb_refl|exact IH].
  - destruct (Z.eqb_spec k' k0) as [->|H']; [|exact IH].
    destruct (Z.eqb_spec k k0); [contradiction|reflexivity].
Qed.

Lemma has_true k m : has k m = true <-> exists a, get k m = Some a.
Proof.
  unfold has. destruct (get k m); split; try discriminate; eauto.
  intros [a [=]].
Qed.

Lemma has_false k m : has k m = false <-> get k m = None.
Proof. unfold has. destruct (get k m); split; congruence. Qed.
End MapFacts.


(** *** The invariant is kept by every call *)

Lemma rejectRequest_settle p e st :
  rejectRequest p e st = settleRequest p (Rejected e) st.
Proof. reflexivity. Qed.

Lemma resolveRequest_settle p v st :
  resolveRequest p v st = settleRequest p (Resolved v) st.
Proof. reflexivity. Qed.

Lemma settleRequest_fields p x st :
  let st' := settleRequest p x st in
  pending st' = delete (req_response p) (pending st)
  /\ settled st' = settled st ++ [(req_response p, x)]
  /\ messageIds st' = messageIds st
  /\ timers st' = match req_timeout p with
                  | Some t0 => filter (fun t => negb (token t =? token t0)) (timers st)
                  | None => timers st
                  end
  /\ (forall k, get k (responses st')
                = match get k (responses st) with
                  | Some r => Some (if req_response p =? k then after_settle x r else r)
                  | None => None
                  end)
  /\ client st' = client st /\ isConnected st' = isConnected st
  /\ written st' = written st /\ errors st' = errors st /\ closes st' = closes st
  /\ timeoutMs st' = timeoutMs st.
Proof.
  unfold settleRequest, settle, close_stream, clearTimeout.
  destruct (req_timeout p); simpl; repeat split; try reflexivity;
    intros k; rewrite !get_update; destruct (get k (responses st)); try reflexivity;
    destruct (req_response p =? k); reflexivity.
Qed.

Lemma Inv_ext st st' :
  pending st' = pending st -> responses st' = responses st ->
  timers st' = timers st -> settled st' = settled st ->
  messageIds st' = messageIds st ->
  Inv st -> Inv st'.
Proof.
  intros Hp Hr Ht Hs Hm [I1 I2 I3 I4 I5 I6 I7].
  constructor; unfold latch, calls_of, armed in *; rewrite ?Hp, ?Hr, ?Ht, ?Hs, ?Hm; auto.
Qed.

Lemma calls_of_other k k' x st st' :
  settled st' = settled st ++ [(k, x)] -> k <> k' -> calls_of k' st' = calls_of k' st.
Proof.
  intros E H. unfold calls_of. rewrite E, filter_app. simpl.
  destruct (Z.eqb_spec k k'); [contradiction|]. now rewrite List.app_nil_r.
Qed.

Lemma calls_of_same k x st st' :
  settled st' = settled st ++ [(k, x)] -> calls_of k st' = calls_of k st ++ [(k, x)].
Proof.
  intros E. unfold calls_of. rewrite E, filter_app. simpl. now rewrite Z.eqb_refl.
Qed.

Lemma armed_false k st :
  armed k st = false <-> forall t, In t (timers st) -> t_messageId t <> k.
Proof.
  unfold armed. split.
  - intros H t Ht E. 
    assert (existsb (fun t => t_messageId t =? k) (timers st) = true).
    { apply existsb_exists. exists t. split; [exact Ht|now apply Z.eqb_eq]. }
    congruence.
  - intros H. destruct (existsb _ _) eqn:E; [|reflexivity].
    apply existsb_exists in E as (t & Ht & Et). apply Z.eqb_eq in Et.
    now apply H in Ht.
Qed.

Lemma settleRequest_Inv k p x st :
  Inv st -> get k (pending st) = Some p -> Inv (settleRequest p x st).
Proof.
  intros [I1 I2 I3 I4 I5 I6 I7] Hp.
  destruct (I2 _ _ Hp) as (Hk & Hto & r0 & Hr0).
  destruct (settleRequest_fields p x st) as (Ep & Es & Em & Et & Er & _).
  rewrite Hk in *.
  assert (Hsub : forall t, In t (timers (settleRequest p x st)) ->
                           In t (timers st) /\ token t <> k).
  { intros t Ht. rewrite Et in Ht. destruct (req_timeout p) as [t0|] eqn:E.
    - apply filter_In in Ht as [Ht Hneq]. split; [exact Ht|].
      apply negb_true_iff, Z.eqb_neq in Hneq.
      destruct (Hto t0 eq_refl) as [<- _]. exact Hneq.
    - split; [exact Ht|]. intros Etok.
      destruct (I5 _ Ht) as (_ & p' & Hp' & Hto'). rewrite Etok in *. congruence. }
  assert (Hkeep : forall t, In t (timers st) -> token t <> k ->
                            In t (timers (settleRequest p x st))).
  { intros t Ht Hne. rewrite Et. destruct (req_timeout p) as [t0|] eqn:E; [|exact Ht].
    apply filter_In. split; [exact Ht|].
    destruct (Hto t0 eq_refl) as [E0 _]. rewrite E0.
    now apply negb_true_iff, Z.eqb_neq. }
  constructor.
  - rewrite Ep. now apply NoDup_delete.
  - intros k' p' H'. rewrite Ep in H'.
    destruct (Z.eq_dec k k') as [<-|Hne]; [now rewrite get_delete_same in H'|].
    rewrite get_delete_other in H' by exact Hne.
    destruct (I2 _ _ H') as (? & Hto' & r' & Hr'). split; [assumption|]. split.
    + intros t Ht. destruct (Hto' t Ht) as [E' Hin]. split; [exact E'|].
      apply Hkeep; [exact Hin|congruence].
    + rewrite Er, Hr'. eauto.
  - intros k' r' H'. rewrite Er in H'.
    destruct (get k' (responses st)) as [r|] eqn:Hr; [|discriminate].
    injection H' as <-. destruct (I3 _ _ Hr) as [Hrange Hl].
    rewrite Em. split; [exact Hrange|].
    destruct (Z.eqb_spec k k') as [<-|Hne].
    + right. rewrite Ep. split; [apply has_false, get_delete_same|].
      destruct Hl as [(_ & Hc & Hprom)|(Hh & _)].
      * exists x. rewrite (calls_of_same k x st _ Es), Hc. simpl. rewrite Hprom.
        repeat split. apply armed_false. intros t Ht.
        destruct (Hsub _ Ht) as [Ht' Hne]. destruct (I5 _ Ht') as [-> _]. exact Hne.
      * apply has_false in Hh. congruence.
    + unfold latch. rewrite Ep, (calls_of_other k k' x st _ Es Hne).
      unfold has. rewrite get_delete_other by exact Hne. fold (has k' (pending st)).
      destruct Hl as [Hl|(Hh & y & Hc & Hprom & Hcl & Harm)]; [now left|right].
      split; [exact Hh|]. exists y. repeat split; auto.
      apply armed_false. intros t Ht. destruct (Hsub _ Ht) as [Ht' _].
      exact (proj1 (armed_false k' st) Harm t Ht').
  - intros k' H'. rewrite Em in H'. destruct (I4 _ H') as [r Hr].
    rewrite Er, Hr. eauto.
  - intros t Ht. destruct (Hsub _ Ht) as [Ht' Hne].
    destruct (I5 _ Ht') as (E & p' & Hp' & Hto'). split; [exact E|].
    exists p'. rewrite Ep, get_delete_other by congruence. auto.
  - intros k' y H'. rewrite Es in H'. rewrite Em.
    apply in_app_or in H' as [H'|[H'|[]]]; [eauto|].
    injection H' as <- <-. now apply (I3 _ _ Hr0).
  - now rewrite Em.
Qed.

Lemma update_Inv id (f : Response -> Response) st :
  (forall r, promise (f r) = promise r) ->
  (forall r, closed (stream r) = true -> closed (stream (f r)) = true) ->
  Inv st -> Inv (set_responses (update id f (responses st)) st).
Proof.
  intros Hf Hc [I1 I2 I3 I4 I5 I6 I7].
  constructor; simpl; auto.
  - intros k p H. destruct (I2 _ _ H) as (? & ? & r & Hr).
    split; [assumption|]. split; [assumption|].
    rewrite get_update, Hr. eauto.
  - intros k r H. rewrite get_update in H.
    destruct (get k (responses st)) as [r0|] eqn:Hr; [|discriminate].
    injection H as <-. destruct (I3 _ _ Hr) as [Hrange Hl]. split; [exact Hrange|].
    unfold latch in *. change (calls_of k (set_responses _ st)) with (calls_of k st).
    change (armed k (set_responses _ st)) with (armed k st).
    destruct (id =? k); [|exact Hl]. rewrite Hf.
    destruct Hl as [Hl|(? & y & ? & ? & ? & ?)]; [now left|right].
    split; [assumption|]. exists y. repeat split; auto.
  - intros k H. destruct (I4 _ H) as [r Hr]. rewrite get_update, Hr. eauto.
Qed.

Lemma write_stream_Inv id v st : Inv st -> Inv (write_stream id v st).
Proof.
  apply update_Inv; [reflexivity|]. intros r H. simpl. unfold Stream_write. now rewrite H.
Qed.

Lemma set_status_Inv id n st : Inv st -> Inv (set_status id n st).
Proof. apply update_Inv; [reflexivity|auto]. Qed.

Lemma surface_Inv e st : Inv st -> Inv (surface e st).
Proof. destruct e; [|auto]. now apply Inv_ext. Qed.

Lemma calls_of_nil k st :
  (forall x, ~ In (k, x) (settled st)) -> calls_of k st = [].
Proof.
  unfold calls_of. intros H. induction (settled st) as [|[k' x] l IH]; [reflexivity|].
  simpl. destruct (Z.eqb_spec k' k) as [->|Hne].
  - exfalso. apply (H x). now left.
  - apply IH. intros y Hy. apply (H y). now right.
Qed.

Lemma NoDup_snoc {A} (l : list A) a : ~ In a l -> NoDup l -> NoDup (l ++ [a]).
Proof.
  induction l as [|b l IH]; simpl; intros Hin Hnd; [repeat constructor; auto|].
  inversion Hnd; subst. constructor; [|apply IH; tauto].
  intros H. apply in_app_or in H as [H|[H|[]]]; [contradiction|]. subst. tauto.
Qed.

Lemma request_fields route payload options st :
  client st <> None ->
  exists st',
    request route payload options st = inr (st', messageIds st + 1)
    /\ messageIds st' = messageIds st + 1
    /\ pending st'
       = set (messageIds st + 1)
           (entry_of (messageIds st + 1) route (timeout_of options st)) (pending st)
    /\ responses st' = set (messageIds st + 1) fresh_response (responses st)
    /\ timers st'
       = timers st ++ match timeout_of options st with
                      | Some ms => [timer_of (messageIds st + 1) route ms]
                      | None => []
                      end
    /\ settled st' = settled st
    /\ written st' = written st ++ [send_bytes (messageIds st + 1) route payload]
    /\ client st' = client st /\ isConnected st' = isConnected st
    /\ errors st' = errors st /\ closes st' = closes st /\ timeoutMs st' = timeoutMs st.
Proof.
  intros Hc. unfold request, timeout_of, entry_of, timer_of, fresh_response.
  destruct (client st) eqn:E; [|congruence].
  eexists. split; [reflexivity|].
  destruct options as [[ms|]|]; simpl; rewrite ?E, ?List.app_nil_r;
    try (destruct (timeoutMs st) eqn:Etm); simpl; rewrite ?E, ?Etm, ?List.app_nil_r;
    repeat split; reflexivity.
Qed.

Lemma request_Inv route payload options st st' id :
  Inv st -> request route payload options st = inr (st', id) -> Inv st'.
Proof.
  intros [I1 I2 I3 I4 I5 I6 I7] H.
  assert (Hc : client st <> None).
  { unfold request in H. destruct (client st); [discriminate|discriminate H]. }
  destruct (request_fields route payload options st Hc)
    as (st0 & E & Em & Ep & Er & Et & Es & _).
  rewrite E in H. injection H as <- <-.
  set (id := messageIds st + 1) in *.
  set (tm := timeout_of options st) in *.
  assert (Hfresh : get id (pending st) = None).
  { destruct (get id (pending st)) as [p|] eqn:E'; [|reflexivity].
    destruct (I2 _ _ E') as (_ & _ & r & Hr). apply I3 in Hr. unfold id in Hr. lia. }
  assert (Hp : forall k p, get k (pending st) = Some p -> id <> k).
  { intros k p E'. congruence. }
  constructor.
  - rewrite Ep, set_fresh, map_app by exact Hfresh.
    apply NoDup_snoc; [now apply get_None_keys|exact I1].
  - intros k p. rewrite Ep, Er.
    destruct (Z.eq_dec id k) as [<-|Hne].
    + rewrite !get_set_same. intros [= <-]. unfold entry_of. simpl.
      split; [reflexivity|]. split; [|eauto].
      intros t Ht. rewrite Et. destruct tm as [ms|]; [|discriminate].
      injection Ht as <-. split; [reflexivity|]. apply in_or_app. right. now left.
    + rewrite !get_set_other by exact Hne. intros H.
      destruct (I2 _ _ H) as (? & Hto & ?). split; [assumption|]. split; [|assumption].
      intros t Ht. destruct (Hto t Ht). split; [assumption|].
      rewrite Et. apply in_or_app. now left.
  - intros k r. rewrite Er, Em. unfold latch, has, calls_of, armed.
    rewrite Ep, Es, Et, existsb_app.
    destruct (Z.eq_dec id k) as [<-|Hne].
    + rewrite !get_set_same. intros [= <-]. split; [lia|]. left.
      repeat split. apply (@calls_of_nil id st).
      intros x Hx. apply I6 in Hx. unfold id in Hx. lia.
    + rewrite !get_set_other by exact Hne. intros Hr.
      destruct (I3 _ _ Hr) as [Hrange Hlat]. split; [lia|].
      assert (Hx : existsb (fun t => t_messageId t =? k)
                     match tm with
                     | Some ms => [timer_of id route ms]
                     | None => []
                     end = false).
      { destruct tm; simpl; [|reflexivity].
        destruct (Z.eqb_spec id k); [contradiction|reflexivity]. }
      rewrite Hx, orb_false_r. exact Hlat.
  - intros k Hk. rewrite Er. destruct (Z.eq_dec id k) as [<-|Hne].
    + rewrite get_set_same. eauto.
    + rewrite get_set_other by exact Hne. apply I4. lia.
  - intros t Ht. rewrite Et in Ht. rewrite Ep.
    apply in_app_or in Ht as [Ht|Ht].
    + destruct (I5 _ Ht) as (E' & p & Hp' & Hto). split; [exact E'|].
      exists p. rewrite get_set_other by eauto. auto.
    + destruct tm as [ms|]; [|contradiction]. destruct Ht as [<-|[]].
      simpl. split; [reflexivity|]. rewrite get_set_same. eauto.
  - intros k x Hx. rewrite Es in Hx. apply I6 in Hx. lia.
  - lia.
Qed.


Lemma delete_absent {A} k (m : list (Z * A)) : ~ In k (map fst m) -> delete k m = m.
Proof.
  induction m as [|[k' a] m IH]; simpl; intros H; [reflexivity|].
  destruct (Z.eqb_spec k k') as [->|Hne]; [tauto|]. rewrite IH; tauto.
Qed.

(** The loop of [onDisconnect] rejects the entries of the table one after the
    other, each with the connection-lost error of its own route. *)
Lemma reject_all_pending l : forall st,
  pending st = l -> Inv st ->
  let st' := reject_all l st in
  Inv st' /\ pending st' = []
  /\ settled st' = settled st ++ map lost l
  /\ messageIds st' = messageIds st /\ client st' = client st
  /\ isConnected st' = isConnected st /\ closes st' = closes st
  /\ written st' = written st /\ errors st' = errors st.
Proof.
  induction l as [|[k p] l IH]; intros st Hl HI; cbn zeta.
  - simpl. rewrite List.app_nil_r. split; [exact HI|]. repeat split; auto.
  - cbn [reject_all].
    assert (Hg : get k (pending st) = Some p).
    { rewrite Hl. simpl. now rewrite Z.eqb_refl. }
    unfold has. rewrite Hg, rejectRequest_settle.
    destruct (inv_entry st HI k p Hg) as (Hk & _).
    destruct (settleRequest_fields p (Rejected (ConnectionLostError (req_type p))) st)
      as (Ep & Es & Em & _ & _ & Ec & Ei & Ew & Ee & Ecl & _).
    assert (Hl' : pending (settleRequest p (Rejected (ConnectionLostError (req_type p))) st) = l).
    { rewrite Ep, Hk, Hl. simpl. rewrite Z.eqb_refl.
      apply delete_absent. pose proof (inv_keys st HI) as Hnd. rewrite Hl in Hnd.
      now inversion Hnd. }
    specialize (IH _ Hl' (settleRequest_Inv k p _ st HI Hg)). cbn zeta in IH.
    destruct IH as (H1 & H2 & H3 & H4 & H5 & H6 & H7 & H8 & H9).
    split; [exact H1|]. repeat split; try congruence.
    rewrite H3, Es, Hk, <- app_assoc. reflexivity.
Qed.

Lemma set_pending_same st : set_pending (pending st) st = st.
Proof. now destruct st. Qed.

(** On a disconnect every entry of the table is rejected with the
    connection-lost error of its route, once, in the order of the table, and
    the table is left empty. *)
Lemma onDisconnect_rejects_all st :
  Inv st -> client st <> None ->
  exists st',
    onDisconnect st = inr st'
    /\ Inv st' /\ pending st' = []
    /\ settled st' = settled st ++ map lost (pending st)
    /\ isConnected st' = false /\ closes st' = S (closes st)
    /\ client st' = client st /\ messageIds st' = messageIds st.
Proof.
  intros HI Hc. unfold onDisconnect. destruct (client st) eqn:E; [|congruence].
  eexists. split; [reflexivity|].
  assert (HI' : Inv (set_isConnected false st)) by now apply (Inv_ext st).
  destruct (reject_all_pending (pending st) (set_isConnected false st) eq_refl HI')
    as (H1 & H2 & H3 & H4 & H5 & H6 & H7 & _). cbn zeta in *.
  change (pending (set_isConnected false st)) with (pending st) in *.
  set (st1 := reject_all (pending st) (set_isConnected false st)) in *.
  assert (E1 : set_pending [] st1 = st1) by (rewrite <- H2; apply set_pending_same).
  rewrite E1. split; [now apply (Inv_ext st1)|].
  simpl in H3, H4, H5, H6, H7. repeat split; simpl; congruence.
Qed.

Lemma filter_twice {A} (f : A -> bool) l : filter f (filter f l) = filter f l.
Proof.
  induction l as [|a l IH]; [reflexivity|]. simpl.
  destruct (f a) eqn:E; simpl; rewrite ?E, IH; reflexivity.
Qed.

Lemma settle_after_clear p x t st :
  req_timeout p = Some t ->
  settleRequest p x (clearTimeout (Some t) st) = settleRequest p x st.
Proof.
  intros H. unfold settleRequest, clearTimeout. rewrite H.
  unfold settle, close_stream, set_pending, set_timers, set_responses, set_settled.
  simpl. now rewrite filter_twice.
Qed.

(** Were the closure of a request called a second time, the table, the
    timeouts and every Response would stay as the first call left them: only
    the call is one more. *)
Lemma delete_twice {A} k (m : list (Z * A)) : delete k (delete k m) = delete k m.
Proof.
  induction m as [|[k' a] m IH]; [reflexivity|]. simpl.
  destruct (Z.eqb_spec k k') as [->|Hne]; [exact IH|].
  simpl. destruct (Z.eqb_spec k k'); [contradiction|now rewrite IH].
Qed.

Lemma settleRequest_twice p x y st :
  let st1 := settleRequest p x st in
  let st2 := settleRequest p y st1 in
  pending st2 = pending st1 /\ timers st2 = timers st1
  /\ (forall k, get k (responses st2) = get k (responses st1))
  /\ settled st2 = settled st1 ++ [(req_response p, y)].
Proof.
  cbv zeta.
  destruct (settleRequest_fields p x st) as (Ep & _ & _ & Et & Er & _).
  destruct (settleRequest_fields p y (settleRequest p x st)) as (Ep' & Es' & _ & Et' & Er' & _).
  split; [now rewrite Ep', Ep, delete_twice|].
  split; [rewrite Et', Et; destruct (req_timeout p); [apply filter_twice|reflexivity]|].
  split; [|exact Es'].
  intros k. rewrite Er', Er. destruct (get k (responses st)) as [r|]; [|reflexivity].
  destruct (req_response p =? k); [|reflexivity].
  unfold after_settle. simpl. now destruct (promise r).
Qed.

(** An armed timeout that fires: its request is in the table and is rejected
    with the timeout error of what the callback captured. *)
Lemma timer_fires t st :
  Inv st -> In t (timers st) ->
  exists p,
    get (token t) (pending st) = Some p
    /\ onTimeout t (clearTimeout (Some t) st)
       = settleRequest p
           (Rejected (RequestTimeoutError (t_messageId t) (t_timeoutMs t) (t_route t))) st.
Proof.
  intros HI Ht. destruct (inv_timer st HI t Ht) as (E & p & Hp & Hto).
  exists p. split; [exact Hp|]. unfold onTimeout.
  change (pending (clearTimeout (Some t) st)) with (pending st).
  rewrite E, Hp, rejectRequest_settle. now apply settle_after_clear.
Qed.

Section HandlerFacts.
Variable IpcResponseSchema : json -> tryValidateResult IpcResponse.
Variable IpcStreamSchema : json -> tryValidateResult IpcStream.
Variable IpcErrorSchema : option json -> tryValidateResult IpcError.
Variable isResponseError : Response -> bool.

#[local] Abbreviation handleEnd := (handleEnd IpcResponseSchema IpcErrorSchema isResponseError).
#[local] Abbreviation handleStream := (handleStream IpcStreamSchema).
#[local] Abbreviation onMessage := (onMessage IpcResponseSchema IpcErrorSchema isResponseError).
#[local] Abbreviation onStream := (onStream IpcStreamSchema).
#[local] Abbreviation dispatch :=
  (dispatch IpcResponseSchema IpcStreamSchema IpcErrorSchema isResponseError).
#[local] Abbreviation onData :=
  (onData IpcResponseSchema IpcStreamSchema IpcErrorSchema isResponseError).
#[local] Abbreviation step := (step IpcResponseSchema IpcStreamSchema IpcErrorSchema isResponseError).
#[local] Abbreviation run := (run IpcResponseSchema IpcStreamSchema IpcErrorSchema isResponseError).

Lemma handleEnd_Inv data st : Inv st -> Inv (fst (handleEnd data st)).
Proof.
  intros HI. unfold Rpc.handleEnd.
  destruct (result (IpcResponseSchema data)) as [res|]; [|exact HI].
  destruct (get (res_id res) (pending st)) as [p|] eqn:Hp; [|exact HI].
  pose proof (set_status_Inv (req_response p) (res_status res) st HI) as HI'.
  assert (Hp' : get (res_id res) (pending (set_status (req_response p) (res_status res) st))
                = Some p) by exact Hp.
  cbv zeta.
  destruct (match get (req_response p) (responses (set_status _ _ st)) with
            | Some response => isResponseError response
            | None => false
            end).
  - destruct (result (IpcErrorSchema (res_data res))) as [body|];
      [|destruct (error (IpcErrorSchema (res_data res)))];
      simpl; rewrite rejectRequest_settle; now apply (settleRequest_Inv (res_id res)).
  - simpl. rewrite resolveRequest_settle. now apply (settleRequest_Inv (res_id res)).
Qed.

Lemma handleStream_Inv data st : Inv st -> Inv (fst (handleStream data st)).
Proof.
  intros HI. unfold Rpc.handleStream.
  destruct (result (IpcStreamSchema data)) as [res|]; [|exact HI].
  destruct (get (str_id res) (pending st)) as [p|]; [|exact HI].
  now apply write_stream_Inv.
Qed.

Lemma onMessage_Inv data st : Inv st -> Inv (onMessage data st).
Proof.
  intros HI. unfold Rpc.onMessage. pose proof (handleEnd_Inv data st HI) as H.
  destruct (handleEnd data st). now apply surface_Inv.
Qed.

Lemma onStream_Inv data st : Inv st -> Inv (onStream data st).
Proof.
  intros HI. unfold Rpc.onStream. pose proof (handleStream_Inv data st HI) as H.
  destruct (handleStream data st). now apply surface_Inv.
Qed.

Lemma dispatch_Inv st r : Inv st -> Inv (dispatch st r).
Proof.
  intros HI. unfold Rpc.dispatch.
  repeat match goal with |- context [if ?b then _ else _] => destruct b end;
    auto using onMessage_Inv, onStream_Inv; now apply surface_Inv.
Qed.

Lemma onData_Inv data st : Inv st -> Inv (onData data st).
Proof.
  intros HI. unfold Rpc.onData. destruct (decodeRead data) as [ds e].
  apply surface_Inv. revert st HI.
  induction ds as [|r ds IH]; intros st HI; [exact HI|].
  simpl. apply IH. now apply dispatch_Inv.
Qed.

Lemma new_client_Inv : Inv new_client.
Proof.
  constructor; simpl; try (intros; discriminate || contradiction || lia).
  constructor.
Qed.

Lemma step_Inv st c : Inv st -> Inv (step st c).
Proof.
  intros HI. destruct c as [route payload options|tok|data|data| |data| |o];
    cbn [Rpc.step].
  - destruct (request route payload options st) as [e|[st' id]] eqn:E; [exact HI|].
    now apply (request_Inv route payload options st st' id).
  - destruct (find _ _) as [t|] eqn:Ef; [|exact HI].
    apply find_some in Ef as [Ht _].
    destruct (timer_fires t st HI Ht) as (p & Hp & ->).
    now apply (settleRequest_Inv (token t)).
  - now apply onMessage_Inv.
  - now apply onStream_Inv.
  - destruct (onDisconnect st) as [e|st'] eqn:E; [exact HI|].
    assert (Hc : client st <> None).
    { unfold onDisconnect in E. destruct (client st); [discriminate|discriminate E]. }
    destruct (onDisconnect_rejects_all st HI Hc) as (st0 & E0 & HI0 & _). congruence.
  - now apply onData_Inv.
  - now apply (Inv_ext st).
  - destruct o as [|error]; simpl; [now apply (Inv_ext st)|].
    destruct (isConnectRefusedError error); [exact HI|].
    destruct (isNoEntityError error); exact HI.
Qed.

Lemma run_Inv calls : forall st, Inv st -> Inv (run calls st).
Proof.
  induction calls as [|c calls IH]; intros st HI; [exact HI|].
  simpl. apply IH. now apply step_Inv.
Qed.

End HandlerFacts.

Lemma grows_refl st : grows st st.
Proof. repeat split; auto; lia. Qed.

Lemma grows_trans a b c : grows a b -> grows b c -> grows a c.
Proof.
  intros (H1 & H2 & H3) (H4 & H5 & H6). split; [lia|]. split; [congruence|].
  intros k p Hk H. apply H3; [exact Hk|]. apply H6; [lia|exact H].
Qed.

Lemma grows_same st st' :
  messageIds st' = messageIds st -> client st' = client st ->
  pending st' = pending st -> grows st st'.
Proof. intros E1 E2 E3. unfold grows. rewrite E1, E2, E3. repeat split; auto; lia. Qed.

Lemma get_delete_Some {A} k k' (m : list (Z * A)) a :
  get k' (delete k m) = Some a -> get k' m = Some a.
Proof.
  destruct (Z.eq_dec k k') as [<-|Hne].
  - now rewrite get_delete_same.
  - now rewrite get_delete_other.
Qed.

Lemma settleRequest_grows p x st : grows st (settleRequest p x st).
Proof.
  destruct (settleRequest_fields p x st) as (Ep & _ & Em & _ & _ & Ec & _).
  split; [lia|]. split; [exact Ec|]. intros k q _. rewrite Ep. apply get_delete_Some.
Qed.

Lemma reject_all_grows l : forall st, grows st (reject_all l st).
Proof.
  induction l as [|[k p] l IH]; intros st; [apply grows_refl|].
  cbn [reject_all]. destruct (has k (pending st)); [|apply IH].
  eapply grows_trans; [|apply IH]. rewrite rejectRequest_settle. apply settleRequest_grows.
Qed.

Section Runs.
Variable IpcResponseSchema : json -> tryValidateResult IpcResponse.
Variable IpcStreamSchema : json -> tryValidateResult IpcStream.
Variable IpcErrorSchema : option json -> tryValidateResult IpcError.
Variable isResponseError : Response -> bool.

#[local] Abbreviation handleEnd := (handleEnd IpcResponseSchema IpcErrorSchema isResponseError).
#[local] Abbreviation handleStream := (handleStream IpcStreamSchema).
#[local] Abbreviation onMessage := (onMessage IpcResponseSchema IpcErrorSchema isResponseError).
#[local] Abbreviation onStream := (onStream IpcStreamSchema).
#[local] Abbreviation dispatch :=
  (dispatch IpcResponseSchema IpcStreamSchema IpcErrorSchema isResponseError).
#[local] Abbreviation onData :=
  (onData IpcResponseSchema IpcStreamSchema IpcErrorSchema isResponseError).
#[local] Abbreviation step := (step IpcResponseSchema IpcStreamSchema IpcErrorSchema isResponseError).
#[local] Abbreviation run := (run IpcResponseSchema IpcStreamSchema IpcErrorSchema isResponseError).

Lemma surface_grows e st : grows st (surface e st).
Proof. destruct e; [now apply grows_same|apply grows_refl]. Qed.

Lemma onMessage_grows data st : grows st (onMessage data st).
Proof.
  unfold Rpc.onMessage, Rpc.handleEnd.
  destruct (result (IpcResponseSchema data)) as [res|]; [|apply surface_grows].
  destruct (get (res_id res) (pending st)) as [p|]; [|apply grows_refl].
  cbv zeta.
  assert (H : grows st (set_status (req_response p) (res_status res) st))
    by now apply grows_same.
  destruct (match get _ _ with Some response => isResponseError response | None => false end);
    [destruct (result (IpcErrorSchema (res_data res)));
     [|destruct (error (IpcErrorSchema (res_data res)))]|];
    cbn [surface]; (eapply grows_trans; [exact H|]);
    rewrite ?rejectRequest_settle, ?resolveRequest_settle; apply settleRequest_grows.
Qed.

Lemma onStream_grows data st : grows st (onStream data st).
Proof.
  unfold Rpc.onStream, Rpc.handleStream.
  destruct (result (IpcStreamSchema data)) as [res|]; [|apply surface_grows].
  destruct (get (str_id res) (pending st)) as [p|]; [|apply grows_refl].
  now apply grows_same.
Qed.

Lemma dispatch_grows st r : grows st (dispatch st r).
Proof.
  unfold Rpc.dispatch.
  repeat match goal with |- context [if ?b then _ else _] => destruct b end;
    auto using onMessage_grows, onStream_grows, grows_refl; now apply grows_same.
Qed.

Lemma step_grows st c : grows st (step st c).
Proof.
  destruct c as [route payload options|tok|data|data| |data| |o]; cbn [Rpc.step].
  - destruct (request route payload options st) as [e|[st' id]] eqn:E; [apply grows_refl|].
    assert (Hc : client st <> None).
    { unfold request in E. destruct (client st); [discriminate|discriminate E]. }
    destruct (request_fields route payload options st Hc)
      as (st0 & E0 & Em & Ep & _ & _ & _ & _ & Ec & _).
    rewrite E0 in E. injection E as <- <-.
    split; [lia|]. split; [exact Ec|]. intros k p Hk. rewrite Ep.
    now rewrite get_set_other by lia.
  - destruct (find _ _) as [t|]; [|apply grows_refl].
    unfold onTimeout.
    assert (H : grows st (clearTimeout (Some t) st)) by now apply grows_same.
    destruct (get _ _); [|exact H].
    eapply grows_trans; [exact H|]. rewrite rejectRequest_settle. apply settleRequest_grows.
  - apply onMessage_grows.
  - apply onStream_grows.
  - unfold onDisconnect. destruct (client st) eqn:E; [|apply grows_refl].
    pose proof (reject_all_grows (pending (set_isConnected false st))
                  (set_isConnected false st)) as (H1 & H2 & _).
    split; [exact H1|]. split; [exact H2|]. intros k p _ H. discriminate H.
  - unfold Rpc.onData. destruct (decodeRead data) as [ds e].
    eapply grows_trans; [|apply surface_grows].
    generalize st. induction ds as [|r ds IH]; intros st0; [apply grows_refl|].
    simpl. eapply grows_trans; [apply dispatch_grows|apply IH].
  - now apply grows_same.
  - destruct o as [|error]; simpl; [now apply grows_same|].
    destruct (isConnectRefusedError error); [apply grows_refl|].
    destruct (isNoEntityError error); apply grows_refl.
Qed.

Lemma run_grows calls : forall st, grows st (run calls st).
Proof.
  induction calls as [|c calls IH]; intros st; [apply grows_refl|].
  simpl. eapply grows_trans; [apply step_grows|apply IH].
Qed.

Lemma run_new_client calls :
  let st := run calls new_client in Inv st /\ client st = Some tt.
Proof.
  split; [apply run_Inv, new_client_Inv|].
  now destruct (run_grows calls new_client) as (_ & -> & _).
Qed.


(** C5: a request made with [timeoutMs = T] whose timeout fires while it is
    still in the table is rejected with the RequestTimeout error of its route
    and of [T], removed from the table, and its Stream is closed; once the
    request is out of the table its timeout is disarmed and the callback, were
    it called, changes nothing. *)
Theorem timeout_rejects_pending (calls more : list Call) (route : jstr)
    (payload : option json) (T : Z) :
  let st0 := run calls new_client in
  let id := messageIds st0 + 1 in
  let st2 := run more (step st0 (CRequest route payload (Some (Some T)))) in
  let st3 := step st2 (CTimeout id) in
  let timedOut := Rejected (RequestTimeoutError id T route) in
  (has id (pending st2) = true ->
     settled st3 = settled st2 ++ [(id, timedOut)]
     /\ has id (pending st3) = false
     /\ calls_of id st3 = [(id, timedOut)]
     /\ exists r, get id (responses st3) = Some r
                  /\ promise r = Some timedOut /\ closed (stream r) = true)
  /\ (has id (pending st2) = false ->
        st3 = st2 /\ forall t, t_messageId t = id -> onTimeout t st2 = st2).
Proof.
  intros st0 id st2 st3 timedOut.
  destruct (run_new_client calls) as [HI0 Hc0]. fold st0 in HI0, Hc0.
  assert (Hc : client st0 <> None) by congruence.
  destruct (request_fields route payload (Some (Some T)) st0 Hc)
    as (st1 & E1 & Em & Ep & _).
  assert (Es1 : step st0 (CRequest route payload (Some (Some T))) = st1).
  { cbn [Rpc.step]. now rewrite E1. }
  assert (HI1 : Inv st1) by (rewrite <- Es1; now apply step_Inv).
  assert (HI2 : Inv st2) by (unfold st2; rewrite Es1; now apply run_Inv).
  assert (Hg : grows st1 st2) by (unfold st2; rewrite Es1; apply run_grows).
  fold id in Em, Ep. cbn [timeout_of] in Ep.
  split.
  - intros Hh. apply has_true in Hh as [p Hp].
    assert (Hp1 : get id (pending st1) = Some p).
    { destruct Hg as (_ & _ & Hg). apply Hg; [lia|exact Hp]. }
    rewrite Ep, get_set_same in Hp1. injection Hp1 as <-.
    destruct (inv_entry _ HI2 _ _ Hp) as (_ & Hto & r & Hr).
    destruct (Hto _ eq_refl) as [_ Hin].
    assert (Hf : find (fun t => token t =? id) (timers st2) = Some (timer_of id route T)).
    { destruct (find (fun t => token t =? id) (timers st2)) as [t|] eqn:Ef.
      - apply find_some in Ef as [Ht Et]. apply Z.eqb_eq in Et.
        destruct (inv_timer _ HI2 t Ht) as (_ & p' & Hp' & Hto').
        rewrite Et, Hp in Hp'. injection Hp' as <-. simpl in Hto'. congruence.
      - exfalso. pose proof (find_none _ _ Ef _ Hin) as Hn.
        simpl in Hn. now rewrite Z.eqb_refl in Hn. }
    unfold st3. cbn [Rpc.step]. rewrite Hf.
    destruct (timer_fires _ _ HI2 Hin) as (p' & Hp' & ->).
    cbn [timer_of token t_messageId t_timeoutMs t_route] in *.
    rewrite Hp in Hp'. injection Hp' as <-.
    destruct (settleRequest_fields (entry_of id route (Some T)) timedOut st2)
      as (Ep3 & Es3 & _ & _ & Er3 & _).
    fold timedOut. cbn [entry_of req_response] in Ep3, Es3, Er3.
    split; [exact Es3|]. split; [rewrite Ep3; apply has_false, get_delete_same|].
    destruct (inv_latch _ HI2 _ _ Hr) as (_ & [(_ & Hcalls & Hprom)|(Hh & _)]).
    + split.
      * rewrite (calls_of_same id timedOut st2 _ Es3), Hcalls. reflexivity.
      * exists (after_settle timedOut r). rewrite Er3, Hr, Z.eqb_refl.
        split; [reflexivity|]. simpl. now rewrite Hprom.
    + apply has_false in Hh. congruence.
  - intros Hh. apply has_false in Hh. split.
    + unfold st3. cbn [Rpc.step].
      destruct (find (fun t => token t =? id) (timers st2)) as [t|] eqn:Ef; [|reflexivity].
      apply find_some in Ef as [Ht Et]. apply Z.eqb_eq in Et.
      destruct (inv_timer _ HI2 t Ht) as (_ & p' & Hp' & _). congruence.
    + intros t Et. unfold onTimeout. now rewrite Et, Hh.
Qed.

(** C6: a [message] or a [stream] envelope whose id is not in the table
    leaves the client as it is: no error is surfaced, no future is called and
    no Stream is written. *)
Theorem unmatched_envelope_dropped (msg chunk : json) (res : IpcResponse)
    (part : IpcStream) (st : Client) :
  result (IpcResponseSchema msg) = Some res ->
  get (res_id res) (pending st) = None ->
  result (IpcStreamSchema chunk) = Some part ->
  get (str_id part) (pending st) = None ->
  handleEnd msg st = (st, None) /\ onMessage msg st = st
  /\ handleStream chunk st = (st, None) /\ onStream chunk st = st
  /\ dispatch st {| type := str "message"; data := msg |} = st
  /\ dispatch st {| type := str "stream"; data := chunk |} = st.
Proof.
  intros Hm Hpm Hs Hps.
  assert (E1 : handleEnd msg st = (st, None)).
  { unfold Rpc.handleEnd. now rewrite Hm, Hpm. }
  assert (E2 : handleStream chunk st = (st, None)).
  { unfold Rpc.handleStream. now rewrite Hs, Hps. }
  assert (E3 : onMessage msg st = st) by (unfold Rpc.onMessage; now rewrite E1).
  assert (E4 : onStream chunk st = st) by (unfold Rpc.onStream; now rewrite E2).
  repeat split; assumption.
Qed.

(** C7: a [message] envelope matched to an entry of the table.  With a
    failure status the request is rejected: with the structured error of
    the decoded error body, else with the error of the failed decoding, else
    with the raw envelope; with any other status it is resolved with the
    payload data. *)
Theorem handleEnd_settles (calls : list Call) (data : json) (res : IpcResponse)
    (p : PendingRequest) (r : Response) :
  let st := run calls new_client in
  let id := res_id res in
  let failure :=
    isResponseError {| promise := promise r; stream := stream r;
                       status := Some (res_status res) |} in
  let body := IpcErrorSchema (res_data res) in
  result (IpcResponseSchema data) = Some res ->
  get id (pending st) = Some p ->
  get id (responses st) = Some r ->
  (forall e, failure = true -> result body = Some e ->
     settles_with id
       (Rejected (RequestError id (err_code e) (err_message e) (err_stack e)))
       (res_status res) st (handleEnd data st))
  /\ (forall e, failure = true -> result body = None -> error body = Some e ->
        settles_with id (Rejected e) (res_status res) st (handleEnd data st))
  /\ (failure = true -> result body = None -> error body = None ->
        settles_with id (Rejected (Thrown (Some data))) (res_status res) st
          (handleEnd data st))
  /\ (failure = false ->
        settles_with id (Resolved (res_data res)) (res_status res) st
          (handleEnd data st)).
Proof.
  intros st id failure body Hres Hp Hr.
  destruct (run_new_client calls) as [HI _]. fold st in HI.
  destruct (inv_entry _ HI _ _ Hp) as (Hid & _).
  destruct (inv_latch _ HI _ _ Hr) as (_ & [(_ & _ & Hprom)|(Hh & _)]);
    [|apply has_false in Hh; fold id in Hh; congruence].
  set (st1 := set_status id (res_status res) st).
  assert (Hr1 : get id (responses st1)
                = Some {| promise := promise r; stream := stream r;
                          status := Some (res_status res) |}).
  { unfold st1, set_status. simpl. now rewrite get_update, Hr, Z.eqb_refl. }
  assert (Hsettle : forall x,
            settles_with id x (res_status res) st (settleRequest p x st1, None)).
  { intros x.
    destruct (settleRequest_fields p x st1) as (Ep & Es & _ & _ & Er & _).
    rewrite Hid in Ep, Es, Er.
    split; [reflexivity|]. split; [exact Es|].
    split; [cbn [fst]; rewrite Ep; apply get_delete_same|].
    eexists. cbn [fst]. rewrite Er, Hr1, Z.eqb_refl.
    split; [reflexivity|]. simpl. now rewrite Hprom. }
  assert (Hend : handleEnd data st
                 = if failure then
                     match result body, error body with
                     | Some e, _ =>
                         (settleRequest p
                            (Rejected (RequestError id (err_code e) (err_message e)
                                         (err_stack e))) st1, None)
                     | None, Some e => (settleRequest p (Rejected e) st1, None)
                     | None, None => (settleRequest p (Rejected (Thrown (Some data))) st1, None)
                     end
                   else (settleRequest p (Resolved (res_data res)) st1, None)).
  { unfold Rpc.handleEnd. rewrite Hres. fold id. rewrite Hp. cbv zeta.
    rewrite Hid. fold st1. rewrite Hr1. fold failure. fold body.
    destruct failure; [|reflexivity].
    destruct (result body); [reflexivity|]. destruct (error body); reflexivity. }
  rewrite Hend. split; [|split; [|split]].
  - intros e -> ->. apply Hsettle.
  - intros e -> -> ->. apply Hsettle.
  - intros -> -> ->. apply Hsettle.
  - intros ->. apply Hsettle.
Qed.

End Runs.

(** *** Examples on the sample schemas *)


Lemma timeout_rejects_pending_witness :
  let st2 := Sample.run [status_call; CStream part_of_9] new_client in
  let st3 := Sample.step st2 (CTimeout 1) in
  let timedOut := Rejected (RequestTimeoutError 1 5000 (str "node/getStatus")) in
  settled st3 = settled st2 ++ [(1, timedOut)]
  /\ has 1 (pending st3) = false
  /\ calls_of 1 st3 = [(1, timedOut)]
  /\ exists r, get 1 (responses st3) = Some r
               /\ promise r = Some timedOut /\ closed (stream r) = true.
Proof.
  apply (timeout_rejects_pending Sample.IpcResponseSchema Sample.IpcStreamSchema
           Sample.IpcErrorSchema Sample.isResponseError
           [] [CStream part_of_9] (str "node/getStatus") None 5000).
  reflexivity.
Defined.

Lemma unmatched_envelope_dropped_witness :
  let st := Sample.run [status_call; block_call] new_client in
  Rpc.handleEnd Sample.IpcResponseSchema Sample.IpcErrorSchema Sample.isResponseError
    end_of_9 st = (st, None)
  /\ Rpc.onMessage Sample.IpcResponseSchema Sample.IpcErrorSchema Sample.isResponseError
       end_of_9 st = st
  /\ Rpc.handleStream Sample.IpcStreamSchema part_of_9 st = (st, None)
  /\ Rpc.onStream Sample.IpcStreamSchema part_of_9 st = st
  /\ Rpc.dispatch Sample.IpcResponseSchema Sample.IpcStreamSchema Sample.IpcErrorSchema
       Sample.isResponseError st {| type := str "message"; data := end_of_9 |} = st
  /\ Rpc.dispatch Sample.IpcResponseSchema Sample.IpcStreamSchema Sample.IpcErrorSchema
       Sample.isResponseError st {| type := str "stream"; data := part_of_9 |} = st.
Proof.
  apply (unmatched_envelope_dropped Sample.IpcResponseSchema Sample.IpcStreamSchema
           Sample.IpcErrorSchema Sample.isResponseError end_of_9 part_of_9
           {| res_id := 9; res_status := 200; res_data := None |}
           {| str_id := 9; str_data := Some (JNum 1) |}); reflexivity.
Defined.

Lemma handleEnd_settles_witness :
  let st := Sample.run [status_call; block_call] new_client in
  settles_with 2
    (Rejected (RequestError 2 (str "not-found") (str "no such block") None)) 400 st
    (Rpc.handleEnd Sample.IpcResponseSchema Sample.IpcErrorSchema Sample.isResponseError
       failure_of_2 st).
Proof.
  refine (proj1 (handleEnd_settles Sample.IpcResponseSchema Sample.IpcStreamSchema
           Sample.IpcErrorSchema Sample.isResponseError
           [status_call; block_call] failure_of_2
           {| res_id := 2; res_status := 400;
              res_data := Some (JObj [(str "code", JStr (str "not-found"));
                                      (str "message", JStr (str "no such block"))]) |}
           (entry_of 2 (str "chain/getBlock") None) fresh_response
           eq_refl eq_refl eq_refl)
           {| err_code := str "not-found"; err_message := str "no such block";
              err_stack := None |} eq_refl eq_refl).
Defined.

(** *** Connecting *)

(** C8: a refused connection makes [connect] reject with the
    ConnectionRefused error, which is a connection error where a socket error
    is not, and makes [tryConnect] answer false; [tryConnect] answers true
    exactly when [connect] succeeds and passes on unchanged every error of
    [connect] that is not a connection error. *)
Theorem connect_refused (st : Client) (o : SocketOutcome) :
  connect (SocketFails (SocketError (lit "ECONNREFUSED"))) st
  = (st, inl ConnectionRefusedError)
  /\ tryConnect (SocketFails (SocketError (lit "ECONNREFUSED"))) st = (st, inr false)
  /\ instanceof_ConnectionError ConnectionRefusedError = true
  /\ (forall errno, instanceof_ConnectionError (SocketError errno) = false)
  /\ (snd (tryConnect o st) = inr true <-> snd (connect o st) = inr tt)
  /\ (forall e, snd (connect o st) = inl e ->
        instanceof_ConnectionError e = false -> snd (tryConnect o st) = inl e)
  /\ fst (tryConnect o st) = fst (connect o st).
Proof.
  repeat split; try reflexivity; unfold tryConnect;
    destruct (connect o st) as [st' [e|[]]]; simpl;
      try (destruct (instanceof_ConnectionError e) eqn:E); simpl;
      try congruence; try discriminate; auto.
Qed.

(** C10: the rejection of [connect] is the ConnectionRefused error for a
    refused connection and also for a no-such-entity error, any other error of
    the socket is passed on as it is, and [tryConnect] answers false for a
    socket path that does not exist. *)
Theorem connect_no_entity (st : Client) (error : Error) :
  connect (SocketFails (SocketError (lit "ENOENT"))) st = (st, inl ConnectionRefusedError)
  /\ connect (SocketFails (SocketError (lit "ECONNREFUSED"))) st
     = (st, inl ConnectionRefusedError)
  /\ tryConnect (SocketFails (SocketError (lit "ENOENT"))) st = (st, inr false)
  /\ (isConnectRefusedError error || isNoEntityError error = true ->
        connect (SocketFails error) st = (st, inl ConnectionRefusedError))
  /\ (isConnectRefusedError error || isNoEntityError error = false ->
        connect (SocketFails error) st = (st, inl error)).
Proof.
  repeat split; try reflexivity; unfold connect;
    destruct (isConnectRefusedError error), (isNoEntityError error);
    simpl; intros; congruence.
Qed.

(** *** Requests without a connection *)

(** The guard of [request] is the client handle. *)
Lemma request_without_client route payload options st :
  client st = None ->
  request route payload options st
  = inl (AssertionError (lit "Connect first using connect()")).
Proof. intros H. unfold request. now rewrite H. Qed.

(** C2 fails on the TCP client: its handle is made by the constructor, so a
    request before any [connect] is recorded in the table and written out. *)
Theorem request_before_connect (route : jstr) (payload : option json)
    (options : option (option Z)) :
  isConnected new_client = false
  /\ exists st',
       request route payload options new_client = inr (st', 1)
       /\ get 1 (pending st') = Some (entry_of 1 route (timeout_of options new_client))
       /\ written st' = [send_bytes 1 route payload].
Proof.
  split; [reflexivity|].
  destruct (request_fields route payload options new_client ltac:(discriminate))
    as (st' & E & _ & Ep & _ & _ & _ & Ew & _).
  exists st'. split; [exact E|]. split; [now rewrite Ep|exact Ew].
Qed.

(** C1 fails on the TCP client: when the socket closes, [onClientClose] leaves
    the table and the futures as they are, and a later [request] is accepted;
    [onDisconnect], where it runs, rejects and clears, and a later [request]
    is accepted all the same. *)
Theorem close_leaves_requests_pending :
  let route := str "chain/getBlock" in
  let st2 := requested route None None (fst (connect SocketConnect new_client)) in
  let st3 := onClientClose st2 in
  request route None None (fst (connect SocketConnect new_client)) = inr (st2, 1)
  /\ isConnected st3 = false
  /\ get 1 (pending st3) = Some (entry_of 1 route None)
  /\ get 1 (responses st3) = Some fresh_response
  /\ settled st3 = []
  /\ request route None None st3 = inr (requested route None None st3, 2)
  /\ exists st5,
       onDisconnect st2 = inr st5
       /\ isConnected st5 = false /\ pending st5 = []
       /\ settled st5 = [(1, Rejected (ConnectionLostError route))]
       /\ request route None None st5 = inr (requested route None None st5, 2).
Proof.
  cbv zeta.
  split; [vm_compute; reflexivity|]. split; [vm_compute; reflexivity|].
  split; [vm_compute; reflexivity|]. split; [vm_compute; reflexivity|].
  split; [vm_compute; reflexivity|]. split; [vm_compute; reflexivity|].
  eexists. split; [vm_compute; reflexivity|].
  split; [vm_compute; reflexivity|]. split; [vm_compute; reflexivity|].
  split; vm_compute; reflexivity.
Qed.

End RpcFacts.

(** ** Reads and writes on the wire *)

Module ReadFacts.

Import JsonFacts WireFacts.

(** *** White space around a read *)

Lemma trimStart_blank s : blank s -> trimStart s = [].
Proof. induction 1 as [|c s Hc _ IH]; [reflexivity|]. simpl. now rewrite Hc. Qed.

Lemma trimStart_app_blank pre s : blank pre -> trimStart (pre ++ s) = trimStart s.
Proof. induction 1 as [|c p Hc _ IH]; [reflexivity|]. simpl. now rewrite Hc. Qed.

Lemma trimStart_app s post : trimStart s <> [] -> trimStart (s ++ post) = trimStart s ++ post.
Proof.
  induction s as [|c s IH]; simpl; [congruence|].
  destruct (is_js_ws c); [exact IH|reflexivity].
Qed.

Lemma trimStart_nil_blank s : trimStart s = [] -> blank s.
Proof.
  induction s as [|c s IH]; simpl; intros H; [constructor|].
  destruct (is_js_ws c) eqn:E; [|discriminate H].
  apply Forall_cons; [exact E|exact (IH H)].
Qed.

Lemma blank_rev s : blank s -> blank (rev s).
Proof. apply Forall_rev. Qed.

Lemma trimEnd_app_blank s post : blank post -> trimEnd (s ++ post) = trimEnd s.
Proof.
  intros H. unfold trimEnd. rewrite rev_app_distr.
  now rewrite trimStart_app_blank by now apply blank_rev.
Qed.

Lemma trim_blank_ends pre s post :
  blank pre -> blank post -> trim (pre ++ s ++ post) = trim s.
Proof.
  intros Hpre Hpost. unfold trim. rewrite trimStart_app_blank by exact Hpre.
  destruct (trimStart s) as [|c t] eqn:E.
  - apply trimStart_nil_blank in E.
    rewrite trimStart_blank; [reflexivity|]. apply Forall_app. now split.
  - rewrite trimStart_app by congruence. rewrite E. now apply trimEnd_app_blank.
Qed.

Lemma trim_delimiter s : trim (s ++ [NODE_IPC_DELIMITER]) = trim s.
Proof.
  apply (trim_blank_ends [] s [NODE_IPC_DELIMITER]); [apply Forall_nil|].
  apply Forall_cons; [reflexivity|apply Forall_nil].
Qed.

(** X5: white space before and after a read, delimiters included, is dropped
    by [trim]: the read is handled as the read without it. *)
Theorem onData_outer_space (pre data post : text) :
  blank pre -> blank post -> decodeRead (pre ++ data ++ post) = decodeRead data.
Proof.
  intros Hpre Hpost. unfold decodeRead, events_of.
  now rewrite trim_blank_ends.
Qed.

Lemma onData_outer_space_witness :
  decodeRead ([" "%char; NODE_IPC_DELIMITER] ++ framed [stream_frame] ++ [ascii_of_N 10])
  = decodeRead (framed [stream_frame]).
Proof.
  apply onData_outer_space.
  - apply Forall_cons; [reflexivity|apply Forall_cons; [reflexivity|apply Forall_nil]].
  - apply Forall_cons; [reflexivity|apply Forall_nil].
Defined.

(** X4: a read that is empty or holds white space only (delimiters, line
    ends) dispatches nothing and ends in the syntax error of parsing the empty
    text. *)
Theorem onData_blank_read (data : text) :
  blank data -> decodeRead data = ([], Some SyntaxError).
Proof.
  intros H. unfold decodeRead, events_of, trim.
  rewrite trimStart_blank by exact H. reflexivity.
Qed.

Lemma onData_blank_read_witness :
  decodeRead [NODE_IPC_DELIMITER; ascii_of_N 10] = ([], Some SyntaxError).
Proof.
  apply onData_blank_read.
  apply Forall_cons; [reflexivity|apply Forall_cons; [reflexivity|apply Forall_nil]].
Defined.

(** X6: the delimiter after the last frame of a read is optional: frames
    joined by the delimiter are handled the same with and without it. *)
Theorem onData_last_delimiter (frames : list text) :
  decodeRead (joined frames) = decodeRead (framed frames).
Proof.
  destruct frames as [|f fs]; [reflexivity|].
  rewrite framed_joined by discriminate.
  unfold decodeRead, events_of. now rewrite trim_delimiter.
Qed.

(** *** The loop of [onData], for any events *)

Lemma onData_events_accepted evs :
  Forall accepted evs -> onData_events evs = (decoded evs, None).
Proof.
  induction 1 as [|f fs Hf _ IH]; [reflexivity|].
  unfold accepted in Hf. unfold decoded in *. cbn [onData_events flat_map].
  destruct (decodeEvent f) as [e|r]; [contradiction|].
  rewrite Hf, IH. reflexivity.
Qed.

Lemma onData_events_none evs :
  snd (onData_events evs) = None -> Forall accepted evs.
Proof.
  induction evs as [|f fs IH]; [constructor|].
  cbn [onData_events]. destruct (decodeEvent f) as [e|r] eqn:E; [discriminate|].
  destruct (calls_onError r) eqn:Ek; [discriminate|].
  destruct (onData_events fs) as [ds e]. simpl. intros ->.
  constructor; [|now apply IH]. unfold accepted. now rewrite E.
Qed.

Lemma onData_events_length evs :
  (List.length (fst (onData_events evs)) <= List.length evs)%nat.
Proof.
  induction evs as [|f fs IH]; [simpl; lia|].
  cbn [onData_events]. destruct (decodeEvent f) as [e|r]; [simpl; lia|].
  destruct (calls_onError r); [simpl; lia|].
  destruct (onData_events fs) as [ds e]. simpl in *. lia.
Qed.

Lemma length_decoded_accepted evs :
  Forall accepted evs -> List.length (decoded evs) = List.length evs.
Proof.
  induction 1 as [|f fs Hf _ IH]; [reflexivity|].
  unfold accepted in Hf. unfold decoded in *. simpl.
  destruct (decodeEvent f); [contradiction|]. simpl. now rewrite IH.
Qed.

(** X8: a read ends without an error exactly when every one of its events
    parses, validates and is of kind [message] or [stream]; then there is one
    envelope for each event, in order.  In any case no more envelopes are
    dispatched than the read has events. *)
Theorem onData_error_free (data : text) :
  (snd (decodeRead data) = None <-> Forall accepted (events_of data))
  /\ (snd (decodeRead data) = None ->
      fst (decodeRead data) = decoded (events_of data)
      /\ List.length (fst (decodeRead data)) = List.length (events_of data))
  /\ (List.length (fst (decodeRead data)) <= List.length (events_of data))%nat.
Proof.
  unfold decodeRead. split; [split|split].
  - apply onData_events_none.
  - intros H. now rewrite onData_events_accepted.
  - intros H. apply onData_events_none in H.
    rewrite onData_events_accepted by exact H. simpl.
    split; [reflexivity|now apply length_decoded_accepted].
  - apply onData_events_length.
Qed.

Lemma onData_error_free_witness :
  let data := framed [stream_frame; message_frame] in
  fst (decodeRead data) = decoded (events_of data)
  /\ List.length (fst (decodeRead data)) = List.length (events_of data).
Proof.
  apply (proj1 (proj2 (onData_error_free (framed [stream_frame; message_frame])))).
  vm_compute. reflexivity.
Defined.

(** *** What is dispatched is valid *)

Lemma TcpResponseSchema_valid v r :
  result (TcpResponseSchema v) = Some r -> In (type r) kinds /\ data r <> JNull.
Proof.
  unfold TcpResponseSchema.
  set (w := match v with JStr s => _ | _ => v end). clearbody w.
  destruct w as [| | | | |l|o]; try discriminate.
  destruct (cast_string (lookup (str "type") o)) as [t|]; [|discriminate].
  destruct (existsb (jstr_eqb t) kinds) eqn:Ek; [|discriminate].
  destruct (lookup (str "data") o) as [d|]; [|discriminate].
  destruct d; try discriminate; intros [= <-]; simpl;
    (split; [|discriminate]);
    apply existsb_exists in Ek as (k & Hk & Et); apply jstr_eqb_eq in Et; now subst.
Qed.

Lemma decodeEvent_valid ev r :
  decodeEvent ev = inr r -> In (type r) kinds /\ data r <> JNull.
Proof.
  unfold decodeEvent. destruct (JSON_parse ev) as [v|]; [|discriminate].
  destruct (result (TcpResponseSchema v)) as [r'|] eqn:E; [|discriminate].
  intros [= <-]. now apply (TcpResponseSchema_valid v).
Qed.

Lemma handed_kind r :
  In (type r) kinds -> calls_onError r = false ->
  type r = str "message" \/ type r = str "stream".
Proof.
  unfold calls_onError. intros Hin Hc. apply orb_false_iff in Hc as [He Hm].
  destruct Hin as [H|[H|[H|[H|[]]]]]; [now left| | |now right];
    rewrite <- H in *; [rewrite (proj2 (jstr_eqb_eq _ _) eq_refl) in Hm
                       |rewrite (proj2 (jstr_eqb_eq _ _) eq_refl) in He]; discriminate.
Qed.

Lemma onData_events_valid evs :
  Forall (fun r => (type r = str "message" \/ type r = str "stream") /\ data r <> JNull)
    (fst (onData_events evs)).
Proof.
  induction evs as [|f fs IH]; [constructor|].
  cbn [onData_events]. destruct (decodeEvent f) as [e|r] eqn:E; [constructor|].
  apply decodeEvent_valid in E as [Hk Hd].
  destruct (calls_onError r) eqn:Hc; [constructor|].
  destruct (onData_events fs) as [ds e]. simpl in *.
  apply Forall_cons; [|assumption]. split; [now apply handed_kind|exact Hd].
Qed.

(** X9: whatever the reads hold, every envelope that the loop of [onData]
    hands to a handler is of kind [message] or [stream] and has a [data] that
    is not null.  So it is for every value that [JSON.parse] may return for an
    event, strings of any code units included: what the schema accepts of it
    and the [switch] hands on is of these two kinds, with the [type] as the
    schema cast it. *)
Theorem onData_dispatches_valid (reads : list text) :
  Forall (fun r => (type r = str "message" \/ type r = str "stream") /\ data r <> JNull)
    (fst (decodeReads reads))
  /\ forall (value : json) (r : TcpResponse),
       result (TcpResponseSchema value) = Some r -> calls_onError r = false ->
       (type r = str "message" \/ type r = str "stream") /\ data r <> JNull.
Proof.
  split.
  - induction reads as [|data reads IH]; [constructor|].
    cbn [decodeReads]. pose proof (onData_events_valid (events_of data)) as H.
    unfold decodeRead. destruct (onData_events (events_of data)) as [ds e].
    destruct (decodeReads reads) as [ds' es]. simpl in *.
    apply Forall_app. now split.
  - intros value r Hv Hc. apply TcpResponseSchema_valid in Hv as [Hk Hd].
    split; [now apply handed_kind|exact Hd].
Qed.

Lemma onData_dispatches_valid_witness :
  let value := JObj [(str "type", JArr [JStr (str "stream")]);
                     (str "data", JStr [8364%N]); (str "more", JNull)] in
  let r := {| type := str "stream"; data := JStr [8364%N] |} in
  result (TcpResponseSchema value) = Some r
  /\ calls_onError r = false
  /\ (type r = str "message" \/ type r = str "stream") /\ data r <> JNull.
Proof.
  cbv zeta. split; [reflexivity|]. split; [reflexivity|].
  apply (proj2 (onData_dispatches_valid [])
           (JObj [(str "type", JArr [JStr (str "stream")]);
                  (str "data", JStr [8364%N]); (str "more", JNull)]));
    reflexivity.
Defined.

(** *** What [send] writes *)

(** X1: whatever the message id, the route and the payload are, what [send]
    writes is one frame: the delimiter is its last character and occurs nowhere
    else, and [onData] splits it into the one event that is the serialized
    message. *)
Theorem send_one_frame (messageId : Z) (route : jstr) (data : option json) :
  events_of (send_bytes messageId route data)
  = [JSON_stringify (message_of messageId route data)]
  /\ ~ In NODE_IPC_DELIMITER (JSON_stringify (message_of messageId route data))
  /\ last (send_bytes messageId route data) "x"%char = NODE_IPC_DELIMITER.
Proof.
  unfold send_bytes, message_of. split; [|split].
  - apply events_of_frame, stringify_obj_whole.
  - apply printable_no_delimiter, stringify_printable.
  - apply last_last.
Qed.

Lemma sendable_representable q :
  sendable q -> representable (message_of (out_id q) (out_route q) (out_data q)).
Proof.
  intros (Hm & Hr & Hd). unfold message_of.
  apply rep_obj; [reflexivity|].
  apply Forall_cons; [split; [units|apply rep_str; units]|].
  apply Forall_cons; [split; [units|]|apply Forall_nil].
  cbn [snd]. destruct (out_data q) as [d|]; cbn [app].
  - apply rep_obj; [reflexivity|].
    apply Forall_cons; [split; [units|now apply rep_num]|].
    apply Forall_cons; [split; [units|now apply rep_str]|].
    apply Forall_cons; [split; [units|exact Hd]|apply Forall_nil].
  - apply rep_obj; [reflexivity|].
    apply Forall_cons; [split; [units|now apply rep_num]|].
    apply Forall_cons; [split; [units|now apply rep_str]|apply Forall_nil].
Qed.

Lemma decodeEvent_sent q :
  sendable q ->
  decodeEvent (JSON_stringify (message_of (out_id q) (out_route q) (out_data q)))
  = inr (envelope_of q).
Proof.
  intros H. unfold decodeEvent.
  rewrite (JSON_parse_stringify _ (sendable_representable q H)).
  unfold envelope_of. destruct (out_data q); reflexivity.
Qed.

Lemma sent_deliverable q :
  sendable q ->
  deliverable (JSON_stringify (message_of (out_id q) (out_route q) (out_data q))).
Proof.
  intros H. split; [apply stringify_obj_whole|].
  rewrite (decodeEvent_sent q H). reflexivity.
Qed.

Lemma decoded_sent reqs :
  Forall sendable reqs ->
  decoded (map (fun q => JSON_stringify (message_of (out_id q) (out_route q) (out_data q))) reqs)
  = map envelope_of reqs.
Proof.
  induction 1 as [|q reqs Hq _ IH]; [reflexivity|].
  unfold decoded in *. cbn [map flat_map]. rewrite (decodeEvent_sent q Hq), IH. reflexivity.
Qed.

Lemma sent_framed reqs :
  flat_map sent reqs
  = framed (map (fun q => JSON_stringify (message_of (out_id q) (out_route q) (out_data q))) reqs).
Proof.
  induction reqs as [|q reqs IH]; [reflexivity|].
  unfold framed in *. cbn [map flat_map]. now rewrite IH.
Qed.

Lemma decodeReads_sent reqs :
  Forall sendable reqs -> decodeReads (map sent reqs) = (map envelope_of reqs, []).
Proof.
  induction 1 as [|q reqs Hq _ IH]; [reflexivity|].
  cbn [map decodeReads]. rewrite IH. unfold decodeRead, sent, send_bytes.
  rewrite events_of_frame by (unfold message_of; apply stringify_obj_whole).
  cbn [onData_events]. rewrite (decodeEvent_sent q Hq). reflexivity.
Qed.

(** X2: requests written one after the other, with or without a payload, are
    read back as their envelopes, one for each and in the order of the writes,
    when they arrive in one read and when each write arrives as a read of its
    own. *)
Theorem sends_decode_in_order (reqs : list Outgoing) :
  reqs <> [] -> Forall sendable reqs ->
  decodeRead (flat_map sent reqs) = (map envelope_of reqs, None)
  /\ decodeReads (map sent reqs) = (map envelope_of reqs, []).
Proof.
  intros Hne Hs.
  assert (Hd : Forall deliverable
                 (map (fun q => JSON_stringify
                                  (message_of (out_id q) (out_route q) (out_data q))) reqs)).
  { apply Forall_map. revert Hs. apply Forall_impl. exact sent_deliverable. }
  split.
  - rewrite sent_framed. unfold decodeRead.
    rewrite events_of_framed; [|now destruct reqs|now apply deliverable_whole].
    rewrite onData_events_deliverable by exact Hd. now rewrite decoded_sent.
  - now apply decodeReads_sent.
Qed.

Lemma sends_decode_in_order_witness :
  let reqs :=
    [ {| out_id := 1; out_route := str "node/getStatus"; out_data := None |};
      {| out_id := 2; out_route := str "chain/getBlock";
         out_data := Some (JObj [(str "sequence", JNum 3)]) |} ] in
  decodeRead (flat_map sent reqs) = (map envelope_of reqs, None)
  /\ decodeReads (map sent reqs) = (map envelope_of reqs, []).
Proof.
  apply sends_decode_in_order.
  - discriminate.
  - apply Forall_cons; [|apply Forall_cons; [|apply Forall_nil]].
    + split; [unfold safe_integer; simpl; lia|split; [units|exact I]].
    + split; [unfold safe_integer; simpl; lia|split; [units|cbn [out_data]; represent]].
Defined.

(** X3: two calls of [send] that write the same text had the same message id,
    route and payload. *)
Theorem send_injective (a b : Outgoing) :
  sendable a -> sendable b -> sent a = sent b -> a = b.
Proof.
  intros Ha Hb E. unfold sent, send_bytes in E.
  apply app_inj_tail in E as [E _].
  pose proof (decodeEvent_sent a Ha) as Da. rewrite E, (decodeEvent_sent b Hb) in Da.
  destruct a as [ia ra da], b as [ib rb db]. unfold envelope_of in Da.
  cbn [out_id out_route out_data] in Da. injection Da as Ei Er Ed.
  destruct da, db; try discriminate Ed; congruence.
Qed.

Lemma send_injective_witness :
  let a := {| out_id := 4; out_route := str "chain/getBlock";
              out_data := Some (JObj [(str "sequence", JNum 3)]) |} in
  a = a.
Proof.
  apply send_injective.
  - split; [unfold safe_integer; simpl; lia|split; [units|cbn [out_data]; represent]].
  - split; [unfold safe_integer; simpl; lia|split; [units|cbn [out_data]; represent]].
  - reflexivity.
Defined.

(** *** An empty frame *)

Lemma split_joined_inner fs :
  fs <> [] -> Forall (fun f => ~ In NODE_IPC_DELIMITER f) fs ->
  split NODE_IPC_DELIMITER (joined fs) = fs.
Proof.
  induction fs as [|f [|g r] IH]; intros H Hw; [congruence| |].
  - simpl. apply split_none. now inversion Hw.
  - change (joined (f :: g :: r)) with (f ++ NODE_IPC_DELIMITER :: joined (g :: r)).
    inversion Hw as [|? ? Hf Hr]; subst.
    rewrite split_app by exact Hf. rewrite IH by (discriminate || exact Hr). reflexivity.
Qed.

Lemma last_joined_gap fs gs :
  gs <> [] -> Forall whole gs ->
  is_js_ws (last (joined (fs ++ [] :: gs)) NODE_IPC_DELIMITER) = false.
Proof.
  intros Hne Hw. pose proof (last_joined gs Hne Hw) as Hl.
  assert (Hstep : forall f rest,
            is_js_ws (last (joined rest) NODE_IPC_DELIMITER) = false ->
            is_js_ws (last (joined (f :: rest)) NODE_IPC_DELIMITER) = false).
  { intros f rest H. destruct rest as [|g r]; [discriminate H|].
    change (joined (f :: g :: r)) with (f ++ NODE_IPC_DELIMITER :: joined (g :: r)).
    rewrite last_skip. destruct (joined (g :: r)); [discriminate H|exact H]. }
  induction fs as [|f fs IH]; cbn [app]; now apply Hstep.
Qed.

Lemma hd_joined c f r d : hd d (joined ((c :: f) :: r)) = c.
Proof. destruct r; reflexivity. Qed.

(** X7: an empty frame between two frames (two delimiters in a row) ends the
    read with a syntax error after the frames before it; a second delimiter at
    the end of the read is trimmed away and harmless. *)
Theorem onData_empty_frame (fs gs : list text) :
  fs <> [] -> gs <> [] -> Forall deliverable fs -> Forall whole gs ->
  decodeRead (framed fs ++ NODE_IPC_DELIMITER :: framed gs) = (decoded fs, Some SyntaxError)
  /\ decodeRead (framed fs ++ [NODE_IPC_DELIMITER]) = (decoded fs, None).
Proof.
  intros Hfs Hgs Hd Hw. split.
  - assert (E : framed fs ++ NODE_IPC_DELIMITER :: framed gs = framed (fs ++ [] :: gs)).
    { unfold framed. rewrite flat_map_app. reflexivity. }
    rewrite E, framed_joined by now destruct fs.
    unfold decodeRead, events_of, trim.
    assert (Hs : trimStart (joined (fs ++ [] :: gs) ++ [NODE_IPC_DELIMITER])
                 = joined (fs ++ [] :: gs) ++ [NODE_IPC_DELIMITER]).
    { destruct fs as [|f r]; [congruence|].
      inversion Hd as [|? ? [[_ [Hh _]] _] _]; subst.
      destruct f as [|c f]; [discriminate Hh|].
      apply trimStart_hd. cbn [app]. 
      change ((c :: f) :: r ++ [] :: gs) with ((c :: f) :: (r ++ [] :: gs)).
      destruct (r ++ [] :: gs); exact Hh. }
    rewrite Hs, trimEnd_delimiter by now apply last_joined_gap.
    rewrite split_joined_inner.
    + now apply onData_events_malformed.
    + now destruct fs.
    + apply Forall_app. split.
      * revert Hd. apply Forall_impl. now intros f [[H _] _].
      * constructor; [intros []|]. revert Hw. apply Forall_impl. now intros f [H _].
  - unfold decodeRead at 1. unfold events_of.
    rewrite trim_delimiter.
    fold (events_of (framed fs)). rewrite events_of_framed by (assumption || now apply deliverable_whole).
    now apply onData_events_deliverable.
Qed.

Lemma onData_empty_frame_witness :
  decodeRead (framed [stream_frame] ++ NODE_IPC_DELIMITER :: framed [message_frame])
  = (decoded [stream_frame], Some SyntaxError)
  /\ decodeRead (framed [stream_frame] ++ [NODE_IPC_DELIMITER])
     = (decoded [stream_frame], None).
Proof.
  apply (onData_empty_frame [stream_frame] [message_frame]).
  - discriminate.
  - discriminate.
  - repeat first [apply Forall_nil | apply Forall_cons]; deliverable_frame.
  - repeat first [apply Forall_nil | apply Forall_cons]; whole_frame.
Defined.

End ReadFacts.

(** ** Runs of the client *)

Module RunFacts.

Import Rpc JsonFacts WireFacts RpcFacts ReadFacts.
Local Open Scope Z_scope.

(** *** What incoming data leaves alone *)

Lemma receives_refl st : receives st st.
Proof.
  unfold receives. repeat (split; [reflexivity|]).
  split; [auto|]. split; exists []; now rewrite List.app_nil_r.
Qed.

Lemma receives_trans a b c : receives a b -> receives b c -> receives a c.
Proof.
  intros (A1 & A2 & A3 & A4 & A5 & A6 & At & (ea & A7) & (xa & A8))
         (B1 & B2 & B3 & B4 & B5 & B6 & Bt & (eb & B7) & (xb & B8)).
  unfold receives. repeat (split; [congruence|]).
  split; [auto|]. split.
  - exists (ea ++ eb). now rewrite B7, A7, app_assoc.
  - exists (xa ++ xb). now rewrite B8, A8, app_assoc.
Qed.

Lemma settleRequest_receives p x st : receives st (settleRequest p x st).
Proof.
  destruct (settleRequest_fields p x st)
    as (_ & Es & Em & Etm & _ & Ec & Ei & Ew & Ee & Ecl & Et).
  unfold receives. repeat (split; [assumption|]).
  split; [|split].
  - intros t. rewrite Etm. destruct (req_timeout p); [|auto].
    intros H. now apply filter_In in H.
  - exists []. now rewrite List.app_nil_r.
  - eexists. exact Es.
Qed.

Lemma surface_receives e st : receives st (surface e st).
Proof.
  destruct e as [e|]; [|apply receives_refl].
  unfold receives. repeat (split; [reflexivity|]).
  split; [auto|]. split; [now exists [onError]|exists []; simpl; now rewrite List.app_nil_r].
Qed.

Lemma set_responses_receives r st : receives st (set_responses r st).
Proof.
  unfold receives. repeat (split; [reflexivity|]).
  split; [auto|]. split; exists []; simpl; now rewrite List.app_nil_r.
Qed.

Section Frames.
Variable IpcResponseSchema : json -> tryValidateResult IpcResponse.
Variable IpcStreamSchema : json -> tryValidateResult IpcStream.
Variable IpcErrorSchema : option json -> tryValidateResult IpcError.
Variable isResponseError : Response -> bool.

#[local] Abbreviation handleEnd := (handleEnd IpcResponseSchema IpcErrorSchema isResponseError).
#[local] Abbreviation handleStream := (handleStream IpcStreamSchema).
#[local] Abbreviation onMessage := (onMessage IpcResponseSchema IpcErrorSchema isResponseError).
#[local] Abbreviation onStream := (onStream IpcStreamSchema).
#[local] Abbreviation dispatch :=
  (dispatch IpcResponseSchema IpcStreamSchema IpcErrorSchema isResponseError).
#[local] Abbreviation onData :=
  (onData IpcResponseSchema IpcStreamSchema IpcErrorSchema isResponseError).
#[local] Abbreviation step := (step IpcResponseSchema IpcStreamSchema IpcErrorSchema isResponseError).
#[local] Abbreviation run := (run IpcResponseSchema IpcStreamSchema IpcErrorSchema isResponseError).

Lemma onMessage_receives data st : receives st (onMessage data st).
Proof.
  unfold Rpc.onMessage, Rpc.handleEnd.
  destruct (result (IpcResponseSchema data)) as [res|]; [|apply surface_receives].
  destruct (get (res_id res) (pending st)) as [p|]; [|apply receives_refl].
  cbv zeta.
  assert (H : receives st (set_status (req_response p) (res_status res) st))
    by apply set_responses_receives.
  destruct (match get _ _ with Some response => isResponseError response | None => false end);
    [destruct (result (IpcErrorSchema (res_data res)));
     [|destruct (error (IpcErrorSchema (res_data res)))]|];
    cbn [surface]; (eapply receives_trans; [exact H|]);
    rewrite ?rejectRequest_settle, ?resolveRequest_settle; apply settleRequest_receives.
Qed.

Lemma onStream_receives data st : receives st (onStream data st).
Proof.
  unfold Rpc.onStream, Rpc.handleStream.
  destruct (result (IpcStreamSchema data)) as [res|]; [|apply surface_receives].
  destruct (get (str_id res) (pending st)) as [p|]; [|apply receives_refl].
  apply set_responses_receives.
Qed.

Lemma dispatch_receives st r : receives st (dispatch st r).
Proof.
  unfold Rpc.dispatch.
  repeat match goal with |- context [if ?b then _ else _] => destruct b end;
    auto using onMessage_receives, onStream_receives, receives_refl;
    apply surface_receives.
Qed.

Lemma onData_receives data st : receives st (onData data st).
Proof.
  unfold Rpc.onData. destruct (decodeRead data) as [ds e].
  eapply receives_trans; [|apply surface_receives].
  generalize st. induction ds as [|r ds IH]; intros st0; [apply receives_refl|].
  simpl. eapply receives_trans; [apply dispatch_receives|apply IH].
Qed.

(** X11: whatever the read and the state, [onData] writes nothing to the
    socket, gives out no message id, arms no timeout, leaves the connection
    flag and the close notifications as they are, and only adds to the errors
    and to the calls of the futures. *)
Theorem onData_only_receives (data : text) (st : Client) :
  let st' := onData data st in
  written st' = written st /\ messageIds st' = messageIds st
  /\ client st' = client st /\ isConnected st' = isConnected st
  /\ closes st' = closes st /\ timeoutMs st' = timeoutMs st
  /\ (forall t, In t (timers st') -> In t (timers st))
  /\ (exists es, errors st' = errors st ++ es)
  /\ (exists xs, settled st' = settled st ++ xs).
Proof.
  cbv zeta. fold (receives st (onData data st)).
  unfold Rpc.onData. destruct (decodeRead data) as [ds e].
  eapply receives_trans; [|apply surface_receives].
  generalize st. induction ds as [|r ds IH]; intros st0; [apply receives_refl|].
  simpl. eapply receives_trans; [apply dispatch_receives|apply IH].
Qed.

End Frames.

(** *** One request and the others *)

Lemma same_request_refl k st : same_request k st st.
Proof. repeat split. Qed.

Lemma same_request_trans k a b c :
  same_request k a b -> same_request k b c -> same_request k a c.
Proof. intros (A1 & A2 & A3 & A4) (B1 & B2 & B3 & B4). repeat split; congruence. Qed.

Lemma same_request_ext k st st' :
  pending st' = pending st -> responses st' = responses st ->
  settled st' = settled st -> timers st' = timers st -> same_request k st st'.
Proof.
  intros E1 E2 E3 E4. unfold same_request, calls_of, armed.
  now rewrite E1, E2, E3, E4.
Qed.

Lemma existsb_filter_keep {A} (f g : A -> bool) l :
  (forall a, In a l -> f a = true -> g a = true) ->
  existsb f (filter g l) = existsb f l.
Proof.
  induction l as [|a l IH]; intros H; [reflexivity|]. simpl.
  destruct (g a) eqn:Eg; simpl.
  - rewrite IH; [reflexivity|]. intros b Hb. apply H. now right.
  - destruct (f a) eqn:Ef.
    + rewrite (H a (or_introl eq_refl) Ef) in Eg. discriminate.
    + apply IH. intros b Hb. apply H. now right.
Qed.

Lemma settleRequest_same k k0 p x st :
  Inv st -> get k0 (pending st) = Some p -> k0 <> k ->
  same_request k st (settleRequest p x st).
Proof.
  intros HI Hp Hne.
  destruct (inv_entry st HI k0 p Hp) as (Hk & Hto & _).
  destruct (settleRequest_fields p x st) as (Ep & Es & _ & Et & Er & _).
  rewrite Hk in *. split; [|split; [|split]].
  - rewrite Ep. now apply get_delete_other.
  - rewrite Er. destruct (get k (responses st)); [|reflexivity].
    destruct (Z.eqb_spec k0 k); [contradiction|reflexivity].
  - now apply (calls_of_other k0 k x st).
  - unfold armed. rewrite Et. destruct (req_timeout p) as [t0|]; [|reflexivity].
    apply existsb_filter_keep. intros t Ht Ek. apply Z.eqb_eq in Ek.
    destruct (inv_timer st HI t Ht) as (E & _).
    destruct (Hto t0 eq_refl) as (E0 & _).
    apply negb_true_iff, Z.eqb_neq. congruence.
Qed.

Lemma update_same k id (f : Response -> Response) st :
  id <> k -> same_request k st (set_responses (update id f (responses st)) st).
Proof.
  intros Hne. split; [reflexivity|]. split; [|split; reflexivity].
  simpl. rewrite get_update. destruct (get k (responses st)); [|reflexivity].
  destruct (Z.eqb_spec id k); [contradiction|reflexivity].
Qed.

Lemma surface_same k e st : same_request k st (surface e st).
Proof. destruct e; [now apply same_request_ext|apply same_request_refl]. Qed.

Lemma reject_all_head k0 p l st :
  pending st = (k0, p) :: l -> Inv st ->
  let st1 := settleRequest p (Rejected (ConnectionLostError (req_type p))) st in
  reject_all ((k0, p) :: l) st = reject_all l st1
  /\ get k0 (pending st) = Some p /\ pending st1 = l /\ Inv st1.
Proof.
  intros Hl HI. cbv zeta.
  assert (Hg : get k0 (pending st) = Some p).
  { rewrite Hl. simpl. now rewrite Z.eqb_refl. }
  cbn [reject_all]. unfold has. rewrite Hg, rejectRequest_settle.
  split; [reflexivity|]. split; [reflexivity|].
  split; [|now apply (settleRequest_Inv k0)].
  destruct (inv_entry st HI k0 p Hg) as (Hk & _).
  destruct (settleRequest_fields p (Rejected (ConnectionLostError (req_type p))) st)
    as (Ep & _).
  rewrite Ep, Hk, Hl. simpl. rewrite Z.eqb_refl.
  apply delete_absent. pose proof (inv_keys st HI) as Hnd. rewrite Hl in Hnd.
  now inversion Hnd.
Qed.

Lemma reject_all_same k l : forall st,
  pending st = l -> Inv st -> get k l = None ->
  get k (responses (reject_all l st)) = get k (responses st)
  /\ calls_of k (reject_all l st) = calls_of k st
  /\ armed k (reject_all l st) = armed k st.
Proof.
  induction l as [|[k0 p] l IH]; intros st Hl HI Hk; [repeat split|].
  destruct (reject_all_head k0 p l st Hl HI) as (-> & Hg & Hl1 & HI1).
  simpl in Hk. destruct (Z.eqb_spec k k0) as [->|Hne]; [discriminate|].
  destruct (IH _ Hl1 HI1 Hk) as (-> & -> & ->).
  destruct (settleRequest_same k k0 p (Rejected (ConnectionLostError (req_type p))) st
              HI Hg ltac:(congruence)) as (_ & H2 & H3 & H4).
  repeat split; assumption.
Qed.

Section Others.
Variable IpcResponseSchema : json -> tryValidateResult IpcResponse.
Variable IpcStreamSchema : json -> tryValidateResult IpcStream.
Variable IpcErrorSchema : option json -> tryValidateResult IpcError.
Variable isResponseError : Response -> bool.

#[local] Abbreviation handleEnd := (handleEnd IpcResponseSchema IpcErrorSchema isResponseError).
#[local] Abbreviation handleStream := (handleStream IpcStreamSchema).
#[local] Abbreviation onMessage := (onMessage IpcResponseSchema IpcErrorSchema isResponseError).
#[local] Abbreviation onStream := (onStream IpcStreamSchema).
#[local] Abbreviation dispatch :=
  (dispatch IpcResponseSchema IpcStreamSchema IpcErrorSchema isResponseError).
#[local] Abbreviation onData :=
  (onData IpcResponseSchema IpcStreamSchema IpcErrorSchema isResponseError).
#[local] Abbreviation step := (step IpcResponseSchema IpcStreamSchema IpcErrorSchema isResponseError).
#[local] Abbreviation run := (run IpcResponseSchema IpcStreamSchema IpcErrorSchema isResponseError).

Lemma onMessage_same k data st :
  Inv st ->
  (forall res, result (IpcResponseSchema data) = Some res -> res_id res = k ->
               get k (pending st) = None) ->
  same_request k st (onMessage data st).
Proof.
  intros HI H. unfold Rpc.onMessage, Rpc.handleEnd.
  destruct (result (IpcResponseSchema data)) as [res|]; [|apply surface_same].
  specialize (H res eq_refl).
  destruct (get (res_id res) (pending st)) as [p|] eqn:Hp; [|apply same_request_refl].
  assert (Hne : res_id res <> k).
  { intros E. rewrite E in Hp. rewrite (H E) in Hp. discriminate. }
  destruct (inv_entry st HI _ p Hp) as (Hk & _).
  cbv zeta.
  assert (H1 : same_request k st (set_status (req_response p) (res_status res) st)).
  { apply update_same. congruence. }
  pose proof (set_status_Inv (req_response p) (res_status res) st HI) as HI'.
  assert (Hp' : get (res_id res) (pending (set_status (req_response p) (res_status res) st))
                = Some p) by exact Hp.
  destruct (match get _ _ with Some response => isResponseError response | None => false end);
    [destruct (result (IpcErrorSchema (res_data res)));
     [|destruct (error (IpcErrorSchema (res_data res)))]|];
    cbn [surface]; (eapply same_request_trans; [exact H1|]);
    rewrite ?rejectRequest_settle, ?resolveRequest_settle;
    now apply (settleRequest_same k (res_id res)).
Qed.

Lemma onStream_same k data st :
  Inv st ->
  (forall part, result (IpcStreamSchema data) = Some part -> str_id part = k ->
                get k (pending st) = None) ->
  same_request k st (onStream data st).
Proof.
  intros HI H. unfold Rpc.onStream, Rpc.handleStream.
  destruct (result (IpcStreamSchema data)) as [part|]; [|apply surface_same].
  specialize (H part eq_refl).
  destruct (get (str_id part) (pending st)) as [p|] eqn:Hp; [|apply same_request_refl].
  destruct (inv_entry st HI _ p Hp) as (Hk & _).
  cbn [surface]. apply update_same. rewrite Hk. intros E.
  rewrite E in Hp. rewrite (H E) in Hp. discriminate.
Qed.

Lemma onTimeout_same k tok st :
  Inv st -> (tok = k -> get k (pending st) = None) ->
  same_request k st (step st (CTimeout tok)).
Proof.
  intros HI H. cbn [Rpc.step].
  destruct (find _ _) as [t|] eqn:Ef; [|apply same_request_refl].
  apply find_some in Ef as [Ht Etok]. apply Z.eqb_eq in Etok.
  destruct (timer_fires t st HI Ht) as (p & Hp & ->).
  apply (settleRequest_same k (token t)); [exact HI|exact Hp|].
  intros E. rewrite E in Hp. rewrite H in Hp by congruence. discriminate.
Qed.

Lemma dispatch_absent k st r :
  Inv st -> get k (pending st) = None -> same_request k st (dispatch st r).
Proof.
  intros HI H. unfold Rpc.dispatch.
  repeat match goal with |- context [if ?b then _ else _] => destruct b end;
    try apply same_request_refl; try apply surface_same.
  - apply onMessage_same; auto.
  - apply onStream_same; auto.
Qed.

Lemma step_absent k st c :
  Inv st -> get k (pending st) = None -> k <= messageIds st ->
  same_request k st (step st c).
Proof.
  intros HI H Hk.
  destruct c as [route payload options|tok|data|data| |data| |o].
  - cbn [Rpc.step].
    destruct (request route payload options st) as [e|[st' id]] eqn:E;
      [apply same_request_refl|].
    assert (Hc : client st <> None).
    { unfold request in E. destruct (client st); [discriminate|discriminate E]. }
    destruct (request_fields route payload options st Hc)
      as (st0 & E0 & Em & Ep & Er & Et & Es & _).
    rewrite E0 in E. injection E as <- <-.
    unfold same_request, calls_of, armed. rewrite Ep, Er, Es, Et, existsb_app.
    rewrite !get_set_other by lia. repeat split.
    destruct (timeout_of options st); simpl; [|now rewrite orb_false_r].
    destruct (Z.eqb_spec (messageIds st + 1) k); [lia|now rewrite orb_false_r].
  - apply onTimeout_same; auto.
  - apply onMessage_same; auto.
  - apply onStream_same; auto.
  - cbn [Rpc.step]. unfold onDisconnect.
    destruct (client st); [|apply same_request_refl].
    assert (HI' : Inv (set_isConnected false st)) by now apply (Inv_ext st).
    destruct (reject_all_same k (pending st) (set_isConnected false st) eq_refl HI' H)
      as (H1 & H2 & H3).
    unfold same_request. simpl. rewrite H. repeat split; assumption.
  - cbn [Rpc.step]. unfold Rpc.onData. destruct (decodeRead data) as [ds e].
    eapply same_request_trans; [|apply surface_same].
    revert st HI H Hk. induction ds as [|r ds IH]; intros st HI H Hk;
      [apply same_request_refl|].
    simpl. pose proof (dispatch_absent k st r HI H) as Hs.
    eapply same_request_trans; [exact Hs|]. apply IH.
    + now apply dispatch_Inv.
    + destruct Hs as (-> & _). exact H.
    + destruct (dispatch_grows IpcResponseSchema IpcStreamSchema IpcErrorSchema
                  isResponseError st r) as (Hm & _). lia.
  - now apply same_request_ext.
  - cbn [Rpc.step]. destruct o as [|error]; simpl; [now apply same_request_ext|].
    destruct (isConnectRefusedError error); [apply same_request_refl|].
    destruct (isNoEntityError error); apply same_request_refl.
Qed.

Lemma run_absent k calls : forall st,
  Inv st -> get k (pending st) = None -> k <= messageIds st ->
  same_request k st (run calls st).
Proof.
  induction calls as [|c calls IH]; intros st HI H Hk; [apply same_request_refl|].
  simpl. pose proof (step_absent k st c HI H Hk) as Hs.
  eapply same_request_trans; [exact Hs|]. apply IH.
  - now apply step_Inv.
  - destruct Hs as (-> & _). exact H.
  - destruct (step_grows IpcResponseSchema IpcStreamSchema IpcErrorSchema
                isResponseError st c) as (Hm & _). lia.
Qed.

(** X17: once a request is out of the table, nothing that happens later
    changes its Response or calls its future again. *)
Theorem settled_request_is_final (calls more : list Call) (k : Z) :
  let st := run calls new_client in
  k <= messageIds st -> has k (pending st) = false ->
  same_request k st (run more st).
Proof.
  intros st Hk Hh. apply run_absent; [|now apply has_false|exact Hk].
  apply run_Inv, new_client_Inv.
Qed.

(** X18: a [message], a [stream] chunk or a timeout of one request leaves
    every other request as it is: entry, Response, calls and timeout. *)
Theorem other_requests_untouched (calls : list Call) (k : Z) (data : json) (tok : Z) :
  let st := run calls new_client in
  ((forall res, result (IpcResponseSchema data) = Some res -> res_id res <> k) ->
   same_request k st (onMessage data st))
  /\ ((forall part, result (IpcStreamSchema data) = Some part -> str_id part <> k) ->
      same_request k st (onStream data st))
  /\ (tok <> k -> same_request k st (step st (CTimeout tok))).
Proof.
  intros st.
  assert (HI : Inv st) by apply run_Inv, new_client_Inv.
  split; [|split].
  - intros H. apply onMessage_same; [exact HI|]. intros res E E'. now apply H in E.
  - intros H. apply onStream_same; [exact HI|]. intros part E E'. now apply H in E.
  - intros H. apply onTimeout_same; [exact HI|]. intros E. contradiction.
Qed.

End Others.

(** *** Counting the requests *)

Lemma length_delete {A} k (m : list (Z * A)) a :
  NoDup (map fst m) -> get k m = Some a ->
  S (List.length (delete k m)) = List.length m.
Proof.
  induction m as [|[k' a'] m IH]; simpl; intros Hnd H; [discriminate|].
  inversion Hnd as [|? ? Hin Hnd']; subst.
  destruct (Z.eqb_spec k k') as [->|Hne].
  - rewrite delete_absent by exact Hin. reflexivity.
  - simpl. now rewrite IH.
Qed.

Lemma settleRequest_balanced k p x st :
  Inv st -> get k (pending st) = Some p -> balanced st -> balanced (settleRequest p x st).
Proof.
  intros HI Hp Hb. unfold balanced in *.
  destruct (inv_entry st HI k p Hp) as (Hk & _).
  destruct (settleRequest_fields p x st) as (Ep & Es & Em & _).
  rewrite Ep, Es, Em, Hk, length_app. simpl.
  pose proof (length_delete k (pending st) p (inv_keys st HI) Hp). lia.
Qed.

Lemma balanced_ext st st' :
  pending st' = pending st -> settled st' = settled st -> messageIds st' = messageIds st ->
  balanced st -> balanced st'.
Proof. unfold balanced. now intros -> -> ->. Qed.

Lemma surface_balanced e st : balanced st -> balanced (surface e st).
Proof. destruct e; [|auto]. now apply balanced_ext. Qed.

Section Counting.
Variable IpcResponseSchema : json -> tryValidateResult IpcResponse.
Variable IpcStreamSchema : json -> tryValidateResult IpcStream.
Variable IpcErrorSchema : option json -> tryValidateResult IpcError.
Variable isResponseError : Response -> bool.

#[local] Abbreviation handleEnd := (handleEnd IpcResponseSchema IpcErrorSchema isResponseError).
#[local] Abbreviation handleStream := (handleStream IpcStreamSchema).
#[local] Abbreviation onMessage := (onMessage IpcResponseSchema IpcErrorSchema isResponseError).
#[local] Abbreviation onStream := (onStream IpcStreamSchema).
#[local] Abbreviation dispatch :=
  (dispatch IpcResponseSchema IpcStreamSchema IpcErrorSchema isResponseError).
#[local] Abbreviation onData :=
  (onData IpcResponseSchema IpcStreamSchema IpcErrorSchema isResponseError).
#[local] Abbreviation step := (step IpcResponseSchema IpcStreamSchema IpcErrorSchema isResponseError).
#[local] Abbreviation run := (run IpcResponseSchema IpcStreamSchema IpcErrorSchema isResponseError).

Lemma onMessage_balanced data st : Inv st -> balanced st -> balanced (onMessage data st).
Proof.
  intros HI Hb. unfold Rpc.onMessage, Rpc.handleEnd.
  destruct (result (IpcResponseSchema data)) as [res|]; [|now apply surface_balanced].
  destruct (get (res_id res) (pending st)) as [p|] eqn:Hp; [|exact Hb].
  cbv zeta.
  pose proof (set_status_Inv (req_response p) (res_status res) st HI) as HI'.
  assert (Hb' : balanced (set_status (req_response p) (res_status res) st))
    by now apply (balanced_ext st).
  assert (Hp' : get (res_id res) (pending (set_status (req_response p) (res_status res) st))
                = Some p) by exact Hp.
  destruct (match get _ _ with Some response => isResponseError response | None => false end);
    [destruct (result (IpcErrorSchema (res_data res)));
     [|destruct (error (IpcErrorSchema (res_data res)))]|];
    cbn [surface]; rewrite ?rejectRequest_settle, ?resolveRequest_settle;
    now apply (settleRequest_balanced (res_id res)).
Qed.

Lemma onStream_balanced data st : balanced st -> balanced (onStream data st).
Proof.
  intros Hb. unfold Rpc.onStream, Rpc.handleStream.
  destruct (result (IpcStreamSchema data)) as [res|]; [|now apply surface_balanced].
  destruct (get (str_id res) (pending st)) as [p|]; [|exact Hb].
  now apply (balanced_ext st).
Qed.

Lemma dispatch_balanced st r : Inv st -> balanced st -> balanced (dispatch st r).
Proof.
  intros HI Hb. unfold Rpc.dispatch.
  repeat match goal with |- context [if ?b then _ else _] => destruct b end;
    auto using onMessage_balanced, onStream_balanced; now apply surface_balanced.
Qed.

Lemma step_balanced st c :
  Inv st -> client st <> None -> balanced st ->
  balanced (step st c)
  /\ messageIds (step st c) = messageIds st + (if is_request c then 1 else 0).
Proof.
  intros HI Hc Hb.
  destruct c as [route payload options|tok|data|data| |data| |o]; cbn [Rpc.step is_request].
  - destruct (request_fields route payload options st Hc)
      as (st0 & E0 & Em & Ep & _ & _ & Es & _).
    rewrite E0. split; [|exact Em]. unfold balanced in *.
    rewrite Ep, Es, Em, set_fresh, length_app; [simpl; lia|].
    destruct (get (messageIds st + 1) (pending st)) as [p|] eqn:E'; [|reflexivity].
    destruct (inv_entry st HI _ _ E') as (_ & _ & r & Hr).
    apply (inv_latch st HI) in Hr. lia.
  - destruct (find _ _) as [t|] eqn:Ef; [|split; [exact Hb|lia]].
    apply find_some in Ef as [Ht _].
    destruct (timer_fires t st HI Ht) as (p & Hp & ->).
    split; [now apply (settleRequest_balanced (token t))|].
    destruct (settleRequest_fields p
                (Rejected (RequestTimeoutError (t_messageId t) (t_timeoutMs t) (t_route t))) st)
      as (_ & _ & -> & _). lia.
  - split; [now apply onMessage_balanced|].
    destruct (onMessage_receives IpcResponseSchema IpcErrorSchema isResponseError data st)
      as (_ & -> & _). lia.
  - split; [now apply onStream_balanced|].
    destruct (onStream_receives IpcStreamSchema data st) as (_ & -> & _). lia.
  - destruct (onDisconnect_rejects_all st HI Hc)
      as (st' & -> & _ & Ep & Es & _ & _ & _ & Em).
    split; [|lia]. unfold balanced in *.
    rewrite Ep, Es, Em, length_app, length_map. simpl. lia.
  - assert (H : forall ds s, Inv s -> balanced s -> balanced (fold_left dispatch ds s)).
    { induction ds as [|r ds IH]; intros s HIs Hbs; [exact Hbs|].
      simpl. apply IH; [now apply dispatch_Inv|now apply dispatch_balanced]. }
    split.
    + unfold Rpc.onData. destruct (decodeRead data) as [ds e].
      apply surface_balanced. now apply H.
    + destruct (onData_receives IpcResponseSchema IpcStreamSchema IpcErrorSchema
                  isResponseError data st) as (_ & -> & _). lia.
  - split; [now apply (balanced_ext st)|unfold onClientClose; simpl; lia].
  - destruct o as [|error]; simpl; [split; [now apply (balanced_ext st)|simpl; lia]|].
    destruct (isConnectRefusedError error); [split; [exact Hb|simpl; lia]|].
    destruct (isNoEntityError error); (split; [exact Hb|simpl; lia]).
Qed.

Lemma run_balanced calls : forall st,
  Inv st -> client st <> None -> balanced st ->
  balanced (run calls st)
  /\ messageIds (run calls st) = messageIds st + Z.of_nat (requests_in calls).
Proof.
  induction calls as [|c calls IH]; intros st HI Hc Hb; [split; [exact Hb|simpl; lia]|].
  destruct (step_balanced st c HI Hc Hb) as (Hb' & Em).
  assert (Hc' : client (step st c) <> None).
  { destruct (step_grows IpcResponseSchema IpcStreamSchema IpcErrorSchema
                isResponseError st c) as (_ & -> & _). exact Hc. }
  destruct (IH (step st c) (step_Inv _ _ _ _ st c HI) Hc' Hb') as (Hb'' & Em').
  split; [exact Hb''|].
  change (run (c :: calls) st) with (run calls (step st c)).
  rewrite Em', Em. unfold requests_in. simpl. destruct (is_request c); simpl; lia.
Qed.

(** X14: in every state a client reaches, the message counter is the number
    of calls of [request] so far, and every request is counted once: in the
    table, or in the calls of the futures. *)
Theorem requests_are_accounted (calls : list Call) :
  let st := run calls new_client in
  messageIds st = Z.of_nat (requests_in calls)
  /\ Z.of_nat (List.length (pending st)) + Z.of_nat (List.length (settled st))
     = messageIds st.
Proof.
  intros st.
  destruct (run_balanced calls new_client new_client_Inv) as (Hb & Em);
    [discriminate|reflexivity|].
  split; [exact Em|exact Hb].
Qed.

(** X12: in every state a client reaches, [request] is accepted, takes the
    next message id, which no entry, Response or call of a future has yet,
    adds its entry and its Response at the end, writes one message, and
    settles nothing. *)
Theorem request_allocates (calls : list Call) (route : jstr) (payload : option json)
    (options : option (option Z)) :
  let st := run calls new_client in
  let id := messageIds st + 1 in
  exists st',
    request route payload options st = inr (st', id)
    /\ get id (pending st) = None /\ get id (responses st) = None
    /\ calls_of id st = []
    /\ messageIds st' = id
    /\ pending st' = pending st ++ [(id, entry_of id route (timeout_of options st))]
    /\ responses st' = responses st ++ [(id, fresh_response)]
    /\ written st' = written st ++ [send_bytes id route payload]
    /\ settled st' = settled st /\ errors st' = errors st.
Proof.
  intros st id.
  destruct (run_new_client IpcResponseSchema IpcStreamSchema IpcErrorSchema
              isResponseError calls) as (HI & Hc).
  fold st in HI, Hc.
  assert (Hc' : client st <> None) by congruence.
  destruct (request_fields route payload options st Hc')
    as (st' & E & Em & Ep & Er & _ & Es & Ew & _ & _ & Ee & _).
  assert (Hr : get id (responses st) = None).
  { destruct (get id (responses st)) as [r|] eqn:E'; [|reflexivity].
    apply (inv_latch st HI) in E'. unfold id in E'. lia. }
  assert (Hp : get id (pending st) = None).
  { destruct (get id (pending st)) as [p|] eqn:E'; [|reflexivity].
    destruct (inv_entry st HI _ _ E') as (_ & _ & r & Hr'). congruence. }
  exists st'. split; [exact E|]. split; [exact Hp|]. split; [exact Hr|].
  split.
  { apply calls_of_nil. intros x Hx. apply (inv_calls st HI) in Hx. unfold id in Hx. lia. }
  split; [exact Em|].
  fold id in Ep, Er, Ew.
  rewrite Ep, Er, !set_fresh by assumption. repeat split; assumption.
Qed.

(** X15: in every state a client reaches, the armed timeouts are those of
    the entries of the table: a timeout is armed exactly while its request is
    pending. *)
Theorem timeout_armed_while_pending (calls : list Call) (t : Timer) :
  let st := run calls new_client in
  In t (timers st)
  <-> exists p, get (t_messageId t) (pending st) = Some p /\ req_timeout p = Some t.
Proof.
  intros st.
  assert (HI : Inv st) by apply run_Inv, new_client_Inv.
  split.
  - intros Ht. destruct (inv_timer st HI t Ht) as (E & p & Hp & Hto).
    exists p. now rewrite E.
  - intros (p & Hp & Hto).
    destruct (inv_entry st HI _ p Hp) as (_ & H & _). now apply H.
Qed.

(** X20: in every state a client reaches, [onDisconnect] rejects the entries
    of the table in order, each with the connection-lost error of its route,
    and leaves the table empty, no timeout armed and every request ever made
    settled with its Stream closed. *)
Theorem disconnect_settles_every_request (calls : list Call) :
  let st := run calls new_client in
  exists st',
    onDisconnect st = inr st'
    /\ pending st' = [] /\ timers st' = []
    /\ settled st' = settled st ++ map lost (pending st)
    /\ isConnected st' = false /\ closes st' = S (closes st)
    /\ messageIds st' = messageIds st
    /\ forall k, 1 <= k <= messageIds st ->
         exists r x, get k (responses st') = Some r
                     /\ promise r = Some x /\ closed (stream r) = true.
Proof.
  intros st.
  destruct (run_new_client IpcResponseSchema IpcStreamSchema IpcErrorSchema
              isResponseError calls) as (HI & Hc).
  fold st in HI, Hc.
  destruct (onDisconnect_rejects_all st HI ltac:(congruence))
    as (st' & E & HI' & Ep & Es & Ei & Ecl & _ & Em).
  exists st'. split; [exact E|]. split; [exact Ep|].
  split.
  { destruct (timers st') as [|t ts] eqn:Et; [reflexivity|].
    destruct (inv_timer st' HI' t) as (_ & p & Hp & _); [rewrite Et; now left|].
    rewrite Ep in Hp. discriminate. }
  repeat (split; [assumption|]).
  intros k Hk. rewrite <- Em in Hk.
  destruct (inv_alloc st' HI' k Hk) as (r & Hr).
  destruct (inv_latch st' HI' k r Hr) as (_ & [(Hh & _)|(_ & x & _ & Hx & Hcl & _)]).
  - rewrite Ep in Hh. discriminate.
  - now exists r, x.
Qed.

End Counting.

(** *** The Streams of the requests in the table *)

Lemma open_pending_ext st st' :
  pending st' = pending st -> responses st' = responses st ->
  open_pending st -> open_pending st'.
Proof. unfold open_pending. now intros -> ->. Qed.

Lemma settleRequest_open k p x st :
  Inv st -> get k (pending st) = Some p -> open_pending st ->
  open_pending (settleRequest p x st).
Proof.
  intros HI Hp Ho k' p' r'.
  destruct (inv_entry st HI k p Hp) as (Hk & _).
  destruct (settleRequest_fields p x st) as (Ep & _ & _ & _ & Er & _).
  rewrite Ep, Er, Hk. intros H1 H2.
  destruct (Z.eq_dec k k') as [<-|Hne]; [now rewrite get_delete_same in H1|].
  rewrite get_delete_other in H1 by exact Hne.
  destruct (get k' (responses st)) as [r|] eqn:Hr; [|discriminate].
  destruct (Z.eqb_spec k k'); [contradiction|]. injection H2 as <-.
  now apply (Ho k' p').
Qed.

Lemma update_open id (f : Response -> Response) st :
  (forall r, closed (stream (f r)) = closed (stream r)) ->
  open_pending st -> open_pending (set_responses (update id f (responses st)) st).
Proof.
  intros Hf Ho k p r H1 H2. simpl in H1, H2. rewrite get_update in H2.
  destruct (get k (responses st)) as [r0|] eqn:Hr; [|discriminate].
  injection H2 as <-. destruct (id =? k); [rewrite Hf|]; now apply (Ho k p).
Qed.

Lemma write_stream_open id v st : open_pending st -> open_pending (write_stream id v st).
Proof.
  apply update_open. intros r. simpl. unfold Stream_write.
  now destruct (closed (stream r)) eqn:E.
Qed.

Lemma surface_open e st : open_pending st -> open_pending (surface e st).
Proof. destruct e; [|auto]. now apply open_pending_ext. Qed.

Lemma reject_all_open l : forall st,
  pending st = l -> Inv st -> open_pending st -> open_pending (reject_all l st).
Proof.
  induction l as [|[k0 p] l IH]; intros st Hl HI Ho; [exact Ho|].
  destruct (reject_all_head k0 p l st Hl HI) as (-> & Hg & Hl1 & HI1).
  apply IH; [exact Hl1|exact HI1|]. now apply (settleRequest_open k0).
Qed.

Section Streams.
Variable IpcResponseSchema : json -> tryValidateResult IpcResponse.
Variable IpcStreamSchema : json -> tryValidateResult IpcStream.
Variable IpcErrorSchema : option json -> tryValidateResult IpcError.
Variable isResponseError : Response -> bool.

#[local] Abbreviation handleEnd := (handleEnd IpcResponseSchema IpcErrorSchema isResponseError).
#[local] Abbreviation handleStream := (handleStream IpcStreamSchema).
#[local] Abbreviation onMessage := (onMessage IpcResponseSchema IpcErrorSchema isResponseError).
#[local] Abbreviation onStream := (onStream IpcStreamSchema).
#[local] Abbreviation dispatch :=
  (dispatch IpcResponseSchema IpcStreamSchema IpcErrorSchema isResponseError).
#[local] Abbreviation onData :=
  (onData IpcResponseSchema IpcStreamSchema IpcErrorSchema isResponseError).
#[local] Abbreviation step := (step IpcResponseSchema IpcStreamSchema IpcErrorSchema isResponseError).
#[local] Abbreviation run := (run IpcResponseSchema IpcStreamSchema IpcErrorSchema isResponseError).

Lemma onMessage_open data st : Inv st -> open_pending st -> open_pending (onMessage data st).
Proof.
  intros HI Ho. unfold Rpc.onMessage, Rpc.handleEnd.
  destruct (result (IpcResponseSchema data)) as [res|]; [|now apply surface_open].
  destruct (get (res_id res) (pending st)) as [p|] eqn:Hp; [|exact Ho].
  cbv zeta.
  pose proof (set_status_Inv (req_response p) (res_status res) st HI) as HI'.
  assert (Ho' : open_pending (set_status (req_response p) (res_status res) st))
    by now apply update_open.
  assert (Hp' : get (res_id res) (pending (set_status (req_response p) (res_status res) st))
                = Some p) by exact Hp.
  destruct (match get _ _ with Some response => isResponseError response | None => false end);
    [destruct (result (IpcErrorSchema (res_data res)));
     [|destruct (error (IpcErrorSchema (res_data res)))]|];
    cbn [surface]; rewrite ?rejectRequest_settle, ?resolveRequest_settle;
    now apply (settleRequest_open (res_id res)).
Qed.

Lemma onStream_open data st : open_pending st -> open_pending (onStream data st).
Proof.
  intros Ho. unfold Rpc.onStream, Rpc.handleStream.
  destruct (result (IpcStreamSchema data)) as [res|]; [|now apply surface_open].
  destruct (get (str_id res) (pending st)) as [p|]; [|exact Ho].
  now apply write_stream_open.
Qed.

Lemma dispatch_open st r : Inv st -> open_pending st -> open_pending (dispatch st r).
Proof.
  intros HI Ho. unfold Rpc.dispatch.
  repeat match goal with |- context [if ?b then _ else _] => destruct b end;
    auto using onMessage_open, onStream_open; now apply surface_open.
Qed.

Lemma step_open st c : Inv st -> open_pending st -> open_pending (step st c).
Proof.
  intros HI Ho.
  destruct c as [route payload options|tok|data|data| |data| |o]; cbn [Rpc.step].
  - destruct (request route payload options st) as [e|[st' id]] eqn:E; [exact Ho|].
    assert (Hc : client st <> None).
    { unfold request in E. destruct (client st); [discriminate|discriminate E]. }
    destruct (request_fields route payload options st Hc)
      as (st0 & E0 & Em & Ep & Er & _).
    rewrite E0 in E. injection E as <- <-.
    intros k p r. rewrite Ep, Er.
    destruct (Z.eq_dec (messageIds st + 1) k) as [<-|Hne].
    + rewrite !get_set_same. now intros _ [= <-].
    + rewrite !get_set_other by exact Hne. apply Ho.
  - destruct (find _ _) as [t|] eqn:Ef; [|exact Ho].
    apply find_some in Ef as [Ht _].
    destruct (timer_fires t st HI Ht) as (p & Hp & ->).
    now apply (settleRequest_open (token t)).
  - now apply onMessage_open.
  - now apply onStream_open.
  - unfold onDisconnect. destruct (client st); [|exact Ho].
    intros k p r H. discriminate H.
  - unfold Rpc.onData. destruct (decodeRead data) as [ds e].
    apply surface_open. revert st HI Ho.
    induction ds as [|r ds IH]; intros st HI Ho; [exact Ho|].
    simpl. apply IH; [now apply dispatch_Inv|now apply dispatch_open].
  - now apply (open_pending_ext st).
  - destruct o as [|error]; simpl; [now apply (open_pending_ext st)|].
    destruct (isConnectRefusedError error); [exact Ho|].
    destruct (isNoEntityError error); exact Ho.
Qed.

Lemma run_open calls : forall st, Inv st -> open_pending st -> open_pending (run calls st).
Proof.
  induction calls as [|c calls IH]; intros st HI Ho; [exact Ho|].
  simpl. apply IH; [now apply step_Inv|now apply step_open].
Qed.

Lemma onStream_appends id p r data part st :
  Inv st -> open_pending st ->
  get id (pending st) = Some p -> get id (responses st) = Some r ->
  result (IpcStreamSchema data) = Some part -> str_id part = id ->
  let st' := onStream data st in
  pending st' = pending st /\ settled st' = settled st /\ errors st' = errors st
  /\ exists r', get id (responses st') = Some r'
       /\ values (stream r') = values (stream r) ++ [str_data part]
       /\ closed (stream r') = false /\ promise r' = promise r /\ status r' = status r.
Proof.
  intros HI Ho Hp Hr Hd Hid. cbv zeta. unfold Rpc.onStream, Rpc.handleStream.
  rewrite Hd, Hid, Hp. cbn [surface].
  destruct (inv_entry st HI id p Hp) as (-> & _).
  repeat (split; [reflexivity|]).
  unfold write_stream. simpl. rewrite get_update, Hr, Z.eqb_refl.
  eexists. split; [reflexivity|]. simpl. unfold Stream_write.
  rewrite (Ho id p r Hp Hr). simpl. repeat split.
Qed.

(** X19: the chunks that arrive for a request in the table are appended to
    its Stream in the order of arrival; the Stream stays open, nothing is
    settled and no error is surfaced. *)
Theorem stream_chunks_in_order (calls : list Call) (id : Z) (chunks : list json)
    (parts : list IpcStream) :
  let st := run calls new_client in
  let st' := run (map CStream chunks) st in
  has id (pending st) = true ->
  Forall2 (fun d part => result (IpcStreamSchema d) = Some part /\ str_id part = id)
    chunks parts ->
  pending st' = pending st /\ settled st' = settled st /\ errors st' = errors st
  /\ exists r r',
       get id (responses st) = Some r /\ get id (responses st') = Some r'
       /\ values (stream r') = values (stream r) ++ map str_data parts
       /\ closed (stream r') = false /\ promise r' = None.
Proof.
  intros st st' Hh Hf. subst st'.
  assert (HI : Inv st) by apply run_Inv, new_client_Inv.
  assert (Ho : open_pending st).
  { apply run_open; [apply new_client_Inv|]. intros k p r H. discriminate H. }
  apply has_true in Hh as (p & Hp).
  destruct (inv_entry st HI id p Hp) as (_ & _ & r & Hr).
  assert (Hprom : promise r = None).
  { destruct (inv_latch st HI id r Hr) as (_ & [(_ & _ & H)|(H & _)]); [exact H|].
    apply has_false in H. congruence. }
  clearbody st. revert st r HI Ho Hp Hr Hprom.
  induction Hf as [|d part chunks parts (Hd & Hid) _ IH]; intros st r HI Ho Hp Hr Hprom.
  - simpl. repeat (split; [reflexivity|]). exists r, r.
    rewrite List.app_nil_r. pose proof (Ho id p r Hp Hr). repeat split; assumption.
  - cbn [map]. change (run (CStream d :: map CStream chunks) st)
      with (run (map CStream chunks) (onStream d st)).
    destruct (onStream_appends id p r d part st HI Ho Hp Hr Hd Hid)
      as (E1 & E2 & E3 & r1 & Hr1 & Hv & Hc & Hpr & _).
    assert (Hp1 : get id (pending (onStream d st)) = Some p) by now rewrite E1.
    destruct (IH (onStream d st) r1 (onStream_Inv _ d st HI) (onStream_open d st Ho)
                Hp1 Hr1 ltac:(congruence))
      as (F1 & F2 & F3 & r0 & r' & Hr0 & Hr' & Hv' & Hc' & Hpr').
    rewrite F1, F2, F3, E1, E2, E3. repeat (split; [reflexivity|]).
    exists r, r'. split; [exact Hr|]. split; [exact Hr'|].
    assert (r0 = r1) by congruence. subst r0.
    rewrite Hv', Hv, <- app_assoc. repeat split; assumption.
Qed.

(** *** Requests without a timeout *)

Lemma reject_all_timeoutMs l : forall st, timeoutMs (reject_all l st) = timeoutMs st.
Proof.
  induction l as [|[k p] l IH]; intros st; [reflexivity|].
  cbn [reject_all]. rewrite IH. destruct (has k (pending st)); [|reflexivity].
  rewrite rejectRequest_settle.
  now destruct (settleRequest_fields p (Rejected (ConnectionLostError (req_type p))) st)
    as (_ & _ & _ & _ & _ & _ & _ & _ & _ & _ & ->).
Qed.

Lemma step_no_timer st c :
  Inv st -> asks_timeout c = false -> timeoutMs st = None -> timers st = [] ->
  timeoutMs (step st c) = None /\ timers (step st c) = [].
Proof.
  intros HI Hc Htm Ht.
  assert (Hrec : forall st', receives st st' -> timeoutMs st' = None /\ timers st' = []).
  { intros st' (_ & _ & _ & _ & _ & E & Hin & _). split; [congruence|].
    destruct (timers st') as [|t ts]; [reflexivity|].
    specialize (Hin t (or_introl eq_refl)). rewrite Ht in Hin. contradiction. }
  destruct c as [route payload options|tok|data|data| |data| |o]; cbn [Rpc.step].
  - destruct (request route payload options st) as [e|[st' id]] eqn:E; [now split|].
    assert (Hcl : client st <> None).
    { unfold request in E. destruct (client st); [discriminate|discriminate E]. }
    destruct (request_fields route payload options st Hcl)
      as (st0 & E0 & _ & _ & _ & Et & _ & _ & _ & _ & _ & _ & Etm').
    rewrite E0 in E. injection E as <- <-.
    split; [congruence|]. rewrite Et, Ht. unfold timeout_of.
    destruct options as [[ms|]|]; [discriminate Hc|reflexivity|now rewrite Htm].
  - rewrite Ht. simpl. now split.
  - apply Hrec, onMessage_receives.
  - apply Hrec, onStream_receives.
  - destruct (client st) eqn:Ecl; [|unfold onDisconnect; rewrite Ecl; now split].
    destruct (onDisconnect_rejects_all st HI ltac:(congruence))
      as (st' & E & HI' & Ep & _).
    rewrite E. split.
    + unfold onDisconnect in E. rewrite Ecl in E. injection E as <-.
      simpl. now rewrite reject_all_timeoutMs.
    + destruct (timers st') as [|t ts] eqn:Et; [reflexivity|].
      destruct (inv_timer st' HI' t) as (_ & p & Hp & _); [rewrite Et; now left|].
      rewrite Ep in Hp. discriminate.
  - apply Hrec, onData_receives.
  - now split.
  - destruct o as [|error]; simpl; [now split|].
    destruct (isConnectRefusedError error); [now split|].
    destruct (isNoEntityError error); now split.
Qed.

(** X16: the default timeout is null: in a run where no request passes a
    number as [options.timeoutMs], no timeout is ever armed, no entry holds
    one, and a timeout callback has nothing to do. *)
Theorem no_option_no_timer (calls : list Call) :
  Forall (fun c => asks_timeout c = false) calls ->
  let st := run calls new_client in
  timers st = []
  /\ (forall k p, get k (pending st) = Some p -> req_timeout p = None)
  /\ forall tok, step st (CTimeout tok) = st.
Proof.
  intros Hf st.
  assert (H : timeoutMs st = None /\ timers st = []).
  { subst st. generalize new_client_Inv.
    assert (H0 : timeoutMs new_client = None /\ timers new_client = []) by now split.
    revert H0. generalize new_client.
    induction Hf as [|c calls Hc _ IH]; intros st0 H0 HI; [exact H0|].
    simpl. destruct H0 as (H1 & H2).
    apply IH; [now apply step_no_timer|now apply step_Inv]. }
  destruct H as (_ & Ht).
  assert (HI : Inv st) by apply run_Inv, new_client_Inv.
  split; [exact Ht|]. split.
  - intros k p Hp. destruct (req_timeout p) as [t|] eqn:E; [|reflexivity].
    destruct (inv_entry st HI k p Hp) as (_ & Hin & _).
    destruct (Hin t E) as (_ & Hin'). rewrite Ht in Hin'. contradiction.
  - intros tok. cbn [Rpc.step]. now rewrite Ht.
Qed.

(** *** Envelopes of kind [error] and [malformedRequest] *)

(** X10: an envelope of kind [error] or [malformedRequest] ends its read.
    The case of the [switch] calls [this.onError(data)], where [onError] is
    the Event of the instance and not the method: the call throws a TypeError,
    the frames after it in the read are not handled, the socket emits
    nothing, and the handler of the [catch], which calls [this.onError] too,
    leaves the TypeError as a rejection that nothing handles.  Nothing else
    of the client changes. *)
Theorem error_envelope_ends_read (fs : list text) (f : text) (rest : list text)
    (r : TcpResponse) (st : Client) :
  Forall deliverable fs -> whole f -> Forall whole rest ->
  decodeEvent f = inr r ->
  type r = str "error" \/ type r = str "malformedRequest" ->
  decodeRead (framed (fs ++ f :: rest)) = (decoded fs, Some onError)
  /\ onData (framed (f :: rest)) st = set_errors (errors st ++ [onError]) st.
Proof.
  intros Hfs Hf Hrest Hr Ht.
  assert (Hc : calls_onError r = true).
  { unfold calls_onError. destruct Ht as [-> | ->]; reflexivity. }
  assert (Hloop : forall gs, Forall deliverable gs ->
                    onData_events (gs ++ f :: rest) = (decoded gs, Some onError)).
  { induction 1 as [|g gs [_ Hg] _ IH].
    - simpl. now rewrite Hr, Hc.
    - unfold decoded in *. cbn [onData_events flat_map app].
      destruct (decodeEvent g) as [e|x]; [contradiction|].
      rewrite Hg, IH. reflexivity. }
  split.
  - unfold decodeRead. rewrite events_of_framed.
    + now apply Hloop.
    + now destruct fs.
    + apply Forall_app. split; [now apply deliverable_whole|now constructor].
  - unfold Rpc.onData, decodeRead.
    rewrite events_of_framed by (discriminate || now constructor).
    pose proof (Hloop [] (Forall_nil _)) as E. cbn [app] in E. rewrite E. reflexivity.
Qed.

End Streams.

(** *** What the client writes *)

Section Writes.
Variable IpcResponseSchema : json -> tryValidateResult IpcResponse.
Variable IpcStreamSchema : json -> tryValidateResult IpcStream.
Variable IpcErrorSchema : option json -> tryValidateResult IpcError.
Variable isResponseError : Response -> bool.

#[local] Abbreviation step := (step IpcResponseSchema IpcStreamSchema IpcErrorSchema isResponseError).
#[local] Abbreviation run := (run IpcResponseSchema IpcStreamSchema IpcErrorSchema isResponseError).

Lemma step_written st c :
  Inv st -> client st <> None ->
  written (step st c) = written st ++ map sent (outgoing (messageIds st) [c]).
Proof.
  intros HI Hc.
  destruct c as [route payload options|tok|data|data| |data| |o];
    cbn [Rpc.step outgoing map]; rewrite ?List.app_nil_r.
  - destruct (request_fields route payload options st Hc)
      as (st0 & E0 & _ & _ & _ & _ & _ & Ew & _).
    rewrite E0. exact Ew.
  - destruct (find _ _) as [t|] eqn:Ef; [|reflexivity].
    apply find_some in Ef as [Ht _].
    destruct (timer_fires t st HI Ht) as (p & Hp & ->).
    now destruct (settleRequest_fields p
                    (Rejected (RequestTimeoutError (t_messageId t) (t_timeoutMs t) (t_route t)))
                    st) as (_ & _ & _ & _ & _ & _ & _ & -> & _).
  - now destruct (onMessage_receives IpcResponseSchema IpcErrorSchema isResponseError data st)
      as (-> & _).
  - now destruct (onStream_receives IpcStreamSchema data st) as (-> & _).
  - unfold onDisconnect. destruct (client st); [|reflexivity].
    assert (HI' : Inv (set_isConnected false st)) by now apply (Inv_ext st).
    destruct (reject_all_pending (pending st) (set_isConnected false st) eq_refl HI')
      as (_ & _ & _ & _ & _ & _ & _ & Ew & _). cbn zeta in Ew. simpl. exact Ew.
  - now destruct (onData_receives IpcResponseSchema IpcStreamSchema IpcErrorSchema
                    isResponseError data st) as (-> & _).
  - reflexivity.
  - destruct o as [|error]; simpl; [reflexivity|].
    destruct (isConnectRefusedError error); [reflexivity|].
    destruct (isNoEntityError error); reflexivity.
Qed.

Lemma outgoing_cons n c calls :
  outgoing n (c :: calls)
  = outgoing n [c] ++ outgoing (n + (if is_request c then 1 else 0)) calls.
Proof. destruct c; simpl; rewrite ?Z.add_0_r; reflexivity. Qed.

Lemma run_written calls : forall st,
  Inv st -> client st <> None -> balanced st ->
  written (run calls st) = written st ++ map sent (outgoing (messageIds st) calls).
Proof.
  induction calls as [|c calls IH]; intros st HI Hc Hb; [simpl; now rewrite List.app_nil_r|].
  change (run (c :: calls) st) with (run calls (step st c)).
  destruct (step_balanced IpcResponseSchema IpcStreamSchema IpcErrorSchema
              isResponseError st c HI Hc Hb) as (Hb' & Em).
  rewrite IH; [|now apply step_Inv| |exact Hb'].
  - rewrite (step_written st c HI Hc), Em, (outgoing_cons (messageIds st) c calls).
    now rewrite map_app, app_assoc.
  - destruct (step_grows IpcResponseSchema IpcStreamSchema IpcErrorSchema
                isResponseError st c) as (_ & -> & _). exact Hc.
Qed.

(** X13: over a whole run the client writes one message for each call of
    [request], in order and with the ids 1, 2, 3, ..., and nothing else; the
    peer reads them back as the envelopes of these requests. *)
Theorem writes_are_the_requests (calls : list Call) :
  let st := run calls new_client in
  written st = map sent (outgoing 0 calls)
  /\ (Forall sendable (outgoing 0 calls) ->
      decodeReads (written st) = (map envelope_of (outgoing 0 calls), [])).
Proof.
  intros st.
  assert (E : written st = map sent (outgoing 0 calls)).
  { unfold st. rewrite run_written; [reflexivity|apply new_client_Inv|discriminate|reflexivity]. }
  split; [exact E|]. intros H. rewrite E. now apply decodeReads_sent.
Qed.

End Writes.

(** *** Examples on the sample schemas *)

Lemma writes_are_the_requests_witness :
  let calls := [status_call; CStream part_of_9; block_call; CTimeout 1; CClientClose] in
  decodeReads (written (Sample.run calls new_client))
  = (map envelope_of (outgoing 0 calls), []).
Proof.
  refine (proj2 (writes_are_the_requests Sample.IpcResponseSchema Sample.IpcStreamSchema
                   Sample.IpcErrorSchema Sample.isResponseError
                   [status_call; CStream part_of_9; block_call; CTimeout 1; CClientClose]) _).
  apply Forall_cons; [|apply Forall_cons; [|apply Forall_nil]].
  - split; [unfold safe_integer; simpl; lia|split; [units|exact I]].
  - split; [unfold safe_integer; simpl; lia|split; [units|cbn [out_data]; represent]].
Defined.

Lemma settled_request_is_final_witness :
  let st := Sample.run [status_call; block_call; CMessage failure_of_2] new_client in
  same_request 2 st
    (Sample.run [CMessage failure_of_2; CTimeout 1; CDisconnect; status_call] st).
Proof.
  apply (settled_request_is_final Sample.IpcResponseSchema Sample.IpcStreamSchema
           Sample.IpcErrorSchema Sample.isResponseError
           [status_call; block_call; CMessage failure_of_2]
           [CMessage failure_of_2; CTimeout 1; CDisconnect; status_call] 2).
  - vm_compute. discriminate.
  - reflexivity.
Defined.

Lemma other_requests_untouched_witness :
  let st := Sample.run [status_call; block_call] new_client in
  same_request 1 st
    (Rpc.onMessage Sample.IpcResponseSchema Sample.IpcErrorSchema Sample.isResponseError
       failure_of_2 st).
Proof.
  refine (proj1 (other_requests_untouched Sample.IpcResponseSchema Sample.IpcStreamSchema
                   Sample.IpcErrorSchema Sample.isResponseError
                   [status_call; block_call] 1 failure_of_2 2) _).
  intros res [= <-]. discriminate.
Defined.

Lemma stream_chunks_in_order_witness :
  let st := Sample.run [status_call; block_call] new_client in
  let st' :=
    Sample.run (map CStream [JObj [(str "id", JNum 2); (str "data", JNum 10)];
                             JObj [(str "id", JNum 2); (str "data", JNum 11)]]) st in
  pending st' = pending st /\ settled st' = settled st /\ errors st' = errors st
  /\ exists r r',
       get 2 (responses st) = Some r /\ get 2 (responses st') = Some r'
       /\ values (stream r') = values (stream r) ++ [Some (JNum 10); Some (JNum 11)]
       /\ closed (stream r') = false /\ promise r' = None.
Proof.
  apply (stream_chunks_in_order Sample.IpcResponseSchema Sample.IpcStreamSchema
           Sample.IpcErrorSchema Sample.isResponseError
           [status_call; block_call] 2
           [JObj [(str "id", JNum 2); (str "data", JNum 10)];
            JObj [(str "id", JNum 2); (str "data", JNum 11)]]
           [{| str_id := 2; str_data := Some (JNum 10) |};
            {| str_id := 2; str_data := Some (JNum 11) |}]).
  - reflexivity.
  - apply Forall2_cons; [split; reflexivity|].
    apply Forall2_cons; [split; reflexivity|apply Forall2_nil].
Defined.

Lemma no_option_no_timer_witness :
  let st := Sample.run [block_call; CMessage failure_of_2; block_call] new_client in
  timers st = []
  /\ (forall k p, get k (pending st) = Some p -> req_timeout p = None)
  /\ forall tok, Sample.step st (CTimeout tok) = st.
Proof.
  apply (no_option_no_timer Sample.IpcResponseSchema Sample.IpcStreamSchema
           Sample.IpcErrorSchema Sample.isResponseError
           [block_call; CMessage failure_of_2; block_call]).
  repeat first [apply Forall_nil | apply Forall_cons; [reflexivity|]].
Defined.

Lemma error_envelope_ends_read_witness :
  let f := js "{'type':'malformedRequest','data':{'code':7}}" in
  decodeRead (framed ([stream_frame] ++ f :: [message_frame]))
  = (decoded [stream_frame], Some onError)
  /\ Rpc.onData Sample.IpcResponseSchema Sample.IpcStreamSchema Sample.IpcErrorSchema
       Sample.isResponseError (framed (f :: [message_frame])) new_client
     = set_errors [onError] new_client.
Proof.
  apply (error_envelope_ends_read Sample.IpcResponseSchema Sample.IpcStreamSchema
           Sample.IpcErrorSchema Sample.isResponseError
           [stream_frame] (js "{'type':'malformedRequest','data':{'code':7}}")
           [message_frame]
           {| type := str "malformedRequest"; data := JObj [(str "code", JNum 7)] |}
           new_client).
  - repeat first [apply Forall_nil | apply Forall_cons]; deliverable_frame.
  - whole_frame.
  - repeat first [apply Forall_nil | apply Forall_cons]; whole_frame.
  - vm_compute; reflexivity.
  - now right.
Defined.

Lemma timeout_armed_while_pending_witness :
  In (timer_of 1 (str "node/getStatus") 5000)
    (timers (Sample.run [status_call; block_call] new_client)).
Proof.
  apply (proj2 (timeout_armed_while_pending Sample.IpcResponseSchema Sample.IpcStreamSchema
                  Sample.IpcErrorSchema Sample.isResponseError
                  [status_call; block_call] (timer_of 1 (str "node/getStatus") 5000))).
  exists (entry_of 1 (str "node/getStatus") (Some 5000)). split; reflexivity.
Defined.

End RunFacts.
